(** * PDFTextExtractor: a shallow embedding of [src/PDFTextExtractor.py]

    The script extracts test names from a source PDF and a target PDF,
    matches them (strict, then loose), and writes the target pages that
    matched.  The PDF library is an external collaborator: a document is
    the list of its pages and a page gives its raw text.

    Modelling choices, fixed once for the whole development.
    - A Python [str] is a [list ascii] ([text]).  The character classes of
      the [re] module ([\s], [\d], [\w]), [str.strip], [str.split],
      [str.lower] and [str.upper] are the ASCII ones; a character above
      127 is a byte of a UTF-8 sequence, it has no case and belongs to no
      class.  The three non-ASCII characters [norm_layout] names are
      their UTF-8 byte sequences.  On text of characters below 128
      ([plain]) these tables are Python's; on other text Python knows
      more white space, digits, letters and case pairs.  A theorem
      whose truth depends on what the tables hold above 127 is
      therefore stated for plain text.
    - Page numbers and counters are [nat].
    - [dict]/[defaultdict] are [gmap], [set] is [gset]; a loop over
      [d.items()] is a fold over [map_to_list d].  Every such loop of the
      script only adds to a set or raises a flag, so its result does not
      depend on the order of the items. *)

From Stdlib Require Import Ascii String.
From stdpp Require Import gmap strings list fin_maps sorting.

Local Open Scope nat_scope.
Local Open Scope bool_scope.

(** ** Text *)

#[local] Abbreviation text := (list ascii).

Definition txt (s : string) : text := list_ascii_of_string s.

Definition code (c : ascii) : nat := nat_of_ascii c.

Definition between (lo hi : nat) (c : ascii) : bool :=
  (lo <=? code c) && (code c <=? hi).

(** [str.isspace] on one character, which is also the class [\s], for
    the characters below 128: TAB, LF, VT, FF, CR, FS, GS, RS, US and
    SPACE.  (Python's white space also has characters beyond these, the
    no-break space among them.) *)
Definition isspace (c : ascii) : bool := between 9 13 c || between 28 32 c.

(** The class [\d] for the characters below 128.  (In a [str] pattern
    every Unicode decimal digit is in the class.) *)
Definition isdigit (c : ascii) : bool := between 48 57 c.

Definition isupper (c : ascii) : bool := between 65 90 c.
Definition islower (c : ascii) : bool := between 97 122 c.

(** The class [\w] for the characters below 128: letters, digits and
    the underscore.  (In a [str] pattern the letters and digits of every
    script are word characters.) *)
Definition isword (c : ascii) : bool :=
  isdigit c || isupper c || islower c || (code c =? 95).

(** The case mappings of the letters below 128; every other character
    is left as it is.  ([str.lower] and [str.upper] also map letters
    beyond these, not always one to one.) *)
Definition lower_char (c : ascii) : ascii :=
  if isupper c then ascii_of_nat (code c + 32) else c.

Definition upper_char (c : ascii) : ascii :=
  if islower c then ascii_of_nat (code c - 32) else c.

(** [s.lower()] and [s.upper()]. *)
Definition lower (s : text) : text := map lower_char s.
Definition upper (s : text) : text := map upper_char s.

Definition CR : ascii := ascii_of_nat 13.
Definition LF : ascii := ascii_of_nat 10.
Definition SP : ascii := ascii_of_nat 32.

Fixpoint drop_while (p : ascii → bool) (s : text) : text :=
  match s with
  | [] => []
  | c :: s' => if p c then drop_while p s' else s
  end.

Fixpoint take_while (p : ascii → bool) (s : text) : text :=
  match s with
  | [] => []
  | c :: s' => if p c then c :: take_while p s' else []
  end.

(** [s.lstrip()], [s.rstrip()], [s.strip()] and [s.rstrip(chars)]. *)
Definition lstrip (s : text) : text := drop_while isspace s.
Definition rstrip_by (p : ascii → bool) (s : text) : text :=
  rev (drop_while p (rev s)).
Definition rstrip (s : text) : text := rstrip_by isspace s.
Definition strip (s : text) : text := lstrip (rstrip s).

Definition inb (chars : text) (c : ascii) : bool :=
  existsb (Ascii.eqb c) chars.

Definition rstrip_chars (chars : text) (s : text) : text :=
  rstrip_by (inb chars) s.

(** [s.split()]: the maximal runs of non-space characters. *)
Fixpoint split_ws_aux (cur : text) (s : text) : list text :=
  match s with
  | [] => if cur is [] then [] else [rev cur]
  | c :: s' =>
      if isspace c
      then (if cur is [] then split_ws_aux [] s'
            else rev cur :: split_ws_aux [] s')
      else split_ws_aux (c :: cur) s'
  end.

Definition split_ws (s : text) : list text := split_ws_aux [] s.

(** [sep.join(parts)]. *)
Fixpoint join (sep : text) (parts : list text) : text :=
  match parts with
  | [] => []
  | [p] => p
  | p :: ps => p ++ sep ++ join sep ps
  end.

Fixpoint is_prefix (p s : text) : bool :=
  match p, s with
  | [], _ => true
  | _ :: _, [] => false
  | a :: p', b :: s' => Ascii.eqb a b && is_prefix p' s'
  end.

(** [sub in s] for strings. *)
Fixpoint contains (sub s : text) : bool :=
  is_prefix sub s ||
  match s with
  | [] => false
  | _ :: s' => contains sub s'
  end.

(** [s.replace(old, new)] for a non-empty [old]: occurrences are replaced
    from left to right without overlap; [skip] counts the characters of
    the occurrence just replaced that are still to be passed over. *)
Fixpoint replace_from (old new : text) (skip : nat) (s : text) : text :=
  match s with
  | [] => []
  | c :: s' =>
      match skip with
      | S k => replace_from old new k s'
      | O =>
          if is_prefix old s
          then new ++ replace_from old new (length old - 1) s'
          else c :: replace_from old new 0 s'
      end
  end.

Definition replace (old new : text) (s : text) : text :=
  replace_from old new 0 s.

(** ** Regular expressions

    The fragment of Python's [re] syntax the two patterns of the script
    use, and a backtracking matcher with the priorities of [re]: the
    left alternative first, a greedy repeat longest first, a lazy repeat
    shortest first.  The matcher is written with a continuation, which
    stands for the rest of the pattern; a failure of the continuation
    makes the matcher try its next choice. *)

Inductive cclass : Type :=
  | CDigit                    (* \d *)
  | CSpace                    (* \s *)
  | CNotIn (chars : text).    (* [^chars] *)

Inductive regex : Type :=
  | Eps
  | Chr (c : ascii)                                   (* a literal *)
  | Cls (k : cclass)
  | Seq (r1 r2 : regex)
  | Alt (r1 r2 : regex)                               (* r1|r2 *)
  | Rep (r : regex) (lo : nat) (hi : option nat) (lazy : bool)
                                        (* r{lo,hi}, r{lo,hi}? if lazy *)
  | Grp (n : nat) (r : regex)                         (* capture n *)
  | Ahead (r : regex)                                 (* (?=r) *)
  | Bound                                             (* \b *)
  | Eos.                                              (* $ *)

(** A position of the matcher in the subject: the character before it,
    the text from it on, and the groups captured so far. *)
Record mstate : Type := MState {
  seen : option ascii;
  rest : text;
  groups : gmap nat text
}.

(** A literal under [re.I] (flag [ic]) or not.  Under [re.I] two
    characters below 128 match when they are equal in lower case.  (On
    other text [re.I] also pairs a few letters with characters beyond
    128.) *)
Definition chr_eq (ic : bool) (c a : ascii) : bool :=
  if ic then Ascii.eqb (lower_char c) (lower_char a) else Ascii.eqb c a.

Definition in_class (ic : bool) (k : cclass) (a : ascii) : bool :=
  match k with
  | CDigit => isdigit a
  | CSpace => isspace a
  | CNotIn chars => negb (existsb (fun c => chr_eq ic c a) chars)
  end.

Definition word_at (o : option ascii) : bool :=
  match o with Some c => isword c | None => false end.

(** [\b]: exactly one side of the position is a word character. *)
Definition at_boundary (st : mstate) : bool :=
  xorb (word_at (seen st)) (word_at (head (rest st))).

(** [$] without [re.M]: the end of the text, or just before a line feed
    that ends the text. *)
Definition at_eos (st : mstate) : bool :=
  match rest st with
  | [] => true
  | [c] => Ascii.eqb c LF
  | _ => false
  end.

(** The text consumed between two positions of one run. *)
Definition consumed (st st' : mstate) : text :=
  take (length (rest st) - length (rest st')) (rest st).

Definition set_group (n : nat) (st st' : mstate) : mstate :=
  MState (seen st') (rest st') (<[n := consumed st st']> (groups st')).

Definition step_char (p : ascii → bool) (st : mstate)
    (k : mstate → option mstate) : option mstate :=
  match rest st with
  | a :: s => if p a then k (MState (Some a) s (groups st)) else None
  | [] => None
  end.

Definition more_allowed (hi : option nat) : bool :=
  match hi with Some O => false | _ => true end.

(** The repeat [body{lo,hi}].  Every iteration has to consume a
    character (the bodies of the script's repeats always do), so a fuel
    above the length of the remaining text is never used up. *)
Fixpoint rep_loop (body : mstate → (mstate → option mstate) → option mstate)
    (fuel lo : nat) (hi : option nat) (lazy : bool)
    (st : mstate) (k : mstate → option mstate) : option mstate :=
  match fuel with
  | O => None
  | S fuel' =>
      let again :=
        if more_allowed hi
        then body st (fun st' =>
               if length (rest st') <? length (rest st)
               then rep_loop body fuel' (pred lo) (pred <$> hi) lazy st' k
               else None)
        else None in
      match lo with
      | S _ => again
      | O =>
          if lazy
          then (match k st with Some r => Some r | None => again end)
          else (match again with Some r => Some r | None => k st end)
      end
  end.

Fixpoint rmatch (ic : bool) (r : regex) {struct r}
    : mstate → (mstate → option mstate) → option mstate :=
  match r with
  | Eps => fun st k => k st
  | Chr c => step_char (chr_eq ic c)
  | Cls cl => step_char (in_class ic cl)
  | Seq r1 r2 => fun st k => rmatch ic r1 st (fun st' => rmatch ic r2 st' k)
  | Alt r1 r2 => fun st k =>
      match rmatch ic r1 st k with
      | Some res => Some res
      | None => rmatch ic r2 st k
      end
  | Rep r lo hi lazy => fun st k =>
      rep_loop (rmatch ic r) (S (length (rest st))) lo hi lazy st k
  | Grp n r => fun st k => rmatch ic r st (fun st' => k (set_group n st st'))
  | Ahead r => fun st k =>
      match rmatch ic r st Some with
      | Some _ => k st
      | None => None
      end
  | Bound => fun st k => if at_boundary st then k st else None
  | Eos => fun st k => if at_eos st then k st else None
  end.

(** A match object: [m.start()], [m.end()] and the groups. *)
Record match_obj : Type := MatchObj {
  m_start : nat;
  m_end : nat;
  m_groups : gmap nat text
}.

(** [m.group(n)]; a group that took no part in the match reads as the
    empty text here (in both patterns of the script every group takes
    part in every match). *)
Definition group (m : match_obj) (n : nat) : text :=
  default [] (m_groups m !! n).

(** One attempt at the position [pos], where the text [s] starts. *)
Definition match_here (ic : bool) (r : regex) (pos : nat)
    (sn : option ascii) (s : text) : option (match_obj * mstate) :=
  match rmatch ic r (MState sn s ∅) Some with
  | Some st' =>
      Some (MatchObj pos (pos + (length s - length (rest st'))) (groups st'),
            st')
  | None => None
  end.

(** [pattern.search]: the first position, from the left, where an
    attempt succeeds.  The end state comes with the match object so that
    [finditer] can go on from there. *)
Fixpoint search_from (ic : bool) (r : regex) (pos : nat)
    (sn : option ascii) (s : text) : option (match_obj * mstate) :=
  match match_here ic r pos sn s with
  | Some res => Some res
  | None =>
      match s with
      | [] => None
      | c :: s' => search_from ic r (S pos) (Some c) s'
      end
  end.

Definition search (ic : bool) (r : regex) (s : text) : option match_obj :=
  fst <$> search_from ic r 0 None s.

(** [pattern.finditer]: the matches from left to right, each search
    starting where the previous match ended.  After an empty match the
    next search starts one character further. *)
Fixpoint finditer_from (fuel : nat) (ic : bool) (r : regex) (pos : nat)
    (sn : option ascii) (s : text) : list match_obj :=
  match fuel with
  | O => []
  | S fuel' =>
      match search_from ic r pos sn s with
      | None => []
      | Some (m, st') =>
          m ::
          (if m_start m <? m_end m
           then finditer_from fuel' ic r (m_end m) (seen st') (rest st')
           else match rest st' with
                | [] => []
                | c :: s' => finditer_from fuel' ic r (S (m_end m)) (Some c) s'
                end)
      end
  end.

Definition finditer (ic : bool) (r : regex) (s : text) : list match_obj :=
  finditer_from (S (length s)) ic r 0 None s.

(** A literal word, character by character. *)
Definition Str (s : string) : regex :=
  foldr (fun c r => Seq (Chr c) r) Eps (txt s).

Definition star (k : cclass) : regex := Rep (Cls k) 0 None false.
Definition plus (k : cclass) : regex := Rep (Cls k) 1 None false.

(** ** Settings

    The module-level constants of the script.  [HARDCODED_KEEP] is the
    list the script leaves to its user ("enter your fixes here"). *)

Record settings : Type := Settings {
  DROP_WORDS : list text;
  STRICT_CASE_SENSITIVE : bool;
  ENABLE_LOOSE_FALLBACK : bool;
  LOOSE_CASE_INSENSITIVE : bool;
  HARDCODED_KEEP : list text
}.

(** The values the script is shipped with. *)
Definition shipped : settings :=
  Settings [txt "CONTY"; txt "CRES"; txt "P2P"] true true true [].

(** ** The two patterns *)

(** [\b\d+(?:\.\d+)?\s*__\s*] *)
Definition src_prefix : regex :=
  Seq Bound
    (Seq (plus CDigit)
       (Seq (Rep (Seq (Chr ".") (plus CDigit)) 0 (Some 1) false)
          (Seq (star CSpace)
             (Seq (Chr "_") (Seq (Chr "_") (star CSpace)))))).

(** [[^\r\n]*?] *)
Definition name_body : regex := Rep (Cls (CNotIn [CR; LF])) 0 None true.

(** [(?:(?:\s{2,})|\bTest\b|$)] *)
Definition src_stop : regex :=
  Alt (Rep (Cls CSpace) 2 None false)
    (Alt (Seq Bound (Seq (Str "Test") Bound)) Eos).

(** [SRC_NAME_RE], compiled with [re.I]. *)
Definition SRC_NAME_RE : regex :=
  Seq src_prefix (Seq (Grp 1 name_body) src_stop).

(** [\d{1,3}(?:\.\d{1,3}){1,3}] *)
Definition dotted_id : regex :=
  Seq (Rep (Cls CDigit) 1 (Some 3) false)
    (Rep (Seq (Chr ".") (Rep (Cls CDigit) 1 (Some 3) false)) 1 (Some 3) false).

(** [Device\s*Test:\s*(...)\s+] *)
Definition tgt_prefix : regex :=
  Seq (Str "Device")
    (Seq (star CSpace)
       (Seq (Str "Test:")
          (Seq (star CSpace)
             (Seq (Grp 1 dotted_id) (plus CSpace))))).

(** [(?=\s{2,}|\r|\n|$)] *)
Definition tgt_stop : regex :=
  Ahead (Alt (Rep (Cls CSpace) 2 None false)
           (Alt (Chr CR) (Alt (Chr LF) Eos))).

(** [TGT_DEVTEST_RE], compiled with [re.I]. *)
Definition TGT_DEVTEST_RE : regex :=
  Seq tgt_prefix (Seq (Grp 2 name_body) tgt_stop).

(** ** Normalisation *)

Definition SOFT_HYPHEN : text := map ascii_of_nat [194; 173].
Definition EN_DASH : text := map ascii_of_nat [226; 128; 147].
Definition EM_DASH : text := map ascii_of_nat [226; 128; 148].

Definition norm_layout (s : text) : text :=
  if s is [] then []
  else replace EM_DASH (txt "-")
         (replace EN_DASH (txt "-") (replace SOFT_HYPHEN [] s)).

Definition norm_loose (cfg : settings) (s : text) : text :=
  let s2 := replace (txt "_") (txt " ") s in
  let s2 := strip (join (txt " ") (split_ws s2)) in
  if LOOSE_CASE_INSENSITIVE cfg then lower s2 else s2.

(** ** Extraction *)

(** [m.group(n).strip().rstrip(":;,-").strip()] *)
Definition clean_name (g : text) : text :=
  strip (rstrip_chars (txt ":;,-") (strip g)).

Definition nonempty (s : text) : bool := if s is [] then false else true.

(** The body of the page loop of [load_source_names]; the argument is
    [doc[i].get_text("text") or ""]. *)
Definition source_page (names : list text) (raw : text) : list text :=
  let text := norm_layout raw in
  match search true SRC_NAME_RE text with
  | Some m =>
      let name := clean_name (group m 1) in
      if nonempty name then names ++ [name] else names
  | None => names
  end.

Definition load_source_names (doc : list text) : list text :=
  foldl source_page [] doc.

(** [any(dw in up for dw in DROP_WORDS)] with [up = name.upper()]. *)
Definition dont_care (cfg : settings) (name : text) : bool :=
  let up := upper name in
  existsb (fun dw => contains dw up) (DROP_WORDS cfg).

(** [page_to_names[pno].append(name)] on a [defaultdict(list)]. *)
Definition append_name (pno : nat) (name : text)
    (page_to_names : gmap nat (list text)) : gmap nat (list text) :=
  <[pno := default [] (page_to_names !! pno) ++ [name]]> page_to_names.

(** The body of the [finditer] loop of [load_target_tests]. *)
Definition target_match (cfg : settings) (pno : nat)
    (page_to_names : gmap nat (list text)) (m : match_obj)
    : gmap nat (list text) :=
  let name := clean_name (group m 2) in
  if negb (nonempty name) then page_to_names
  else if dont_care cfg name then page_to_names
  else append_name pno name page_to_names.

(** The body of the page loop of [load_target_tests]: [i] is the index
    of the page. *)
Definition target_page (cfg : settings)
    (page_to_names : gmap nat (list text)) (i : nat) (raw : text)
    : gmap nat (list text) :=
  let pno := i + 1 in
  let text := norm_layout raw in
  foldl (target_match cfg pno) page_to_names (finditer true TGT_DEVTEST_RE text).

Fixpoint target_pages (cfg : settings) (i : nat) (doc : list text)
    (page_to_names : gmap nat (list text)) : gmap nat (list text) :=
  match doc with
  | [] => page_to_names
  | raw :: doc' =>
      target_pages cfg (S i) doc' (target_page cfg page_to_names i raw)
  end.

Definition load_target_tests (cfg : settings) (doc : list text)
    : gmap nat (list text) :=
  target_pages cfg 0 doc ∅.


(** ** Matching *)

(** [s if STRICT_CASE_SENSITIVE else s.lower()] *)
Definition strict_key (cfg : settings) (s : text) : text :=
  if STRICT_CASE_SENSITIVE cfg then s else lower s.

(** [tgt_strict_set]: both branches of the script add the key of every
    target name. *)
Definition build_strict_set (cfg : settings)
    (tgt_page_map : gmap nat (list text)) : gset text :=
  foldl (fun acc '(p, names) =>
           foldl (fun acc n => {[strict_key cfg n]} ∪ acc) acc names)
        ∅ (map_to_list tgt_page_map).

(** [tgt_loose_map[norm_loose(n)].add(n)] on a [defaultdict(set)]. *)
Definition add_original (cfg : settings) (acc : gmap text (gset text))
    (n : text) : gmap text (gset text) :=
  <[norm_loose cfg n := {[n]} ∪ default ∅ (acc !! norm_loose cfg n)]> acc.

Definition build_loose_map (cfg : settings)
    (tgt_page_map : gmap nat (list text)) : gmap text (gset text) :=
  if ENABLE_LOOSE_FALLBACK cfg
  then foldl (fun acc '(p, names) => foldl (add_original cfg) acc names)
             ∅ (map_to_list tgt_page_map)
  else ∅.

(** The state of the matching loop. *)
Record tally : Type := Tally {
  kept_pages : gset nat;
  strict_cnt : nat;
  loose_cnt : nat;
  none_cnt : nat
}.

(** [for p, names in tgt_page_map.items(): if hit(names): kept_pages.add(p);
    matched = True] *)
Definition scan_pages (hit : list text → bool)
    (items : list (nat * list text)) (acc : gset nat * bool)
    : gset nat * bool :=
  foldl (fun '(kept, matched) '(p, names) =>
           if hit names then ({[p]} ∪ kept, true) else (kept, matched))
        acc items.

(** [s in names or (not STRICT_CASE_SENSITIVE and
    s.lower() in [n.lower() for n in names])] *)
Definition strict_hit (cfg : settings) (s : text) (names : list text) : bool :=
  bool_decide (s ∈ names) ||
  (negb (STRICT_CASE_SENSITIVE cfg) && bool_decide (lower s ∈ map lower names)).

(** [any(o in names for o in originals)] *)
Definition loose_hit (originals : gset text) (names : list text) : bool :=
  existsb (fun o => bool_decide (o ∈ names)) (elements originals).

(** The body of the loop over the source names.  Each of the three
    results is one way out of the body: the [continue] after a strict
    match, the [continue] after a loose match, and the fall through to
    [none_cnt += 1]. *)
Definition match_one (cfg : settings) (tgt_page_map : gmap nat (list text))
    (tgt_strict_set : gset text) (tgt_loose_map : gmap text (gset text))
    (st : tally) (s : text) : tally :=
  let key := strict_key cfg s in
  let '(kept1, matched1) :=
    if bool_decide (key ∈ tgt_strict_set)
    then scan_pages (strict_hit cfg s) (map_to_list tgt_page_map)
           (kept_pages st, false)
    else (kept_pages st, false) in
  if matched1
  then Tally kept1 (strict_cnt st + 1) (loose_cnt st) (none_cnt st)
  else
    let '(kept2, matched2) :=
      if ENABLE_LOOSE_FALLBACK cfg
      then match tgt_loose_map !! norm_loose cfg s with
           | Some originals =>
               scan_pages (loose_hit originals) (map_to_list tgt_page_map)
                 (kept1, matched1)
           | None => (kept1, matched1)
           end
      else (kept1, matched1) in
    if matched2
    then Tally kept2 (strict_cnt st) (loose_cnt st + 1) (none_cnt st)
    else Tally kept2 (strict_cnt st) (loose_cnt st) (none_cnt st + 1).

Definition match_all (cfg : settings) (tgt_page_map : gmap nat (list text))
    (src_names : list text) : tally :=
  foldl (match_one cfg tgt_page_map (build_strict_set cfg tgt_page_map)
           (build_loose_map cfg tgt_page_map))
        (Tally ∅ 0 0 0) src_names.

(** The loop over [HARDCODED_KEEP]. *)
Definition hardcoded_keep (cfg : settings)
    (tgt_page_map : gmap nat (list text)) (kept : gset nat) : gset nat :=
  foldl (fun kept '(p, names) =>
           foldl (fun kept n =>
                    if bool_decide (strip n ∈ HARDCODED_KEEP cfg)
                    then {[p]} ∪ kept else kept)
                 kept names)
        kept (map_to_list tgt_page_map).

(** [sorted(kept_pages)] *)
Definition sorted (kept : gset nat) : list nat :=
  merge_sort (≤) (elements kept).

(** [sum(len(v) for v in tgt_page_map.values())] *)
Definition total_rows (tgt_page_map : gmap nat (list text)) : nat :=
  foldl (fun acc '(p, names) => acc + length names) 0 (map_to_list tgt_page_map).

(** ** The run

    What the script does to the outside: it opens the two input files,
    prints lines, and may save the output file.  [fitz.open] raises on a
    file it cannot read and [save] on a file it cannot write; an
    exception ends [main] and is caught at the bottom of the script. *)

(** The lines the script prints, with the numbers they show. *)
Inductive line : Type :=
  | Extracting_source
  | Source_names_found (n : nat)
  | Extracting_target
  | Target_tests_captured (rows pages : nat)
  | Matching
  | Checking_hardcoded
  | Writing
  | Pages_to_keep (n : nat)
  | No_pages_to_save
  | Wrote
  | No_pages_matched
  | Result_header
  | Total_target_pages (n : nat)
  | Kept_pages (n : nat)
  | Source_names_total (n : nat)
  | Strict_matches (n : nat)
  | Loose_matches (n : nat)
  | No_matches (n : nat)
  | Error.

Section Run.

Context {Page : Type} (get_text : Page → text).

(** The files the three paths name: an input file that cannot be opened
    is [None]; [OUT_writable] tells whether [save] succeeds. *)
Record files : Type := Files {
  SOURCE_PDF : option (list Page);
  TARGET_PDF : option (list Page);
  OUT_writable : bool
}.

(** What a run leaves behind: the printed lines and the saved file. *)
Record world : Type := World {
  stdout : list line;
  OUT_PDF : option (list Page)
}.

(** A computation that prints, saves and may raise ([None]). *)
Definition io (A : Type) : Type := world → world * option A.

#[local] Instance io_ret : MRet io := fun A a w => (w, Some a).
#[local] Instance io_bind : MBind io := fun A B f m w =>
  match m w with
  | (w', Some a) => f a w'
  | (w', None) => (w', None)
  end.

Definition print (l : line) : io unit :=
  fun w => (World (stdout w ++ [l]) (OUT_PDF w), Some tt).

Definition raise {A : Type} : io A := fun w => (w, None).

(** [fitz.open(path)] *)
Definition fitz_open (f : option (list Page)) : io (list Page) :=
  match f with
  | Some doc => mret doc
  | None => raise
  end.

(** [out.save(out_pdf)] *)
Definition save (fs : files) (out : list Page) : io unit :=
  if OUT_writable fs
  then fun w => (World (stdout w) (Some out), Some tt)
  else raise.

(** [out.insert_pdf(src, from_page=p-1, to_page=p-1)]: the page [p] of
    [src] is added at the end of [out].  The script only calls it with
    page numbers of [src]; another number adds nothing here. *)
Definition insert_pdf (src : list Page) (p : nat) (out : list Page)
    : list Page :=
  match p with
  | O => out
  | S i => match src !! i with Some pg => out ++ [pg] | None => out end
  end.

Definition write_pdf_pages (fs : files) (source_pdf : option (list Page))
    (keep_pages_1based : list nat) : io unit :=
  if keep_pages_1based is []
  then print No_pages_to_save
  else
    src ← fitz_open source_pdf;
    save fs (foldl (fun out p => insert_pdf src p out) [] keep_pages_1based).

Definition all_source_names (fs : files) : io (list text) :=
  doc ← fitz_open (SOURCE_PDF fs);
  mret (load_source_names (get_text <$> doc)).

Definition all_target_tests (cfg : settings) (fs : files)
    : io (gmap nat (list text)) :=
  doc ← fitz_open (TARGET_PDF fs);
  mret (load_target_tests cfg (get_text <$> doc)).

Definition main (cfg : settings) (fs : files) : io unit :=
  print Extracting_source;;
  src_names ← all_source_names fs;
  let src_names := filter (fun s => nonempty (strip s) = true) src_names in
  print (Source_names_found (length src_names));;
  print Extracting_target;;
  tgt_page_map ← all_target_tests cfg fs;
  print (Target_tests_captured (total_rows tgt_page_map) (size tgt_page_map));;
  print Matching;;
  let st := match_all cfg tgt_page_map src_names in
  print Checking_hardcoded;;
  let kept_pages := sorted (hardcoded_keep cfg tgt_page_map (kept_pages st)) in
  print Writing;;
  print (Pages_to_keep (length kept_pages));;
  (if kept_pages is []
   then print No_pages_matched
   else write_pdf_pages fs (TARGET_PDF fs) kept_pages;; print Wrote);;
  d ← fitz_open (TARGET_PDF fs);
  print Result_header;;
  print (Total_target_pages (length d));;
  print (Kept_pages (length kept_pages));;
  print (Source_names_total (length src_names));;
  print (Strict_matches (strict_cnt st));;
  print (Loose_matches (loose_cnt st));;
  print (No_matches (none_cnt st)).

(** The bottom of the script: the exit status is 1 after an exception
    and 0 otherwise. *)
Definition run (cfg : settings) (fs : files) : world * nat :=
  match main cfg fs (World [] None) with
  | (w, Some _) => (w, 0)
  | (w, None) => (World (stdout w ++ [Error]) (OUT_PDF w), 1)
  end.

(** The list of pages [main] keeps on the files [fs], when both input
    files open. *)
Definition kept_list (cfg : settings) (src tgt : list Page) : list nat :=
  let src_names :=
    filter (fun s => nonempty (strip s) = true)
      (load_source_names (get_text <$> src)) in
  let tgt_page_map := load_target_tests cfg (get_text <$> tgt) in
  sorted (hardcoded_keep cfg tgt_page_map
            (kept_pages (match_all cfg tgt_page_map src_names))).

End Run.


(** * Specification vocabulary *)

(** The pages of the index on which some entry satisfies [hit]. *)
Definition pages_hit (hit : list text → bool)
    (tgt_page_map : gmap nat (list text)) : gset nat :=
  dom (filter (fun x => hit x.2 = true) tgt_page_map).

(** The pages the strict step adds for the source name [s]. *)
Definition strict_pages (cfg : settings) (tgt_page_map : gmap nat (list text))
    (s : text) : gset nat :=
  if bool_decide (strict_key cfg s ∈ build_strict_set cfg tgt_page_map)
  then pages_hit (strict_hit cfg s) tgt_page_map
  else ∅.

(** Some entry of the index equals [s] under the case rule. *)
Definition strict_match_exists (cfg : settings)
    (tgt_page_map : gmap nat (list text)) (s : text) : Prop :=
  ∃ p names n, tgt_page_map !! p = Some names ∧ n ∈ names ∧
    strict_key cfg (strip n) = strict_key cfg s.

Definition counted (st : tally) : nat :=
  strict_cnt st + loose_cnt st + none_cnt st.

(** The names of the occurrences of the target pattern in a page text,
    cleaned, in the order of the occurrences. *)
Definition occurrence_names (text : list ascii) : list (list ascii) :=
  (fun m => clean_name (group m 2)) <$> finditer true TGT_DEVTEST_RE text.

(** A cleaned name enters the index when it is not empty and not a
    don't-care test. *)
Definition enters (cfg : settings) (name : list ascii) : bool :=
  nonempty name && negb (dont_care cfg name).

(** What one page of the target contributes to the index. *)
Definition page_names (cfg : settings) (raw : list ascii) : list (list ascii) :=
  filter (fun name => enters cfg name = true) (occurrence_names (norm_layout raw)).

(** The index entry [n] answers the source name [s]: it has the strict
    key of [s], or, with the loose fallback on, the loose key of [s]. *)
Definition answers (cfg : settings) (s n : list ascii) : Prop :=
  strict_key cfg n = strict_key cfg s ∨
  (ENABLE_LOOSE_FALLBACK cfg = true ∧ norm_loose cfg n = norm_loose cfg s).

(** The final keep list of the matcher, from the page index and the
    source names. *)
Definition final_keep (cfg : settings) (tgt_page_map : gmap nat (list (list ascii)))
    (src_names : list (list ascii)) : list nat :=
  sorted (hardcoded_keep cfg tgt_page_map
            (kept_pages (match_all cfg tgt_page_map src_names))).

(** The name holds a drop-word as a substring, letter case apart: the
    name in upper case holds the drop-word in upper case. *)
Definition holds_drop_word (cfg : settings) (name : list ascii) : Prop :=
  ∃ dw, dw ∈ DROP_WORDS cfg ∧ contains (upper dw) (upper name) = true.

(** The drop-words are written in upper case, as the shipped ones are. *)
Definition upper_case_drop_words (cfg : settings) : Prop :=
  Forall (fun dw => upper dw = dw) (DROP_WORDS cfg).

(** A text of plain ASCII characters.  On such a text the character
    classes and the case mappings of the embedding are those of Python. *)
Definition plain (s : list ascii) : Prop := Forall (fun c => code c < 128) s.

(** What one page of the source contributes to the list of names. *)
Definition source_name_of (raw : list ascii) : option (list ascii) :=
  match search true SRC_NAME_RE (norm_layout raw) with
  | Some m =>
      let name := clean_name (group m 1) in
      if nonempty name then Some name else None
  | None => None
  end.

(** Settings and documents of the scenarios. *)
Definition manual_settings (keep : list (list ascii)) : settings :=
  Settings (DROP_WORDS shipped) true true true keep.

Definition conty_page : list ascii := txt "Device Test: 1.2.3 CONTY Startup".
Definition legacy_page : list ascii := txt "Device Test: 1.1 Legacy Diagnostic".
Definition battery_source : list ascii := txt "2.1 __ Battery Voltage Check   Test".
Definition battery_target : list ascii := txt "Device Test: 3.2.1 Battery Voltage Check  ".

Definition conty_settings : settings := manual_settings [txt "CONTY Startup"].
Definition legacy_settings : settings := manual_settings [txt "Legacy Diagnostic"].

(** A page whose entry differs from the source name [Sensor_Calib] in
    the underscore and in the letter case. *)
Definition calib_page : list ascii := txt "Device Test: 4.4 sensor calib".

(** The one match of the target pattern on [battery_target]. *)
Definition battery_match : match_obj :=
  MatchObj 0 40
    (<[2 := txt "Battery Voltage Check"]> (<[1 := txt "3.2.1"]> ∅)).

(** The shipped settings with one drop-word, written in lower case. *)
Definition lower_case_settings : settings :=
  Settings [txt "conty"] true true true [].

(** A page whose only occurrence is named in lower case. *)
Definition lower_conty_page : list ascii :=
  txt "Device Test: 1.2.3 conty startup".

(** A document of two pages: a don't-care test, then a test to keep. *)
Definition mixed_doc : list (list ascii) := [conty_page; battery_target].

(** The shipped settings with the strict step blind to letter case. *)
Definition case_blind_settings : settings :=
  Settings (DROP_WORDS shipped) false true true [].

(** ** What a pattern matches

    [matches ic r st st']: the pattern [r] can take the matcher from the
    position [st] to the position [st'], priorities apart.  A repeat
    counts only iterations that consume a character, as [rep_loop]
    does. *)
Inductive matches (ic : bool) : regex → mstate → mstate → Prop :=
  | M_eps st : matches ic Eps st st
  | M_chr c sn a s g :
      chr_eq ic c a = true →
      matches ic (Chr c) (MState sn (a :: s) g) (MState (Some a) s g)
  | M_cls k sn a s g :
      in_class ic k a = true →
      matches ic (Cls k) (MState sn (a :: s) g) (MState (Some a) s g)
  | M_seq r1 r2 st1 st2 st3 :
      matches ic r1 st1 st2 → matches ic r2 st2 st3 →
      matches ic (Seq r1 r2) st1 st3
  | M_alt_l r1 r2 st st' :
      matches ic r1 st st' → matches ic (Alt r1 r2) st st'
  | M_alt_r r1 r2 st st' :
      matches ic r2 st st' → matches ic (Alt r1 r2) st st'
  | M_rep_stop r hi lz st : matches ic (Rep r 0 hi lz) st st
  | M_rep_more r lo hi lz st st1 st2 :
      more_allowed hi = true →
      matches ic r st st1 →
      length (rest st1) < length (rest st) →
      matches ic (Rep r (pred lo) (pred <$> hi) lz) st1 st2 →
      matches ic (Rep r lo hi lz) st st2
  | M_grp n r st st' :
      matches ic r st st' → matches ic (Grp n r) st (set_group n st st')
  | M_ahead r st st' : matches ic r st st' → matches ic (Ahead r) st st
  | M_bound st : at_boundary st = true → matches ic Bound st st
  | M_eos st : at_eos st = true → matches ic Eos st st.

(** The result of a matcher depends on its continuation through the
    values of the continuation only. *)
Definition cont_ext (body : mstate → (mstate → option mstate) → option mstate)
    : Prop :=
  ∀ st k1 k2, (∀ x, k1 x = k2 x) → body st k1 = body st k2.

(** The character before a position that lies [w] after a position whose
    previous character is [sn]. *)
Definition last_seen (sn : option ascii) (w : list ascii) : option ascii :=
  match last w with Some c => Some c | None => sn end.

(** The position [st'] lies the text [w] after the position [st], with
    the same groups. *)
Definition steps (st : mstate) (w : list ascii) (st' : mstate) : Prop :=
  rest st = w ++ rest st' ∧
  st' = MState (last_seen (seen st) w) (rest st') (groups st).

(** The pattern [r] can take the text [w], wherever [w] stands. *)
Definition takes (ic : bool) (r : regex) (w : list ascii) : Prop :=
  ∀ sn s g, matches ic r (MState sn (w ++ s) g) (MState (last_seen sn w) s g).

(** One more group of a dotted id: [\.\d{1,3}]. *)
Definition dot_group : regex :=
  Seq (Chr ".") (Rep (Cls CDigit) 1 (Some 3) false).

(** The pattern captures no group. *)
Fixpoint group_free (r : regex) : bool :=
  match r with
  | Grp _ _ => false
  | Seq r1 r2 | Alt r1 r2 => group_free r1 && group_free r2
  | Rep r _ _ _ | Ahead r => group_free r
  | _ => true
  end.

(** The matcher succeeds at the position that splits the text into
    [pre] and [suf]. *)
Definition hits (ic : bool) (r : regex) (pre suf : list ascii) : Prop :=
  is_Some (rmatch ic r (MState (last pre) suf ∅) Some).

(** ** The two patterns in words *)

Definition digits (w : list ascii) : Prop :=
  w ≠ [] ∧ Forall (fun c => isdigit c = true) w.

Definition spaces (w : list ascii) : Prop :=
  Forall (fun c => isspace c = true) w.

(** No carriage return and no line feed. *)
Definition one_line (w : list ascii) : Prop :=
  Forall (fun c => c ≠ CR ∧ c ≠ LF) w.

(** The same word, letter case apart. *)
Definition same_word (word : string) (t : list ascii) : Prop :=
  lower t = lower (txt word).

(** [<int>] or [<int>.<int>] *)
Definition numeric_prefix (num : list ascii) : Prop :=
  ∃ a b, num = a ++ b ∧ digits a ∧
         (b = [] ∨ ∃ d, b = "."%char :: d ∧ digits d).

(** Two or more white-space characters come next. *)
Definition two_spaces (post : list ascii) : Prop :=
  ∃ a b post', post = a :: b :: post' ∧ isspace a = true ∧ isspace b = true.

(** What ends a source name, at a position with the character [prev]
    before it and the text [post] from it on: two or more white-space
    characters, the word Test (letter case apart, not touching a word
    character on either side), or the end of the text (or the line feed
    that ends the text). *)
Definition src_stops (prev : option ascii) (post : list ascii) : Prop :=
  two_spaces post ∨
  (∃ t post', post = t ++ post' ∧ same_word "Test" t ∧
              word_at prev = false ∧ word_at (head post') = false) ∨
  post = [] ∨ post = [LF].

(** What the source pattern matches before the name: a numeric prefix,
    white space, two underscores, white space. *)
Definition src_lead (lead : list ascii) : Prop :=
  ∃ num ws1 ws2, lead = num ++ ws1 ++ txt "__" ++ ws2 ∧
    numeric_prefix num ∧ spaces ws1 ∧ spaces ws2.

(** An occurrence of the source pattern after the text [pre]: the lead
    [lead], which does not touch a word character on its left, the
    captured text [g] on one line, and the rest [post], where the name
    stops. *)
Definition src_occurrence (pre lead g post : list ascii) : Prop :=
  word_at (last pre) = false ∧ src_lead lead ∧ one_line g ∧
  src_stops (last (lead ++ g)) post.

(** The captured text [g] does not run past a place where the name
    stops. *)
Definition src_shortest (lead g post : list ascii) : Prop :=
  ∀ g1 g2, g = g1 ++ g2 → g2 ≠ [] →
    ¬ src_stops (last (lead ++ g1)) (g2 ++ post).

(** The occurrence with the text [pre] before it and the lead [lead] is
    the first of the text: no occurrence starts further left, and none
    that starts at the same place has a longer lead. *)
Definition src_first (text pre lead : list ascii) : Prop :=
  ∀ pre' lead' g' post',
    text = pre' ++ lead' ++ g' ++ post' →
    src_occurrence pre' lead' g' post' →
    length pre < length pre' ∨
    (length pre = length pre' ∧ length lead' ≤ length lead).

(** The lead of the source pattern without its last white space:
    [\b\d+(?:\.\d+)?\s*__]. *)
Definition src_head : regex :=
  Seq Bound
    (Seq (plus CDigit)
       (Seq (Rep (Seq (Chr ".") (plus CDigit)) 0 (Some 1) false)
          (Seq (star CSpace) (Seq (Chr "_") (Chr "_"))))).

(** What follows the lead in the source pattern: the captured name and
    the place where it stops. *)
Definition src_tail : regex := Seq (Grp 1 name_body) src_stop.

(** A dotted id: 2 to 4 groups of 1 to 3 digits. *)
Definition id_group (d : list ascii) : Prop := digits d ∧ length d ≤ 3.

Definition dotted (id : list ascii) : Prop :=
  ∃ d ds, id = d ++ concat ((fun x => "."%char :: x) <$> ds) ∧
          id_group d ∧ Forall id_group ds ∧ 1 ≤ length ds ≤ 3.

(** What ends a target name: two or more white-space characters, a
    line break, or the end of the text. *)
Definition tgt_stops (post : list ascii) : Prop :=
  two_spaces post ∨ head post = Some CR ∨ head post = Some LF ∨ post = [].

(** What the target pattern matches before the name: Device, Test:,
    the dotted id [id] and at least one white-space character. *)
Definition tgt_lead (lead id : list ascii) : Prop :=
  ∃ dev ws0 tst ws1 ws2,
    lead = dev ++ ws0 ++ tst ++ ws1 ++ id ++ ws2 ∧
    same_word "Device" dev ∧ spaces ws0 ∧ same_word "Test:" tst ∧
    spaces ws1 ∧ dotted id ∧ spaces ws2 ∧ ws2 ≠ [].

(** An occurrence of the target pattern: the lead, the captured text
    [g] on one line, and the rest [post], where the name stops. *)
Definition tgt_occurrence (lead id g post : list ascii) : Prop :=
  tgt_lead lead id ∧ one_line g ∧ tgt_stops post.

Definition tgt_shortest (g post : list ascii) : Prop :=
  ∀ g1 g2, g = g1 ++ g2 → g2 ≠ [] → ¬ tgt_stops (g2 ++ post).

(** The matches lie one after the other from the position [from] on,
    each over at least one character. *)
Fixpoint in_order (from : nat) (ms : list match_obj) : Prop :=
  match ms with
  | [] => True
  | m :: ms' => from ≤ m_start m ∧ m_start m < m_end m ∧ in_order (m_end m) ms'
  end.

(** Every success of the pattern consumes a character. *)
Definition never_empty (ic : bool) (r : regex) : Prop :=
  ∀ sn s st', rmatch ic r (MState sn s ∅) Some = Some st' →
              length (rest st') < length s.

(** ** The outcome of one source name *)

(** The pages that hold an entry with the loose key of [s]. *)
Definition loose_pages (cfg : settings) (tgt_page_map : gmap nat (list (list ascii)))
    (s : list ascii) : gset nat :=
  pages_hit
    (fun names =>
       existsb (fun n => bool_decide (norm_loose cfg n = norm_loose cfg s)) names)
    tgt_page_map.

Inductive verdict : Type := STRICT | LOOSE | NONE.

(** How a source name is classified and which pages it contributes, read
    off the page index alone. *)
Definition outcome (cfg : settings) (tgt_page_map : gmap nat (list (list ascii)))
    (s : list ascii) : verdict * gset nat :=
  if decide (strict_pages cfg tgt_page_map s = ∅)
  then if ENABLE_LOOSE_FALLBACK cfg
       then if decide (loose_pages cfg tgt_page_map s = ∅)
            then (NONE, ∅)
            else (LOOSE, loose_pages cfg tgt_page_map s)
       else (NONE, ∅)
  else (STRICT, strict_pages cfg tgt_page_map s).

(** The effect of an outcome on the state of the matching loop. *)
Definition record_outcome (o : verdict * gset nat) (st : tally) : tally :=
  match o.1 with
  | STRICT => Tally (o.2 ∪ kept_pages st) (strict_cnt st + 1) (loose_cnt st) (none_cnt st)
  | LOOSE => Tally (o.2 ∪ kept_pages st) (strict_cnt st) (loose_cnt st + 1) (none_cnt st)
  | NONE => Tally (o.2 ∪ kept_pages st) (strict_cnt st) (loose_cnt st) (none_cnt st + 1)
  end.

(** The name [o] is filed under the key [k] of the loose map. *)
Definition filed (lm : gmap (list ascii) (gset (list ascii))) (k o : list ascii) : Prop :=
  ∃ os, lm !! k = Some os ∧ o ∈ os.

(** The name [o] is an entry of the index. *)
Definition indexed (tgt_page_map : gmap nat (list (list ascii))) (o : list ascii) : Prop :=
  ∃ p names, tgt_page_map !! p = Some names ∧ o ∈ names.

(** Some entry of the index has the strict key of [s]. *)
Definition strictly_answered (cfg : settings)
    (tgt_page_map : gmap nat (list (list ascii))) (s : list ascii) : Prop :=
  ∃ n, indexed tgt_page_map n ∧ strict_key cfg n = strict_key cfg s.

(** Some entry of the index has the loose key of [s]. *)
Definition loosely_answered (cfg : settings)
    (tgt_page_map : gmap nat (list (list ascii))) (s : list ascii) : Prop :=
  ∃ n, indexed tgt_page_map n ∧ norm_loose cfg n = norm_loose cfg s.

(** The page [p] holds an entry that satisfies [P]. *)
Definition page_holds (tgt_page_map : gmap nat (list (list ascii))) (p : nat)
    (P : list ascii → Prop) : Prop :=
  ∃ names n, tgt_page_map !! p = Some names ∧ n ∈ names ∧ P n.

(** A list of words as [norm_loose] leaves them: none empty, no white
    space and no underscore inside. *)
Definition tidy_char (c : ascii) : Prop := isspace c = false ∧ c ≠ "_"%char.

Definition tidy_word (w : list ascii) : Prop := w ≠ [] ∧ Forall tidy_char w.

(** The case folding of [norm_loose]. *)
Definition loose_case (cfg : settings) (s : list ascii) : list ascii :=
  if LOOSE_CASE_INSENSITIVE cfg then lower s else s.

(** * Text lemmas *)

Ltac ascii_cases c := destruct c as [[] [] [] [] [] [] [] []].

Lemma drop_while_snoc p l c :
  drop_while p (l ++ [c]) =
  match drop_while p l with
  | [] => if p c then [] else [c]
  | t => t ++ [c]
  end.
Proof.
  induction l as [|a l IH]; cbn.
  - reflexivity.
  - destruct (p a); [exact IH|reflexivity].
Qed.

Lemma drop_while_idem p l : drop_while p (drop_while p l) = drop_while p l.
Proof.
  induction l as [|a l IH]; cbn; [done|].
  destruct (p a) eqn:E; [done|]. cbn. by rewrite E.
Qed.

Lemma rstrip_by_cons p c s :
  rstrip_by p (c :: s) =
  match rstrip_by p s with
  | [] => if p c then [] else [c]
  | t => c :: t
  end.
Proof.
  unfold rstrip_by. cbn [rev]. rewrite drop_while_snoc.
  destruct (drop_while p (rev s)) as [|a t] eqn:E.
  - cbn. by destruct (p c).
  - rewrite rev_app_distr. cbn [rev app].
    destruct (rev t ++ [a]) eqn:E'; [|done].
    by destruct (rev t).
Qed.

Lemma rstrip_by_idem p s : rstrip_by p (rstrip_by p s) = rstrip_by p s.
Proof.
  unfold rstrip_by. by rewrite rev_involutive, drop_while_idem.
Qed.

Lemma rstrip_lstrip y : rstrip y = y → rstrip (lstrip y) = lstrip y.
Proof.
  unfold rstrip, lstrip. induction y as [|c y IH]; [done|].
  rewrite rstrip_by_cons. cbn [drop_while].
  destruct (isspace c) eqn:Hc.
  - destruct (rstrip_by isspace y) eqn:E; [done|].
    intros [= H]. apply IH. by rewrite <- E in H |- *.
  - intros H. rewrite rstrip_by_cons, Hc. exact H.
Qed.

(** [strip] returns a text that [strip] leaves as it is. *)
Lemma strip_idem s : strip (strip s) = strip s.
Proof.
  unfold strip. rewrite rstrip_lstrip by apply rstrip_by_idem.
  apply drop_while_idem.
Qed.

Lemma strip_clean_name g : strip (clean_name g) = clean_name g.
Proof. apply strip_idem. Qed.

Lemma nonempty_true s : nonempty s = true ↔ s ≠ [].
Proof. by destruct s. Qed.

(** * The matcher *)

Lemma scan_pages_cons hit p names items kept matched :
  scan_pages hit ((p, names) :: items) (kept, matched) =
  scan_pages hit items
    (if hit names then ({[p]} ∪ kept, true) else (kept, matched)).
Proof. reflexivity. Qed.

Lemma scan_pages_kept hit items kept matched q :
  q ∈ (scan_pages hit items (kept, matched)).1 ↔
  q ∈ kept ∨ ∃ names, (q, names) ∈ items ∧ hit names = true.
Proof.
  revert kept matched.
  induction items as [|[p names] items IH]; intros kept matched.
  - cbn. split; [auto|]. intros [H|(names & H & _)]; [done|].
    by apply elem_of_nil in H.
  - rewrite scan_pages_cons. destruct (hit names) eqn:Hhit; rewrite IH.
    + rewrite elem_of_union, elem_of_singleton. split.
      * intros [[->|H]|(ns & H & Hh)]; [right|by left|right].
        -- exists names. split; [left|done].
        -- exists ns. split; [by right|done].
      * intros [H|(ns & H & Hh)]; [auto|].
        apply elem_of_cons in H as [[= -> ->]|H]; [auto|].
        right. by exists ns.
    + split.
      * intros [H|(ns & H & Hh)]; [auto|]. right. exists ns.
        split; [by right|done].
      * intros [H|(ns & H & Hh)]; [auto|].
        apply elem_of_cons in H as [[= -> ->]|H]; [congruence|].
        right. by exists ns.
Qed.

Lemma scan_pages_flag hit items kept matched :
  (scan_pages hit items (kept, matched)).2 =
  matched || existsb (fun x => hit x.2) items.
Proof.
  revert kept matched.
  induction items as [|[p names] items IH]; intros kept matched.
  - cbn. by rewrite orb_false_r.
  - rewrite scan_pages_cons. cbn [existsb snd].
    destruct (hit names); rewrite IH; cbn; [by rewrite orb_true_r|done].
Qed.

Lemma elem_of_pages_hit hit (tgt : gmap nat (list text)) p :
  p ∈ pages_hit hit tgt ↔ ∃ names, tgt !! p = Some names ∧ hit names = true.
Proof.
  unfold pages_hit. rewrite elem_of_dom. split.
  - intros [names H]. apply map_lookup_filter_Some in H as [H1 H2].
    by exists names.
  - intros (names & H1 & H2). exists names.
    by apply map_lookup_filter_Some.
Qed.

(** The page loop adds exactly the pages that hit. *)
Lemma scan_pages_map hit (tgt : gmap nat (list text)) kept matched :
  (scan_pages hit (map_to_list tgt) (kept, matched)).1 =
  pages_hit hit tgt ∪ kept.
Proof.
  apply set_eq. intros q.
  rewrite scan_pages_kept, elem_of_union, elem_of_pages_hit.
  setoid_rewrite elem_of_map_to_list. tauto.
Qed.

Lemma scan_pages_map_flag hit (tgt : gmap nat (list text)) kept :
  (scan_pages hit (map_to_list tgt) (kept, false)).2 = true ↔
  ∃ p, p ∈ pages_hit hit tgt.
Proof.
  rewrite scan_pages_flag. cbn. rewrite existsb_exists.
  setoid_rewrite elem_of_pages_hit. split.
  - intros ([p names] & Hin & Hh). exists p, names. split; [|done].
    apply elem_of_map_to_list. by apply list_elem_of_In.
  - intros (p & names & Hl & Hh). exists (p, names). split; [|done].
    apply list_elem_of_In. by apply elem_of_map_to_list.
Qed.

(** One source name raises exactly one of the three counters. *)
Lemma match_one_counted (cfg : settings) tgt ss lm st s :
  counted (match_one cfg tgt ss lm st s) = S (counted st).
Proof.
  unfold match_one, counted.
  destruct (if bool_decide _ then _ else _) as [kept1 [|]]; cbn; [lia|].
  destruct (if ENABLE_LOOSE_FALLBACK cfg then _ else _) as [kept2 [|]];
    cbn; lia.
Qed.

Lemma foldl_match_one_counted (cfg : settings) tgt ss lm src_names st :
  counted (foldl (match_one cfg tgt ss lm) st src_names) =
  counted st + length src_names.
Proof.
  revert st. induction src_names as [|s l IH]; intros st; cbn [foldl length].
  - lia.
  - rewrite IH, match_one_counted. lia.
Qed.

(** C2.  After the matching loop the three counters add up to the number
    of source names: [strict_cnt + loose_cnt + none_cnt ==
    len(src_names)], for every list of source names and every page
    index. *)
Theorem counters_sum_to_source_names (cfg : settings)
    (tgt_page_map : gmap nat (list text)) (src_names : list text) :
  let st := match_all cfg tgt_page_map src_names in
  strict_cnt st + loose_cnt st + none_cnt st = length src_names.
Proof.
  cbn. unfold match_all.
  pose proof (foldl_match_one_counted cfg tgt_page_map
    (build_strict_set cfg tgt_page_map) (build_loose_map cfg tgt_page_map)
    src_names (Tally ∅ 0 0 0)) as H.
  unfold counted in H. cbn in H. exact H.
Qed.

(** * The page index *)

Lemma target_match_enters (cfg : settings) pno page_map m :
  target_match cfg pno page_map m =
  if enters cfg (clean_name (group m 2))
  then append_name pno (clean_name (group m 2)) page_map
  else page_map.
Proof.
  unfold target_match, enters.
  destruct (nonempty _); cbn; [|done].
  by destruct (dont_care _ _).
Qed.

Lemma foldl_target_match (cfg : settings) pno ms (page_map : gmap nat (list text)) :
  foldl (target_match cfg pno) page_map ms =
  match filter (fun name => enters cfg name = true)
          ((fun m => clean_name (group m 2)) <$> ms) with
  | [] => page_map
  | ns => <[pno := default [] (page_map !! pno) ++ ns]> page_map
  end.
Proof.
  revert page_map. induction ms as [|m ms IH]; intros page_map; [done|].
  cbn [foldl fmap list_fmap]. rewrite IH, target_match_enters.
  rewrite filter_cons.
  destruct (decide (enters cfg (clean_name (group m 2)) = true)) as [E|E].
  - rewrite E. unfold append_name. rewrite lookup_insert_eq. cbn.
    destruct (filter _ _) as [|n ns].
    + done.
    + rewrite insert_insert_eq. by rewrite <- app_assoc.
  - apply not_true_is_false in E. by rewrite E.
Qed.

Lemma target_page_lookup (cfg : settings) (page_map : gmap nat (list text)) i raw p :
  page_map !! (i + 1) = None →
  target_page cfg page_map i raw !! p =
  if decide (p = i + 1)
  then (match page_names cfg raw with [] => None | ns => Some ns end)
  else page_map !! p.
Proof.
  intros Hnone. unfold target_page, page_names, occurrence_names.
  rewrite foldl_target_match.
  destruct (filter _ _) as [|n ns].
  - destruct (decide _) as [->|]; done.
  - rewrite Hnone. cbn. destruct (decide _) as [->|].
    + by rewrite lookup_insert_eq.
    + by rewrite lookup_insert_ne.
Qed.

Lemma target_pages_lookup (cfg : settings) doc i (page_map : gmap nat (list text)) p :
  (∀ q, i < q → page_map !! q = None) →
  target_pages cfg i doc page_map !! p =
  if decide (i < p)
  then (match doc !! (p - i - 1) with
        | Some raw =>
            match page_names cfg raw with [] => None | ns => Some ns end
        | None => None
        end)
  else page_map !! p.
Proof.
  revert i page_map. induction doc as [|raw doc IH]; intros i page_map Hnone.
  - cbn. destruct (decide _); [|done]. by apply Hnone.
  - cbn [target_pages]. rewrite IH.
    + destruct (decide (S i < p)) as [Hlt|Hge].
      * destruct (decide (i < p)); [|lia].
        replace (p - i - 1) with (S (p - S i - 1)) by lia. done.
      * rewrite target_page_lookup by (apply Hnone; lia).
        destruct (decide (p = i + 1)) as [->|Hne].
        -- destruct (decide _); [|lia].
           by replace (i + 1 - i - 1) with 0 by lia.
        -- destruct (decide _); [lia|done].
    + intros q Hq. rewrite target_page_lookup by (apply Hnone; lia).
      destruct (decide _); [lia|]. apply Hnone. lia.
Qed.

(** The index holds, for the page number [p], the names the page [p]
    contributes, and holds no key for a page that contributes none. *)
Lemma load_target_tests_lookup (cfg : settings) doc p names :
  load_target_tests cfg doc !! p = Some names ↔
  ∃ raw, 1 ≤ p ∧ doc !! (p - 1) = Some raw ∧
    names = page_names cfg raw ∧ names ≠ [].
Proof.
  unfold load_target_tests.
  rewrite target_pages_lookup by (intros; apply lookup_empty).
  destruct (decide (0 < p)) as [Hp|Hp].
  - replace (p - 0 - 1) with (p - 1) by lia.
    destruct (doc !! (p - 1)) as [raw|] eqn:E.
    + destruct (page_names cfg raw) as [|n ns] eqn:En.
      * split; [done|]. intros (raw' & _ & [= <-] & -> & H). by rewrite En in H.
      * split.
        -- intros [= <-]. exists raw. by rewrite En.
        -- intros (raw' & _ & [= <-] & -> & _). by rewrite En.
    + split; [done|]. by intros (raw' & _ & [=] & _).
  - rewrite lookup_empty. split; [done|]. intros (raw & H & _). lia.
Qed.

Lemma elem_of_page_names (cfg : settings) raw n :
  n ∈ page_names cfg raw ↔
  enters cfg n = true ∧ n ∈ occurrence_names (norm_layout raw).
Proof. unfold page_names. by rewrite list_elem_of_filter. Qed.

(** Every name of the index is a cleaned, non-empty name that holds no
    drop-word, and [strip] leaves it as it is. *)
Lemma index_entry (cfg : settings) doc p names n :
  load_target_tests cfg doc !! p = Some names → n ∈ names →
  n ≠ [] ∧ dont_care cfg n = false ∧ strip n = n ∧
  1 ≤ p ≤ length doc.
Proof.
  intros Hl Hn. apply load_target_tests_lookup in Hl as (raw & Hp & Hraw & -> & _).
  apply elem_of_page_names in Hn as [He Hn].
  unfold enters in He. apply andb_true_iff in He as [He1 He2].
  apply nonempty_true in He1. apply negb_true_iff in He2.
  unfold occurrence_names in Hn. apply list_elem_of_fmap in Hn as (m & -> & _).
  split_and!; [done|done|apply strip_clean_name|done|].
  apply lookup_lt_Some in Hraw. lia.
Qed.

(** * The strict step *)

Lemma foldl_strict_keys (cfg : settings) (names : list text) (acc : gset text) (k : text) :
  k ∈ foldl (fun acc n => {[strict_key cfg n]} ∪ acc) acc names ↔
  k ∈ acc ∨ ∃ n, n ∈ names ∧ k = strict_key cfg n.
Proof.
  revert acc. induction names as [|n names IH]; intros acc; cbn [foldl].
  - split; [auto|]. intros [H|(n & H & _)]; [done|]. by apply elem_of_nil in H.
  - rewrite IH, elem_of_union, elem_of_singleton. split.
    + intros [[->|H]|(n' & H & ->)]; [right|by left|right].
      * exists n. split; [left|done].
      * exists n'. split; [by right|done].
    + intros [H|(n' & H & ->)]; [auto|].
      apply elem_of_cons in H as [->|H]; [auto|]. right. by exists n'.
Qed.

Lemma foldl_strict_set (cfg : settings) (items : list (nat * list text)) (acc : gset text)
    (k : text) :
  k ∈ foldl (fun acc '(p, names) =>
               foldl (fun acc n => {[strict_key cfg n]} ∪ acc) acc names)
            acc items ↔
  k ∈ acc ∨ ∃ p names n, (p, names) ∈ items ∧ n ∈ names ∧ k = strict_key cfg n.
Proof.
  revert acc. induction items as [|[p names] items IH]; intros acc; cbn [foldl].
  - split; [auto|]. intros [H|(p & names & n & H & _)]; [done|].
    by apply elem_of_nil in H.
  - rewrite IH, foldl_strict_keys. split.
    + intros [[H|(n & Hn & ->)]|(p' & ns & n & H & Hn & ->)]; [by left|right|right].
      * exists p, names, n. split; [left|done].
      * exists p', ns, n. split; [by right|done].
    + intros [H|(p' & ns & n & H & Hn & ->)]; [auto|].
      apply elem_of_cons in H as [[= -> ->]|H].
      * left. right. by exists n.
      * right. by exists p', ns, n.
Qed.

(** [tgt_strict_set] holds the keys of all names of the index. *)
Lemma elem_of_build_strict_set (cfg : settings) (tgt : gmap nat (list text)) k :
  k ∈ build_strict_set cfg tgt ↔
  ∃ p names n, tgt !! p = Some names ∧ n ∈ names ∧ k = strict_key cfg n.
Proof.
  unfold build_strict_set. rewrite foldl_strict_set.
  setoid_rewrite elem_of_map_to_list. split.
  - intros [H|H]; [by apply not_elem_of_empty in H|done].
  - auto.
Qed.

(** The test of the strict page loop: some name of the page has the key
    of [s]. *)
Lemma strict_hit_iff (cfg : settings) (s : text) (names : list text) :
  strict_hit cfg s names = true ↔
  ∃ n, n ∈ names ∧ strict_key cfg n = strict_key cfg s.
Proof.
  unfold strict_hit, strict_key.
  change (map lower names) with (lower <$> names).
  destruct (STRICT_CASE_SENSITIVE cfg); cbn [negb andb].
  - rewrite orb_false_r, bool_decide_eq_true. split.
    + intros H. by exists s.
    + by intros (n & H & ->).
  - rewrite orb_true_iff, !bool_decide_eq_true. split.
    + intros [H|H].
      * by exists s.
      * apply list_elem_of_fmap in H as (n & H1 & H2). by exists n.
    + intros (n & H1 & H2). right. apply list_elem_of_fmap. by exists n.
Qed.

Lemma elem_of_strict_pages (cfg : settings) (tgt : gmap nat (list text)) s p :
  p ∈ strict_pages cfg tgt s ↔
  ∃ names n, tgt !! p = Some names ∧ n ∈ names ∧
    strict_key cfg n = strict_key cfg s.
Proof.
  unfold strict_pages. case_bool_decide as Hkey.
  - rewrite elem_of_pages_hit. split.
    + intros (names & Hl & (n & Hn & Hk)%strict_hit_iff). by exists names, n.
    + intros (names & n & Hl & Hn & Hk). exists names. split; [done|].
      apply strict_hit_iff. by exists n.
  - split; [by intros H%not_elem_of_empty|].
    intros (names & n & Hl & Hn & Hk). destruct Hkey.
    apply elem_of_build_strict_set. by exists p, names, n.
Qed.

(** After a strict match the body of the loop is left at the first
    [continue], whatever the loose map holds. *)
Lemma match_one_strict (cfg : settings) (tgt : gmap nat (list text)) lm st s :
  (∃ p, p ∈ strict_pages cfg tgt s) →
  match_one cfg tgt (build_strict_set cfg tgt) lm st s =
  Tally (strict_pages cfg tgt s ∪ kept_pages st)
    (strict_cnt st + 1) (loose_cnt st) (none_cnt st).
Proof.
  intros [p Hp]. unfold match_one. pose proof Hp as Hp'.
  unfold strict_pages in Hp |- *. case_bool_decide as Hkey.
  - destruct (scan_pages _ _ _) as [kept1 matched1] eqn:E.
    assert (matched1 = true) as ->.
    { change matched1 with (kept1, matched1).2. rewrite <- E.
      apply scan_pages_map_flag. by exists p. }
    f_equal. change kept1 with (kept1, true).1. rewrite <- E.
    apply scan_pages_map.
  - by apply not_elem_of_empty in Hp.
Qed.

(** C1.  On the page index of any target document: the strict step adds
    the page [p] for the source name [s] exactly when some entry of [p]
    has its trimmed name equal to [s] under the case rule; and when such
    an entry exists anywhere, the name is counted as a strict match, the
    pages added are the strict ones alone, and the result is the same
    whatever the loose map holds: the loose step is not reached. *)
Theorem strict_match_precedence (cfg : settings) (doc : list text)
    (s : text) (st : tally) (tgt_loose_map : gmap text (gset text)) :
  let tgt_page_map := load_target_tests cfg doc in
  (∀ p, p ∈ strict_pages cfg tgt_page_map s ↔
        ∃ names n, tgt_page_map !! p = Some names ∧ n ∈ names ∧
          strict_key cfg (strip n) = strict_key cfg s) ∧
  (strict_match_exists cfg tgt_page_map s →
   match_one cfg tgt_page_map (build_strict_set cfg tgt_page_map)
     tgt_loose_map st s =
   Tally (strict_pages cfg tgt_page_map s ∪ kept_pages st)
     (strict_cnt st + 1) (loose_cnt st) (none_cnt st)).
Proof.
  intros tgt.
  assert (∀ p, p ∈ strict_pages cfg tgt s ↔
        ∃ names n, tgt !! p = Some names ∧ n ∈ names ∧
          strict_key cfg (strip n) = strict_key cfg s) as Hpages.
  { intros p. rewrite elem_of_strict_pages. split.
    - intros (names & n & Hl & Hn & Hk). exists names, n.
      destruct (index_entry cfg doc p names n Hl Hn) as (_ & _ & -> & _).
      done.
    - intros (names & n & Hl & Hn & Hk). exists names, n.
      destruct (index_entry cfg doc p names n Hl Hn) as (_ & _ & Hs & _).
      by rewrite Hs in Hk. }
  split; [exact Hpages|].
  intros (p & names & n & Hl & Hn & Hk).
  apply match_one_strict. exists p. apply Hpages. by exists names, n.
Qed.

(** * The keep set *)

Lemma foldl_keep_names (cfg : settings) (p : nat) (names : list text)
    (kept : gset nat) (q : nat) :
  q ∈ foldl (fun kept n =>
               if bool_decide (strip n ∈ HARDCODED_KEEP cfg)
               then {[p]} ∪ kept else kept) kept names ↔
  q ∈ kept ∨ (q = p ∧ ∃ n, n ∈ names ∧ strip n ∈ HARDCODED_KEEP cfg).
Proof.
  revert kept. induction names as [|n names IH]; intros kept; cbn [foldl].
  - split; [auto|]. intros [H|(_ & n & H & _)]; [done|].
    by apply elem_of_nil in H.
  - rewrite IH. case_bool_decide as Hk.
    + rewrite elem_of_union, elem_of_singleton. split.
      * intros [[->|H]|(-> & n' & H & Hn')]; [right|by left|right].
        -- split; [done|]. exists n. split; [left|done].
        -- split; [done|]. exists n'. split; [by right|done].
      * intros [H|(-> & _)]; auto.
    + split.
      * intros [H|(-> & n' & H & Hn')]; [auto|]. right. split; [done|].
        exists n'. split; [by right|done].
      * intros [H|(-> & n' & H & Hn')]; [auto|].
        apply elem_of_cons in H as [->|H]; [done|]. right. split; [done|].
        by exists n'.
Qed.

Lemma foldl_keep_items (cfg : settings) (items : list (nat * list text))
    (kept : gset nat) (q : nat) :
  q ∈ foldl (fun kept '(p, names) =>
               foldl (fun kept n =>
                        if bool_decide (strip n ∈ HARDCODED_KEEP cfg)
                        then {[p]} ∪ kept else kept) kept names)
            kept items ↔
  q ∈ kept ∨ ∃ names n, (q, names) ∈ items ∧ n ∈ names ∧
    strip n ∈ HARDCODED_KEEP cfg.
Proof.
  revert kept. induction items as [|[p names] items IH]; intros kept;
    cbn [foldl].
  - split; [auto|]. intros [H|(names & n & H & _)]; [done|].
    by apply elem_of_nil in H.
  - rewrite IH, foldl_keep_names. split.
    + intros [[H|(-> & n & Hn & Hk)]|(ns & n & H & Hn & Hk)];
        [by left|right|right].
      * exists names, n. split; [left|done].
      * exists ns, n. split; [by right|done].
    + intros [H|(ns & n & H & Hn & Hk)]; [auto|].
      apply elem_of_cons in H as [[= -> ->]|H].
      * left. right. split; [done|]. by exists n.
      * right. by exists ns, n.
Qed.

(** The override loop adds the pages that hold an entry of the manual
    list, and no other page. *)
Lemma elem_of_hardcoded_keep (cfg : settings) (tgt : gmap nat (list text))
    (kept : gset nat) (q : nat) :
  q ∈ hardcoded_keep cfg tgt kept ↔
  q ∈ kept ∨ ∃ names n, tgt !! q = Some names ∧ n ∈ names ∧
    strip n ∈ HARDCODED_KEEP cfg.
Proof.
  unfold hardcoded_keep. rewrite foldl_keep_items.
  by setoid_rewrite elem_of_map_to_list.
Qed.

Lemma elem_of_sorted (kept : gset nat) (q : nat) : q ∈ sorted kept ↔ q ∈ kept.
Proof.
  unfold sorted. rewrite merge_sort_Permutation. apply elem_of_elements.
Qed.

(** C5.  After the matching loop, every entry of the page index whose
    trimmed name is in the manual list has its page in the final keep
    list, whatever the source names were and however they matched. *)
Theorem manual_override_keeps_page (cfg : settings)
    (tgt_page_map : gmap nat (list text)) (src_names : list text)
    (p : nat) (names : list text) (n : text) :
  tgt_page_map !! p = Some names →
  n ∈ names →
  strip n ∈ HARDCODED_KEEP cfg →
  p ∈ sorted (hardcoded_keep cfg tgt_page_map
                (kept_pages (match_all cfg tgt_page_map src_names))).
Proof.
  intros Hl Hn Hk. apply elem_of_sorted, elem_of_hardcoded_keep.
  right. by exists names, n.
Qed.

(** * Where kept pages come from *)

Lemma add_original_keys (cfg : settings) (acc : gmap text (gset text))
    (n : text) :
  (∀ k os o, acc !! k = Some os → o ∈ os → norm_loose cfg o = k) →
  ∀ k os o, add_original cfg acc n !! k = Some os → o ∈ os →
            norm_loose cfg o = k.
Proof.
  intros Hacc k os o. unfold add_original.
  destruct (decide (norm_loose cfg n = k)) as [<-|Hne].
  - rewrite lookup_insert_eq. intros [= <-].
    rewrite elem_of_union, elem_of_singleton. intros [->|Ho]; [done|].
    destruct (acc !! norm_loose cfg n) as [old|] eqn:E; cbn in Ho.
    + by apply (Hacc _ old).
    + by apply not_elem_of_empty in Ho.
  - rewrite lookup_insert_ne by done. apply Hacc.
Qed.

Lemma foldl_add_original_keys (cfg : settings) (names : list text)
    (acc : gmap text (gset text)) :
  (∀ k os o, acc !! k = Some os → o ∈ os → norm_loose cfg o = k) →
  ∀ k os o, foldl (add_original cfg) acc names !! k = Some os → o ∈ os →
            norm_loose cfg o = k.
Proof.
  revert acc. induction names as [|n names IH]; intros acc Hacc; [done|].
  cbn [foldl]. apply IH. by apply add_original_keys.
Qed.

(** Every original filed under a loose key has that loose key. *)
Lemma build_loose_map_keys (cfg : settings) (tgt : gmap nat (list text))
    (k : text) (os : gset text) (o : text) :
  build_loose_map cfg tgt !! k = Some os → o ∈ os → norm_loose cfg o = k.
Proof.
  unfold build_loose_map. destruct (ENABLE_LOOSE_FALLBACK cfg); [|done].
  generalize (map_to_list tgt). intros items.
  assert (∀ k os o, (∅ : gmap text (gset text)) !! k = Some os → o ∈ os →
                    norm_loose cfg o = k) as H0 by done.
  revert H0. generalize (∅ : gmap text (gset text)). revert k os o.
  induction items as [|[p names] items IH]; intros k os o acc Hacc.
  - apply Hacc.
  - cbn [foldl]. apply IH. by apply foldl_add_original_keys.
Qed.

Lemma loose_hit_elem (originals : gset text) (names : list text) :
  loose_hit originals names = true → ∃ o, o ∈ originals ∧ o ∈ names.
Proof.
  unfold loose_hit. rewrite existsb_exists. intros (o & Ho & Hn).
  exists o. split.
  - apply elem_of_elements. by apply list_elem_of_In.
  - by apply bool_decide_eq_true in Hn.
Qed.

(** A page the body of the loop adds holds an entry that answers the
    source name. *)
Lemma match_one_kept (cfg : settings) (tgt : gmap nat (list text))
    (st : tally) (s : text) (q : nat) :
  q ∈ kept_pages (match_one cfg tgt (build_strict_set cfg tgt)
                    (build_loose_map cfg tgt) st s) →
  q ∈ kept_pages st ∨
  ∃ names n, tgt !! q = Some names ∧ n ∈ names ∧ answers cfg s n.
Proof.
  unfold match_one.
  set (r1 := if bool_decide _ then _ else _).
  assert (q ∈ r1.1 → q ∈ kept_pages st ∨
          ∃ names n, tgt !! q = Some names ∧ n ∈ names ∧ answers cfg s n) as H1.
  { subst r1. case_bool_decide as Hd; [|by left].
    rewrite scan_pages_map, elem_of_union, elem_of_pages_hit.
    intros [(names & Hl & (n & Hn & Hk)%strict_hit_iff)|H]; [right|by left].
    exists names, n. split_and!; [done..|by left]. }
  destruct r1 as [kept1 [|]]; cbn in H1; [exact H1|].
  set (r2 := if ENABLE_LOOSE_FALLBACK cfg then _ else _).
  assert (q ∈ r2.1 → q ∈ kept_pages st ∨
          ∃ names n, tgt !! q = Some names ∧ n ∈ names ∧ answers cfg s n) as H2.
  { subst r2. destruct (ENABLE_LOOSE_FALLBACK cfg) eqn:Hen; [|exact H1].
    destruct (build_loose_map cfg tgt !! norm_loose cfg s) as [os|] eqn:E;
      [|exact H1].
    rewrite scan_pages_map, elem_of_union, elem_of_pages_hit.
    intros [(names & Hl & (o & Ho & Hn)%loose_hit_elem)|H]; [right|auto].
    exists names, o. split_and!; [done..|right]. split; [done|].
    by apply (build_loose_map_keys cfg tgt _ os). }
  by destruct r2 as [kept2 [|]].
Qed.

Lemma foldl_match_one_kept (cfg : settings) (tgt : gmap nat (list text))
    (src_names : list text) (st : tally) (q : nat) :
  q ∈ kept_pages (foldl (match_one cfg tgt (build_strict_set cfg tgt)
                           (build_loose_map cfg tgt)) st src_names) →
  q ∈ kept_pages st ∨
  ∃ s names n, s ∈ src_names ∧ tgt !! q = Some names ∧ n ∈ names ∧
    answers cfg s n.
Proof.
  revert st. induction src_names as [|s l IH]; intros st; cbn [foldl].
  - by left.
  - intros [H|(s' & names & n & Hs & H)]%IH.
    + apply match_one_kept in H as [H|(names & n & H)]; [by left|right].
      exists s, names, n. split; [left|done].
    + right. exists s', names, n. split; [by right|done].
Qed.

(** A page of the final keep list holds an index entry that answers a
    source name or is in the manual list. *)
Lemma final_keep_origin (cfg : settings) (tgt : gmap nat (list text))
    (src_names : list text) (q : nat) :
  q ∈ final_keep cfg tgt src_names →
  ∃ names n, tgt !! q = Some names ∧ n ∈ names ∧
    (strip n ∈ HARDCODED_KEEP cfg ∨ ∃ s, s ∈ src_names ∧ answers cfg s n).
Proof.
  unfold final_keep. rewrite elem_of_sorted, elem_of_hardcoded_keep.
  intros [H|(names & n & Hl & Hn & Hk)].
  - unfold match_all in H.
    apply foldl_match_one_kept in H as [H|(s & names & n & Hs & Hl & Hn & Ha)].
    + cbn in H. by apply not_elem_of_empty in H.
    + exists names, n. split_and!; [done| done |]. right. by exists s.
  - exists names, n. split_and!; [done..|]. by left.
Qed.

(** * The run *)

Lemma StronglySorted_le_lt (l : list nat) :
  StronglySorted le l → NoDup l → StronglySorted lt l.
Proof.
  induction 1 as [|a l Hs IH Hall]; intros Hnd; constructor.
  - apply IH. by apply NoDup_cons in Hnd as [_ ?].
  - apply NoDup_cons in Hnd as [Ha _].
    apply Forall_forall. intros x Hx.
    assert (a ≤ x) by (eapply Forall_forall in Hall; [exact Hall|done]).
    assert (a ≠ x) by (intros ->; done). lia.
Qed.

(** [sorted] gives the elements of the set in strictly ascending order. *)
Lemma sorted_strict (kept : gset nat) : StronglySorted lt (sorted kept).
Proof.
  apply StronglySorted_le_lt.
  - unfold sorted. apply (StronglySorted_merge_sort (≤)).
  - unfold sorted. rewrite merge_sort_Permutation. apply NoDup_elements.
Qed.

Section RunFacts.

Context {Page : Type} (get_text : Page → text).

Lemma foldl_insert_pdf (src : list Page) (keep : list nat) (acc : list Page) :
  (∀ p, p ∈ keep → 1 ≤ p ≤ length src) →
  ∃ out, foldl (fun out p => insert_pdf src p out) acc keep = acc ++ out ∧
         Forall2 (fun p pg => src !! (p - 1) = Some pg) keep out.
Proof.
  revert acc. induction keep as [|p keep IH]; intros acc Hin; cbn [foldl].
  - exists []. by rewrite app_nil_r.
  - destruct (Hin p) as [Hp1 Hp2]; [left|].
    destruct p as [|i]; [lia|]. cbn [insert_pdf].
    destruct (src !! i) as [pg|] eqn:E.
    + destruct (IH (acc ++ [pg])) as (out & -> & Hout).
      { intros q Hq. apply Hin. by right. }
      exists (pg :: out). split; [by rewrite <- app_assoc|].
      constructor; [|done]. cbn. by rewrite Nat.sub_0_r.
    + apply lookup_ge_None in E. lia.
Qed.

Lemma kept_list_final (cfg : settings) (src tgt : list Page) :
  kept_list get_text cfg src tgt =
  final_keep cfg (load_target_tests cfg (get_text <$> tgt))
    (filter (fun s => nonempty (strip s) = true)
       (load_source_names (get_text <$> src))).
Proof. reflexivity. Qed.

Lemma kept_list_range (cfg : settings) (src tgt : list Page) (p : nat) :
  p ∈ kept_list get_text cfg src tgt → 1 ≤ p ≤ length tgt.
Proof.
  rewrite kept_list_final.
  intros (names & n & Hl & Hn & _)%final_keep_origin.
  destruct (index_entry _ _ _ _ _ Hl Hn) as (_ & _ & _ & H).
  by rewrite length_fmap in H.
Qed.

(** What [main] does when both input files open. *)
Lemma main_opened (cfg : settings) (src tgt : list Page) (writable : bool)
    (w : world) :
  let fs := Files (Some src) (Some tgt) writable in
  let src_names := filter (fun s => nonempty (strip s) = true)
                     (load_source_names (get_text <$> src)) in
  let tgt_page_map := load_target_tests cfg (get_text <$> tgt) in
  let st := match_all cfg tgt_page_map src_names in
  let kept := kept_list get_text cfg src tgt in
  let head_lines :=
    [Extracting_source; Source_names_found (length src_names);
     Extracting_target;
     Target_tests_captured (total_rows tgt_page_map) (size tgt_page_map);
     Matching; Checking_hardcoded; Writing; Pages_to_keep (length kept)] in
  let summary :=
    [Result_header; Total_target_pages (length tgt);
     Kept_pages (length kept); Source_names_total (length src_names);
     Strict_matches (strict_cnt st); Loose_matches (loose_cnt st);
     No_matches (none_cnt st)] in
  main get_text cfg fs w =
  match kept with
  | [] => (World (stdout w ++ head_lines ++ [No_pages_matched] ++ summary)
             (OUT_PDF w), Some tt)
  | _ =>
      if writable
      then (World (stdout w ++ head_lines ++ [Wrote] ++ summary)
              (Some (foldl (fun out p => insert_pdf tgt p out) [] kept)),
            Some tt)
      else (World (stdout w ++ head_lines) (OUT_PDF w), None)
  end.
Proof.
  intros fs src_names tgt_page_map st kept head_lines summary.
  subst head_lines summary kept st tgt_page_map src_names fs.
  unfold kept_list.
  cbv beta iota zeta delta
    [main all_source_names all_target_tests write_pdf_pages fitz_open
     mbind io_bind mret io_ret print save raise
     SOURCE_PDF TARGET_PDF OUT_writable stdout OUT_PDF].
  destruct (sorted _) as [|p kept']; [|destruct writable];
    cbv beta iota zeta delta [stdout OUT_PDF];
    rewrite <- ?app_assoc; reflexivity.
Qed.

End RunFacts.

Section RunClaims.

Context {Page : Type} (get_text : Page → text).

(** C6.  The final keep list is strictly ascending (so without
    repetition), each of its numbers is a 1-based page number of the
    target document, and, when it is not empty and the output can be
    saved, the output document consists of exactly the kept pages of the
    target in that order. *)
Theorem keep_list_ascending_valid_written (cfg : settings)
    (src tgt : list Page) :
  let kept := kept_list get_text cfg src tgt in
  StronglySorted lt kept ∧
  (∀ p, p ∈ kept → 1 ≤ p ≤ length tgt) ∧
  (kept ≠ [] →
   ∃ out,
     OUT_PDF (run get_text cfg (Files (Some src) (Some tgt) true)).1 = Some out ∧
     Forall2 (fun p pg => tgt !! (p - 1) = Some pg) kept out).
Proof.
  intros kept. split_and!.
  - apply sorted_strict.
  - apply kept_list_range.
  - intros Hne. unfold run. rewrite main_opened. fold kept.
    destruct kept as [|p kept'] eqn:E; [done|]. cbn [fst OUT_PDF].
    destruct (foldl_insert_pdf tgt (p :: kept') []) as (out & -> & Hout).
    { intros q Hq. apply (kept_list_range get_text cfg src tgt).
      fold kept. by rewrite E. }
    by exists out.
Qed.

(** The pages [write_pdf_pages] is asked to write, when there are none:
    it prints its notice and saves nothing. *)
Lemma write_pdf_pages_nil (fs : files) (source_pdf : option (list Page))
    (w : world) :
  write_pdf_pages fs source_pdf [] w =
  (World (stdout w ++ [No_pages_to_save]) (OUT_PDF w), Some tt).
Proof. reflexivity. Qed.

(** A run that ends with an exception prints [Error] last and exits
    with status 1; any other run exits with status 0. *)
Lemma run_status (cfg : settings) (fs : files) :
  let '(w, status) := run get_text cfg fs in
  (status = 1 ∧ last (stdout w) = Some Error) ∨
  (status = 0 ∧ Error ∉ stdout w).
Proof.
  unfold run. destruct fs as [[src|] [tgt|] writable].
  - rewrite main_opened.
    destruct (kept_list get_text cfg src tgt) as [|p kept'].
    + right. split; [done|]. cbn. intros H.
      repeat (apply elem_of_cons in H as [H|H]; [discriminate|]).
      by apply elem_of_nil in H.
    + destruct writable.
      * right. split; [done|]. cbn. intros H.
        repeat (apply elem_of_cons in H as [H|H]; [discriminate|]).
        by apply elem_of_nil in H.
      * left. split; [done|]. cbn [stdout]. by rewrite last_snoc.
  - left. split; [done|]. cbn [stdout]. by rewrite last_snoc.
  - left. split; [done|]. cbn [stdout]. by rewrite last_snoc.
  - left. split; [done|]. cbn [stdout]. by rewrite last_snoc.
Qed.

(** C9.  When the final keep list is empty, nothing is saved, the run
    says so with its own line, prints the whole summary and ends with
    status 0 and without the [Error] line, which is how a failed run
    ends (status 1, [Error] last). *)
Theorem empty_keep_list_saves_nothing (cfg : settings)
    (src tgt : list Page) (writable : bool) :
  kept_list get_text cfg src tgt = [] →
  let outcome := run get_text cfg (Files (Some src) (Some tgt) writable) in
  let src_names := filter (fun s => nonempty (strip s) = true)
                     (load_source_names (get_text <$> src)) in
  let tgt_page_map := load_target_tests cfg (get_text <$> tgt) in
  let st := match_all cfg tgt_page_map src_names in
  OUT_PDF outcome.1 = None ∧
  outcome.2 = 0 ∧
  stdout outcome.1 =
    [Extracting_source; Source_names_found (length src_names);
     Extracting_target;
     Target_tests_captured (total_rows tgt_page_map) (size tgt_page_map);
     Matching; Checking_hardcoded; Writing; Pages_to_keep 0;
     No_pages_matched;
     Result_header; Total_target_pages (length tgt); Kept_pages 0;
     Source_names_total (length src_names);
     Strict_matches (strict_cnt st); Loose_matches (loose_cnt st);
     No_matches (none_cnt st)] ∧
  (Error ∉ stdout outcome.1) ∧
  (∀ fs', (run get_text cfg fs').2 ≠ 0 →
          (run get_text cfg fs').2 = 1 ∧
          last (stdout (run get_text cfg fs').1) = Some Error).
Proof.
  intros Hkept outcome src_names tgt_page_map st.
  assert (outcome =
    (World
       [Extracting_source; Source_names_found (length src_names);
        Extracting_target;
        Target_tests_captured (total_rows tgt_page_map) (size tgt_page_map);
        Matching; Checking_hardcoded; Writing; Pages_to_keep 0;
        No_pages_matched;
        Result_header; Total_target_pages (length tgt); Kept_pages 0;
        Source_names_total (length src_names);
        Strict_matches (strict_cnt st); Loose_matches (loose_cnt st);
        No_matches (none_cnt st)] None, 0)) as ->.
  { subst outcome. unfold run. rewrite main_opened, Hkept. reflexivity. }
  cbn [fst snd stdout OUT_PDF]. split_and!; try done.
  - intros H.
    repeat (apply elem_of_cons in H as [H|H]; [discriminate|]).
    by apply elem_of_nil in H.
  - intros fs' Hne. pose proof (run_status cfg fs') as Hs.
    destruct (run get_text cfg fs') as [w status]. cbn in *.
    destruct Hs as [[-> ?]|[-> _]]; done.
Qed.

End RunClaims.

(** * Drop-words, empty names and the manual list *)

(** With upper-case drop-words, the test of the script finds exactly
    the names that hold a drop-word, letter case apart. *)
Lemma dont_care_holds (cfg : settings) (name : text) :
  upper_case_drop_words cfg → holds_drop_word cfg name →
  dont_care cfg name = true.
Proof.
  intros Hup (dw & Hdw & Hc). unfold dont_care. apply existsb_exists.
  exists dw. split; [by apply list_elem_of_In|].
  unfold upper_case_drop_words in Hup. rewrite Forall_forall in Hup.
  by rewrite (Hup dw Hdw) in Hc.
Qed.

Lemma dont_care_false (cfg : settings) (name : text) :
  upper_case_drop_words cfg → dont_care cfg name = false →
  ¬ holds_drop_word cfg name.
Proof.
  intros Hup Hd Hh. by rewrite (dont_care_holds cfg name Hup Hh) in Hd.
Qed.

(** C3, as the script has it.  When every drop-word is written in upper
    case, as the shipped ones are: an occurrence whose name holds a
    drop-word, letter case apart, leaves the page index as it was; so no
    entry of the index holds a drop-word, the statistics and the two
    matching steps, which read the index only, never see the occurrence,
    and every page the matching loop keeps holds an entry without
    drop-word that answers a source name. *)
Theorem drop_word_occurrence_excluded (cfg : settings) (doc : list text) :
  upper_case_drop_words cfg →
  let tgt_page_map := load_target_tests cfg doc in
  (∀ pno (page_map : gmap nat (list text)) m,
     holds_drop_word cfg (clean_name (group m 2)) →
     target_match cfg pno page_map m = page_map) ∧
  (∀ p names n, tgt_page_map !! p = Some names → n ∈ names →
     ¬ holds_drop_word cfg n) ∧
  (∀ src_names p,
     p ∈ kept_pages (match_all cfg tgt_page_map src_names) →
     ∃ names n s, tgt_page_map !! p = Some names ∧ n ∈ names ∧
       ¬ holds_drop_word cfg n ∧ s ∈ src_names ∧ answers cfg s n).
Proof.
  intros Hup tgt.
  assert (∀ p names n, tgt !! p = Some names → n ∈ names →
            ¬ holds_drop_word cfg n) as Hentries.
  { intros p names n Hl Hn Hh.
    destruct (index_entry cfg doc p names n Hl Hn) as (_ & Hd & _).
    by rewrite (dont_care_holds cfg n Hup Hh) in Hd. }
  split_and!.
  - intros pno page_map m Hh. rewrite target_match_enters. unfold enters.
    rewrite (dont_care_holds _ _ Hup Hh). by rewrite andb_false_r.
  - exact Hentries.
  - intros src_names p Hp. unfold match_all in Hp.
    apply foldl_match_one_kept in Hp as [Hp|(s & names & n & Hs & Hl & Hn & Ha)].
    + cbn in Hp. by apply not_elem_of_empty in Hp.
    + exists names, n, s. split_and!; try done. by apply (Hentries p names).
Qed.

Lemma foldl_source_page (doc : list text) (names : list text) :
  foldl source_page names doc = names ++ omap source_name_of doc.
Proof.
  revert names. induction doc as [|raw doc IH]; intros names;
    cbn [foldl omap list_omap].
  - by rewrite app_nil_r.
  - rewrite IH. unfold source_page, source_name_of.
    destruct (search true SRC_NAME_RE (norm_layout raw)) as [m|]; [|done].
    cbn. destruct (nonempty _); [|done]. by rewrite <- app_assoc.
Qed.

(** The source names are what the pages contribute, page by page. *)
Lemma load_source_names_omap (doc : list text) :
  load_source_names doc = omap source_name_of doc.
Proof. unfold load_source_names. by rewrite foldl_source_page. Qed.

Lemma source_name_of_nonempty (raw name : text) :
  source_name_of raw = Some name → name ≠ [].
Proof.
  unfold source_name_of.
  destruct (search _ _ _) as [m|]; [|done].
  cbn. destruct (nonempty _) eqn:E; [|done]. intros [= <-].
  by apply nonempty_true.
Qed.

(** C10.  A captured name that is empty once cleaned is dropped at both
    extractions: such a match leaves the list of source names, or the
    page index, as it was, and the empty text is neither a source name
    nor an entry of the page index. *)
Theorem empty_name_discarded (cfg : settings) (doc : list text) :
  (∀ names raw m, search true SRC_NAME_RE (norm_layout raw) = Some m →
     clean_name (group m 1) = [] → source_page names raw = names) ∧
  ([] ∉ load_source_names doc) ∧
  (∀ pno (page_map : gmap nat (list text)) m,
     clean_name (group m 2) = [] →
     target_match cfg pno page_map m = page_map) ∧
  (∀ p names, load_target_tests cfg doc !! p = Some names → [] ∉ names).
Proof.
  split_and!.
  - intros names raw m Hm Hc. unfold source_page. by rewrite Hm, Hc.
  - rewrite load_source_names_omap. intros H.
    apply list_elem_of_omap in H as (raw & _ & H).
    by apply source_name_of_nonempty in H.
  - intros pno page_map m Hc. unfold target_match. by rewrite Hc.
  - intros p names Hl Hn.
    by destruct (index_entry cfg doc p names [] Hl Hn) as (H & _).
Qed.

(** C4, as the script has it.  A page is in the final keep list only if
    the page index holds for it an entry that answers a source name or
    whose trimmed name is in the manual list; that entry passed the
    drop-word test of the script, so that, with the drop-words written in
    upper case, it is a name without drop-word, letter case apart.  The
    manual list reads the index and brings back no occurrence that was
    dropped. *)
Theorem kept_page_has_index_entry (cfg : settings) (doc : list text)
    (src_names : list text) (p : nat) :
  p ∈ final_keep cfg (load_target_tests cfg doc) src_names →
  ∃ names n, load_target_tests cfg doc !! p = Some names ∧ n ∈ names ∧
    dont_care cfg n = false ∧
    (upper_case_drop_words cfg → ¬ holds_drop_word cfg n) ∧
    (strip n ∈ HARDCODED_KEEP cfg ∨ ∃ s, s ∈ src_names ∧ answers cfg s n).
Proof.
  intros (names & n & Hl & Hn & H)%final_keep_origin.
  exists names, n.
  destruct (index_entry cfg doc p names n Hl Hn) as (_ & Hd & _).
  split_and!; try done.
  intros Hup. by apply dont_care_false.
Qed.

(** * The matcher against what a pattern matches *)

Lemma step_char_ext (p : ascii → bool) : cont_ext (step_char p).
Proof.
  intros st k1 k2 Hk. unfold step_char.
  destruct (rest st) as [|a s]; [done|]. destruct (p a); [apply Hk|done].
Qed.

Lemma rep_loop_unfold body fuel lo hi lz st k :
  rep_loop body (S fuel) lo hi lz st k =
  let again :=
    if more_allowed hi
    then body st (fun st' =>
           if length (rest st') <? length (rest st)
           then rep_loop body fuel (pred lo) (pred <$> hi) lz st' k
           else None)
    else None in
  match lo with
  | S _ => again
  | O =>
      if lz
      then (match k st with Some r => Some r | None => again end)
      else (match again with Some r => Some r | None => k st end)
  end.
Proof. reflexivity. Qed.

Lemma rep_loop_ext body fuel lo hi lz st k1 k2 :
  cont_ext body → (∀ x, k1 x = k2 x) →
  rep_loop body fuel lo hi lz st k1 = rep_loop body fuel lo hi lz st k2.
Proof.
  intros Hbody Hk. revert lo hi st.
  induction fuel as [|fuel IH]; intros lo hi st; [done|].
  rewrite !rep_loop_unfold. cbv zeta.
  assert ((if more_allowed hi
           then body st (fun st' =>
                  if length (rest st') <? length (rest st)
                  then rep_loop body fuel (pred lo) (pred <$> hi) lz st' k1
                  else None)
           else None) =
          (if more_allowed hi
           then body st (fun st' =>
                  if length (rest st') <? length (rest st)
                  then rep_loop body fuel (pred lo) (pred <$> hi) lz st' k2
                  else None)
           else None)) as ->.
  { destruct (more_allowed hi); [|done]. apply Hbody. intros x.
    destruct (_ <? _); [apply IH|done]. }
  destruct lo; [|done]. by rewrite Hk.
Qed.

Lemma rmatch_ext (ic : bool) (r : regex) : cont_ext (rmatch ic r).
Proof.
  induction r as [|c|cl|r1 IH1 r2 IH2|r1 IH1 r2 IH2|r IH lo hi lz|n r IH|r IH| |];
    intros st k1 k2 Hk; cbn [rmatch].
  - apply Hk.
  - by apply step_char_ext.
  - by apply step_char_ext.
  - apply IH1. intros x. by apply IH2.
  - by rewrite (IH1 st k1 k2 Hk), (IH2 st k1 k2 Hk).
  - by apply rep_loop_ext.
  - apply IH. intros x. apply Hk.
  - by rewrite Hk.
  - by rewrite Hk.
  - by rewrite Hk.
Qed.

(** A fuel above the length of the remaining text is as good as any
    other such fuel. *)
Lemma rep_loop_fuel body f1 f2 lo hi lz st k :
  cont_ext body → length (rest st) < f1 → length (rest st) < f2 →
  rep_loop body f1 lo hi lz st k = rep_loop body f2 lo hi lz st k.
Proof.
  intros Hbody. revert f2 lo hi st.
  induction f1 as [|f1 IH]; intros f2 lo hi st H1 H2; [lia|].
  destruct f2 as [|f2]; [lia|].
  rewrite !rep_loop_unfold. cbv zeta.
  assert ((if more_allowed hi
           then body st (fun st' =>
                  if length (rest st') <? length (rest st)
                  then rep_loop body f1 (pred lo) (pred <$> hi) lz st' k
                  else None)
           else None) =
          (if more_allowed hi
           then body st (fun st' =>
                  if length (rest st') <? length (rest st)
                  then rep_loop body f2 (pred lo) (pred <$> hi) lz st' k
                  else None)
           else None)) as ->.
  { destruct (more_allowed hi); [|done]. apply Hbody. intros x.
    destruct (_ <? _) eqn:E; [|done]. apply Nat.ltb_lt in E.
    apply IH; lia. }
  done.
Qed.

(** Soundness: a success of the matcher goes through a position the
    pattern matches up to, from which the continuation succeeds. *)
Lemma rep_loop_sound ic r fuel lo hi lz st k res :
  (∀ st k res, rmatch ic r st k = Some res →
               ∃ st', matches ic r st st' ∧ k st' = Some res) →
  rep_loop (rmatch ic r) fuel lo hi lz st k = Some res →
  ∃ st', matches ic (Rep r lo hi lz) st st' ∧ k st' = Some res.
Proof.
  intros Hbody. revert lo hi st.
  induction fuel as [|fuel IH]; intros lo hi st; [done|].
  rewrite rep_loop_unfold. cbv zeta.
  assert ((if more_allowed hi
           then rmatch ic r st (fun st' =>
                  if length (rest st') <? length (rest st)
                  then rep_loop (rmatch ic r) fuel (pred lo) (pred <$> hi) lz st' k
                  else None)
           else None) = Some res →
          ∃ st', matches ic (Rep r lo hi lz) st st' ∧ k st' = Some res) as Hagain.
  { destruct (more_allowed hi) eqn:Hm; [|done].
    intros (st1 & Hm1 & Hk)%Hbody.
    destruct (_ <? _) eqn:E; [|done]. apply Nat.ltb_lt in E.
    apply IH in Hk as (st2 & Hm2 & Hk).
    exists st2. split; [|done]. by apply (M_rep_more ic r lo hi lz st st1 st2). }
  destruct lo as [|lo]; [|exact Hagain].
  destruct lz.
  - destruct (k st) as [r0|] eqn:Hk.
    + intros [= ->]. exists st. split; [constructor|done].
    + exact Hagain.
  - destruct (if more_allowed hi then _ else _) as [r0|] eqn:E.
    + intros [= ->]. by apply Hagain.
    + intros Hk. exists st. split; [constructor|done].
Qed.

Theorem rmatch_sound (ic : bool) (r : regex) st k res :
  rmatch ic r st k = Some res →
  ∃ st', matches ic r st st' ∧ k st' = Some res.
Proof.
  revert st k res.
  induction r as [|c|cl|r1 IH1 r2 IH2|r1 IH1 r2 IH2|r IH lo hi lz|n r IH|r IH| |];
    intros st k res; cbn [rmatch].
  - intros H. exists st. split; [constructor|done].
  - unfold step_char. destruct st as [sn [|a s] g]; cbn; [done|].
    destruct (chr_eq ic c a) eqn:E; [|done]. intros H.
    exists (MState (Some a) s g). split; [by constructor|done].
  - unfold step_char. destruct st as [sn [|a s] g]; cbn; [done|].
    destruct (in_class ic cl a) eqn:E; [|done]. intros H.
    exists (MState (Some a) s g). split; [by constructor|done].
  - intros (st1 & H1 & (st2 & H2 & Hk)%IH2)%IH1.
    exists st2. split; [by apply (M_seq ic r1 r2 st st1 st2)|done].
  - destruct (rmatch ic r1 st k) as [r0|] eqn:E.
    + intros [= ->]. apply IH1 in E as (st' & H & Hk).
      exists st'. split; [by apply M_alt_l|done].
    + intros (st' & H & Hk)%IH2. exists st'. split; [by apply M_alt_r|done].
  - by apply rep_loop_sound.
  - intros (st' & H & Hk)%IH. exists (set_group n st st').
    split; [by constructor|done].
  - destruct (rmatch ic r st Some) as [st'|] eqn:E; [|done].
    apply IH in E as (st'' & H & _). intros Hk.
    exists st. split; [by apply (M_ahead ic r st st'')|done].
  - destruct (at_boundary st) eqn:E; [|done]. intros Hk.
    exists st. split; [by constructor|done].
  - destruct (at_eos st) eqn:E; [|done]. intros Hk.
    exists st. split; [by constructor|done].
Qed.

(** Completeness: when the pattern matches up to a position from which
    the continuation succeeds, the matcher succeeds (at that position or
    at one of higher priority). *)
Theorem rmatch_complete (ic : bool) (r : regex) st st' :
  matches ic r st st' →
  ∀ k, is_Some (k st') → is_Some (rmatch ic r st k).
Proof.
  induction 1 as [st|c sn a s g Hc|cl sn a s g Hc
                 |r1 r2 st1 st2 st3 _ IH1 _ IH2
                 |r1 r2 st st' _ IH|r1 r2 st st' _ IH
                 |r hi lz st|r lo hi lz st st1 st2 Hmore _ IH1 Hlen _ IH2
                 |n r st st' _ IH|r st st' _ IH|st Hb|st He];
    intros k Hk; cbn [rmatch].
  - done.
  - unfold step_char. cbn. by rewrite Hc.
  - unfold step_char. cbn. by rewrite Hc.
  - apply IH1. by apply IH2.
  - destruct (IH k Hk) as [res ->]. by eexists.
  - destruct (rmatch ic r1 st k); [by eexists|]. by apply IH.
  - rewrite rep_loop_unfold. cbv zeta. destruct lz.
    + destruct Hk as [res ->]. by eexists.
    + destruct (if more_allowed hi then _ else _); [by eexists|done].
  - rewrite rep_loop_unfold. cbv zeta. rewrite Hmore.
    assert (is_Some (rmatch ic r st (fun st' =>
              if length (rest st') <? length (rest st)
              then rep_loop (rmatch ic r) (length (rest st)) (pred lo)
                     (pred <$> hi) lz st' k
              else None))) as [res Hres].
    { apply IH1. apply Nat.ltb_lt in Hlen as Hlt. rewrite Hlt.
      rewrite (rep_loop_fuel _ _ (S (length (rest st1))));
        [|apply rmatch_ext|lia|lia].
      apply (IH2 k Hk). }
    rewrite Hres. destruct lo; [|by eexists].
    destruct lz; [|by eexists]. destruct (k st); by eexists.
  - apply IH. apply Hk.
  - destruct (IH Some) as [res ->]; [by eexists|]. done.
  - by rewrite Hb.
  - by rewrite He.
Qed.

(** * The shapes of the pieces of the two patterns *)

Lemma last_seen_nil sn : last_seen sn [] = sn.
Proof. reflexivity. Qed.

Lemma last_seen_cons sn a w : last_seen sn (a :: w) = last_seen (Some a) w.
Proof.
  unfold last_seen. rewrite last_cons. by destruct (last w).
Qed.

Lemma last_seen_app sn w1 w2 :
  last_seen sn (w1 ++ w2) = last_seen (last_seen sn w1) w2.
Proof.
  revert sn. induction w1 as [|a w1 IH]; intros sn; [done|].
  cbn [app]. by rewrite !last_seen_cons, IH.
Qed.

Lemma last_seen_last (pre w : text) : last_seen (last pre) w = last (pre ++ w).
Proof.
  unfold last_seen. rewrite last_app. by destruct (last w).
Qed.

Lemma steps_nil st : steps st [] st.
Proof. split; [done|]. by destruct st. Qed.

Lemma steps_app st1 w1 st2 w2 st3 :
  steps st1 w1 st2 → steps st2 w2 st3 → steps st1 (w1 ++ w2) st3.
Proof.
  intros [H1 ->] [H2 ->]. cbn in *. split.
  - by rewrite H1, H2, <- app_assoc.
  - by rewrite last_seen_app.
Qed.

Lemma steps_one sn a s g : steps (MState sn (a :: s) g) [a] (MState (Some a) s g).
Proof. by split. Qed.

Lemma steps_state sn w s g st' :
  steps (MState sn (w ++ s) g) w st' → st' = MState (last_seen sn w) s g.
Proof.
  intros [H ->]. cbn in *. apply app_inv_head in H. by rewrite <- H.
Qed.

Lemma steps_intro sn w s g :
  steps (MState sn (w ++ s) g) w (MState (last_seen sn w) s g).
Proof. by split. Qed.

Lemma steps_length st w st' :
  steps st w st' → length (rest st) = length w + length (rest st').
Proof. intros [H _]. by rewrite H, length_app. Qed.

(** A repeat of a class takes a run of characters of the class. *)
Lemma matches_rep_cls_inv ic k lo hi lz st st' :
  matches ic (Rep (Cls k) lo hi lz) st st' →
  ∃ w, steps st w st' ∧ Forall (fun a => in_class ic k a = true) w ∧
       lo ≤ length w ∧ (∀ h, hi = Some h → length w ≤ h).
Proof.
  intros H. remember (Rep (Cls k) lo hi lz) as r eqn:Er.
  revert lo hi Er.
  induction H as [| | | | | |r0 hi0 lz0 st
                 |r0 lo0 hi0 lz0 st st1 st2 Hmore Hbody _ Hlen _ IH| | | |];
    intros lo hi Er; try discriminate; inversion Er; subst; clear Er.
  - exists []. split_and!; [apply steps_nil|constructor|done|cbn; lia].
  - inversion Hbody; subst.
    destruct (IH _ _ eq_refl) as (w & Hw & Hall & Hlo & Hhi).
    exists (a :: w). split_and!.
    + apply (steps_app _ [a] _ w _ (steps_one _ _ _ _) Hw).
    + by constructor.
    + cbn. lia.
    + intros h ->. destruct h as [|h]; [done|]. cbn.
      specialize (Hhi h eq_refl). lia.
Qed.

Lemma matches_rep_cls_intro ic k lz (w : text) :
  Forall (fun a => in_class ic k a = true) w →
  ∀ lo hi sn s g,
    lo ≤ length w → (∀ h, hi = Some h → length w ≤ h) →
    matches ic (Rep (Cls k) lo hi lz) (MState sn (w ++ s) g)
      (MState (last_seen sn w) s g).
Proof.
  induction 1 as [|a w Ha _ IH]; intros lo hi sn s g Hlo Hhi.
  - cbn in Hlo. assert (lo = 0) as -> by lia. constructor.
  - cbn [app]. rewrite last_seen_cons.
    apply (M_rep_more ic _ lo hi lz _ (MState (Some a) (w ++ s) g)).
    + destruct hi as [[|h]|]; [|done|done].
      specialize (Hhi 0 eq_refl). cbn in Hhi. lia.
    + by constructor.
    + cbn. lia.
    + apply IH.
      * cbn in Hlo. lia.
      * intros h Hh. destruct hi as [[|h']|]; cbn in Hh; [| |done].
        -- specialize (Hhi 0 eq_refl). cbn in Hhi. lia.
        -- injection Hh as <-. specialize (Hhi (S h') eq_refl). cbn in Hhi. lia.
Qed.

(** A literal word takes the word, letter by letter. *)
Lemma matches_lit_inv ic (t : text) st st' :
  matches ic (foldr (fun c r => Seq (Chr c) r) Eps t) st st' →
  ∃ w, steps st w st' ∧ Forall2 (fun c a => chr_eq ic c a = true) t w.
Proof.
  revert st. induction t as [|c t IH]; intros st H; cbn in H.
  - inversion H; subst. exists []. split; [apply steps_nil|constructor].
  - inversion H as [| | |r1 r2 st1 st2 st3 H1 H2| | | | | | | |]; subst.
    inversion H1; subst.
    apply IH in H2 as (w & Hw & Hall).
    exists (a :: w). split.
    + apply (steps_app _ [a] _ w _ (steps_one _ _ _ _) Hw).
    + by constructor.
Qed.

Lemma matches_lit_intro ic (t w : text) :
  Forall2 (fun c a => chr_eq ic c a = true) t w →
  ∀ sn s g,
    matches ic (foldr (fun c r => Seq (Chr c) r) Eps t)
      (MState sn (w ++ s) g) (MState (last_seen sn w) s g).
Proof.
  induction 1 as [|c a t w Hc _ IH]; intros sn s g; cbn.
  - constructor.
  - rewrite last_seen_cons.
    apply (M_seq ic _ _ _ (MState (Some a) (w ++ s) g)); [by constructor|].
    apply IH.
Qed.

Lemma lower_char_idem c : lower_char (lower_char c) = lower_char c.
Proof. ascii_cases c; reflexivity. Qed.

(** Under [re.I] a literal word matches the texts that are the word,
    letter case apart. *)
Lemma same_word_Forall2 (word : string) (w : text) :
  Forall2 (fun c a => chr_eq true c a = true) (txt word) w ↔ same_word word w.
Proof.
  unfold same_word, lower. generalize (txt word). intros t. split.
  - induction 1 as [|c a t w Hc _ IH]; [done|].
    cbn. apply Ascii.eqb_eq in Hc. by rewrite Hc, IH.
  - revert t. induction w as [|a w IH]; intros [|c t]; cbn; try done.
    intros [= Hc Ht]. constructor; [|by apply IH].
    cbn. by apply Ascii.eqb_eq.
Qed.

(** ** Inversion of [matches], constructor by constructor *)

Lemma matches_eps_inv ic st st' : matches ic Eps st st' → st' = st.
Proof. by inversion 1. Qed.

Lemma matches_seq_inv ic r1 r2 st st' :
  matches ic (Seq r1 r2) st st' →
  ∃ st1, matches ic r1 st st1 ∧ matches ic r2 st1 st'.
Proof. inversion 1; subst. by eexists. Qed.

Lemma matches_alt_inv ic r1 r2 st st' :
  matches ic (Alt r1 r2) st st' → matches ic r1 st st' ∨ matches ic r2 st st'.
Proof. inversion 1; subst; auto. Qed.

Lemma matches_chr_inv ic c st st' :
  matches ic (Chr c) st st' → ∃ a, chr_eq ic c a = true ∧ steps st [a] st'.
Proof. inversion 1; subst. exists a. split; [done|apply steps_one]. Qed.

Lemma matches_cls_inv ic k st st' :
  matches ic (Cls k) st st' → ∃ a, in_class ic k a = true ∧ steps st [a] st'.
Proof. inversion 1; subst. exists a. split; [done|apply steps_one]. Qed.

Lemma matches_grp_inv ic n r st st' :
  matches ic (Grp n r) st st' →
  ∃ st1, matches ic r st st1 ∧ st' = set_group n st st1.
Proof. inversion 1; subst. by eexists. Qed.

Lemma matches_ahead_inv ic r st st' :
  matches ic (Ahead r) st st' → st' = st ∧ ∃ st1, matches ic r st st1.
Proof. inversion 1; subst. split; [done|by eexists]. Qed.

Lemma matches_bound_inv ic st st' :
  matches ic Bound st st' → st' = st ∧ at_boundary st = true.
Proof. by inversion 1. Qed.

Lemma matches_eos_inv ic st st' :
  matches ic Eos st st' → st' = st ∧ at_eos st = true.
Proof. by inversion 1. Qed.

Lemma matches_rep_zero_inv ic r lo lz st st' :
  matches ic (Rep r lo (Some 0) lz) st st' → st' = st ∧ lo = 0.
Proof. inversion 1; subst; [done|discriminate]. Qed.

Lemma consumed_steps st w st' : steps st w st' → consumed st st' = w.
Proof.
  intros [H _]. unfold consumed. rewrite H, length_app.
  replace (length w + length (rest st') - length (rest st')) with (length w)
    by lia.
  by rewrite take_app_length.
Qed.

(** ** Characters *)

Lemma in_class_one_line a :
  in_class true (CNotIn [CR; LF]) a = true ↔ a ≠ CR ∧ a ≠ LF.
Proof.
  ascii_cases a; vm_compute; split; try done;
    try (intros [H1 H2]; exfalso; by (apply H1 || apply H2));
    intros _; split; discriminate.
Qed.

Lemma chr_eq_dot a : chr_eq true "." a = true ↔ a = "."%char.
Proof. ascii_cases a; vm_compute; split; done. Qed.

Lemma chr_eq_underscore a : chr_eq true "_" a = true ↔ a = "_"%char.
Proof. ascii_cases a; vm_compute; split; done. Qed.

Lemma chr_eq_CR a : chr_eq true CR a = true ↔ a = CR.
Proof. ascii_cases a; vm_compute; split; done. Qed.

Lemma chr_eq_LF a : chr_eq true LF a = true ↔ a = LF.
Proof. ascii_cases a; vm_compute; split; done. Qed.

Lemma isdigit_isword a : isdigit a = true → isword a = true.
Proof. ascii_cases a; vm_compute; done. Qed.

Lemma isspace_not_isword a : isspace a = true → isword a = false.
Proof. ascii_cases a; vm_compute; done. Qed.

Lemma isword_lower_char a : isword (lower_char a) = isword a.
Proof. ascii_cases a; reflexivity. Qed.

Lemma chr_eq_isword c a : chr_eq true c a = true → isword a = isword c.
Proof.
  intros H%Ascii.eqb_eq.
  by rewrite <- (isword_lower_char a), <- H, isword_lower_char.
Qed.

Lemma Forall_one_line (w : text) :
  Forall (fun a => in_class true (CNotIn [CR; LF]) a = true) w ↔ one_line w.
Proof. unfold one_line. apply Forall_iff. intros a. apply in_class_one_line. Qed.

(** ** Where a source name stops *)

Lemma two_spaces_run (w s : text) :
  Forall (fun a => isspace a = true) w → 2 ≤ length w → two_spaces (w ++ s).
Proof.
  intros Hall Hlen. destruct w as [|a [|b w]]; cbn in Hlen; try lia.
  apply Forall_cons in Hall as [Ha Hall]. apply Forall_cons in Hall as [Hb _].
  by exists a, b, (w ++ s).
Qed.

Lemma same_word_Test (t : text) :
  same_word "Test" t →
  ∃ a b c d, t = [a; b; c; d] ∧ isword a = true ∧ isword d = true.
Proof.
  intros H%same_word_Forall2.
  inversion H as [|c1 a t1 w1 Ha H1]; subst.
  inversion H1 as [|c2 b t2 w2 Hb H2]; subst.
  inversion H2 as [|c3 c t3 w3 Hc H3]; subst.
  inversion H3 as [|c4 d t4 w4 Hd H4]; subst.
  inversion H4; subst.
  exists a, b, c, d. split_and!; [done| |].
  - by rewrite (chr_eq_isword _ _ Ha).
  - by rewrite (chr_eq_isword _ _ Hd).
Qed.

Lemma src_stop_inv st st' :
  matches true src_stop st st' → src_stops (seen st) (rest st).
Proof.
  unfold src_stop. intros [H|[H|H]%matches_alt_inv]%matches_alt_inv.
  - apply matches_rep_cls_inv in H as (w & [Hw _] & Hall & Hlen & _).
    left. rewrite Hw. by apply two_spaces_run.
  - apply matches_seq_inv in H as (st1 & [-> Hb1]%matches_bound_inv & H).
    apply matches_seq_inv in H as (st2 & Hlit & [Heq Hb2]%matches_bound_inv).
    subst st'.
    apply matches_lit_inv in Hlit as (t & [Ht Hst] & Hsame).
    apply same_word_Forall2 in Hsame.
    destruct (same_word_Test t Hsame) as (a & b & c & d & -> & Ha & Hd).
    right; left. exists [a; b; c; d], (rest st2).
    split_and!; [done|done| |].
    + unfold at_boundary in Hb1. rewrite Ht in Hb1. cbn in Hb1.
      rewrite Ha in Hb1. by destruct (word_at (seen st)).
    + unfold at_boundary in Hb2. rewrite Hst in Hb2. cbn in Hb2.
      rewrite Hd in Hb2. by destruct (word_at (head (rest st2))).
  - apply matches_eos_inv in H as [-> H]. unfold at_eos in H.
    destruct (rest st) as [|c [|? ?]]; [by right; right; left| |done].
    apply Ascii.eqb_eq in H as ->. by right; right; right.
Qed.

Lemma src_stop_intro sn s g :
  src_stops sn s → ∃ st', matches true src_stop (MState sn s g) st'.
Proof.
  unfold src_stop.
  intros [(a & b & post & -> & Ha & Hb)
         |[(t & post & -> & Hsame & Hprev & Hnext)|[->| ->]]].
  - exists (MState (Some b) post g). apply M_alt_l.
    apply (matches_rep_cls_intro true CSpace false [a; b]); cbn; try done.
    by repeat constructor.
  - exists (MState (last_seen sn t) post g). apply M_alt_r, M_alt_l.
    destruct (same_word_Test t Hsame) as (a & b & c & d & -> & Ha & Hd).
    apply (M_seq _ _ _ _ (MState sn ([a; b; c; d] ++ post) g)).
    { constructor. unfold at_boundary. cbn. by rewrite Hprev, Ha. }
    apply (M_seq _ _ _ _ (MState (last_seen sn [a; b; c; d]) post g)).
    { apply matches_lit_intro. by apply same_word_Forall2. }
    constructor. unfold at_boundary. cbn. by rewrite Hd, Hnext.
  - exists (MState sn [] g). apply M_alt_r, M_alt_r. by constructor.
  - exists (MState sn [LF] g). apply M_alt_r, M_alt_r. by constructor.
Qed.

(** The stop of the source pattern succeeds exactly where a source name
    stops. *)
Lemma src_stop_hits st :
  is_Some (rmatch true src_stop st Some) ↔ src_stops (seen st) (rest st).
Proof.
  split.
  - intros [res (st' & H & _)%rmatch_sound]. by apply src_stop_inv in H.
  - intros H. destruct st as [sn s g].
    destruct (src_stop_intro sn s g H) as [st' Hm].
    by apply (rmatch_complete true src_stop _ st' Hm Some).
Qed.

(** ** Where a target name stops *)

Lemma tgt_stop_inv st st' :
  matches true tgt_stop st st' → st' = st ∧ tgt_stops (rest st).
Proof.
  unfold tgt_stop. intros [-> [st1 H]]%matches_ahead_inv. split; [done|].
  apply matches_alt_inv in H as [H|[H|[H|H]%matches_alt_inv]%matches_alt_inv].
  - apply matches_rep_cls_inv in H as (w & [Hw _] & Hall & Hlen & _).
    left. rewrite Hw. by apply two_spaces_run.
  - apply matches_chr_inv in H as (a & ->%chr_eq_CR & [Hw _]).
    right; left. by rewrite Hw.
  - apply matches_chr_inv in H as (a & ->%chr_eq_LF & [Hw _]).
    right; right; left. by rewrite Hw.
  - apply matches_eos_inv in H as [-> H]. unfold at_eos in H.
    destruct (rest st) as [|c [|? ?]]; [by right; right; right| |done].
    apply Ascii.eqb_eq in H as ->. by right; right; left.
Qed.

Lemma tgt_stop_intro sn s g :
  tgt_stops s → matches true tgt_stop (MState sn s g) (MState sn s g).
Proof.
  unfold tgt_stop.
  intros [(a & b & post & -> & Ha & Hb)|[H|[H| ->]]].
  - apply (M_ahead _ _ _ (MState (Some b) post g)). apply M_alt_l.
    apply (matches_rep_cls_intro true CSpace false [a; b]); cbn; try done.
    by repeat constructor.
  - destruct s as [|c s]; [done|]. injection H as ->.
    apply (M_ahead _ _ _ (MState (Some CR) s g)). apply M_alt_r, M_alt_l.
    by constructor.
  - destruct s as [|c s]; [done|]. injection H as ->.
    apply (M_ahead _ _ _ (MState (Some LF) s g)).
    apply M_alt_r, M_alt_r, M_alt_l. by constructor.
  - apply (M_ahead _ _ _ (MState sn [] g)).
    apply M_alt_r, M_alt_r, M_alt_r. by constructor.
Qed.

Lemma tgt_stop_hits st :
  is_Some (rmatch true tgt_stop st Some) ↔ tgt_stops (rest st).
Proof.
  split.
  - intros [res (st' & H & _)%rmatch_sound].
    by apply tgt_stop_inv in H as [_ H].
  - intros H. destruct st as [sn s g].
    by apply (rmatch_complete true tgt_stop _ _ (tgt_stop_intro sn s g H) Some).
Qed.

(** ** Taking a text *)

Lemma takes_eps ic : takes ic Eps [].
Proof. intros sn s g. constructor. Qed.

Lemma takes_seq ic r1 r2 w1 w2 :
  takes ic r1 w1 → takes ic r2 w2 → takes ic (Seq r1 r2) (w1 ++ w2).
Proof.
  intros H1 H2 sn s g. rewrite <- app_assoc, last_seen_app.
  apply (M_seq _ _ _ _ (MState (last_seen sn w1) (w2 ++ s) g)).
  - apply H1.
  - apply H2.
Qed.

Lemma takes_chr ic c a : chr_eq ic c a = true → takes ic (Chr c) [a].
Proof. intros H sn s g. by constructor. Qed.

Lemma takes_rep_cls ic k lo hi lz (w : text) :
  Forall (fun a => in_class ic k a = true) w →
  lo ≤ length w → (∀ h, hi = Some h → length w ≤ h) →
  takes ic (Rep (Cls k) lo hi lz) w.
Proof. intros Hall Hlo Hhi sn s g. by apply matches_rep_cls_intro. Qed.

Lemma takes_word (word : string) (w : text) :
  same_word word w → takes true (Str word) w.
Proof.
  intros H sn s g. apply matches_lit_intro. by apply same_word_Forall2.
Qed.

Lemma takes_rep_stop ic r hi lz : takes ic (Rep r 0 hi lz) [].
Proof. intros sn s g. constructor. Qed.

Lemma takes_rep_more ic r lo hi lz w1 w2 :
  more_allowed hi = true → w1 ≠ [] →
  takes ic r w1 → takes ic (Rep r (pred lo) (pred <$> hi) lz) w2 →
  takes ic (Rep r lo hi lz) (w1 ++ w2).
Proof.
  intros Hmore Hne H1 H2 sn s g. rewrite <- app_assoc, last_seen_app.
  apply (M_rep_more _ _ _ _ _ _ (MState (last_seen sn w1) (w2 ++ s) g)).
  - done.
  - apply H1.
  - cbn [rest]. rewrite !length_app. destruct w1; [done|]. cbn. lia.
  - apply H2.
Qed.

Lemma steps_app3 st1 w1 st2 w2 st3 w :
  steps st1 w1 st2 → steps st2 w2 st3 → w = w1 ++ w2 → steps st1 w st3.
Proof. intros H1 H2 ->. by apply (steps_app st1 w1 st2). Qed.

(** ** The lead of the source pattern *)

Lemma digits_run (w : text) :
  Forall (fun a => in_class true CDigit a = true) w → 1 ≤ length w → digits w.
Proof. intros Hall Hlen. split; [|done]. destruct w; [cbn in Hlen; lia|done]. Qed.

Lemma digits_length (w : text) : digits w → 1 ≤ length w.
Proof. intros [Hne _]. destruct w; [done|cbn; lia]. Qed.

Lemma fraction_inv st st' :
  matches true (Rep (Seq (Chr ".") (plus CDigit)) 0 (Some 1) false) st st' →
  ∃ b, steps st b st' ∧ (b = [] ∨ ∃ d, b = "."%char :: d ∧ digits d).
Proof.
  inversion 1 as [| | | | | |r hi lz st0
                 |r lo hi lz st0 st1 st2 _ Hbody _ Htail| | | |]; subst.
  - exists []. split; [apply steps_nil|by left].
  - cbn in Htail. apply matches_rep_zero_inv in Htail as [-> _].
    apply matches_seq_inv in Hbody as (stA & Hdot & Hd).
    apply matches_chr_inv in Hdot as (a & ->%chr_eq_dot & Hs1).
    apply matches_rep_cls_inv in Hd as (d & Hs2 & Hall & Hlen & _).
    exists ("."%char :: d). split.
    + by apply (steps_app3 _ ["."%char] stA d).
    + right. exists d. split; [done|]. by apply digits_run.
Qed.

Lemma fraction_takes (b : text) :
  (b = [] ∨ ∃ d, b = "."%char :: d ∧ digits d) →
  takes true (Rep (Seq (Chr ".") (plus CDigit)) 0 (Some 1) false) b.
Proof.
  intros [->|(d & -> & Hd)].
  - apply takes_rep_stop.
  - rewrite <- (app_nil_r (_ :: d)). apply takes_rep_more; [done|done| |].
    + apply (takes_seq true _ _ ["."%char] d).
      * by apply takes_chr.
      * apply takes_rep_cls; [apply Hd|by apply digits_length|done].
    + apply takes_rep_stop.
Qed.

Lemma src_prefix_inv st st1 :
  matches true src_prefix st st1 →
  ∃ lead, steps st lead st1 ∧ src_lead lead ∧ word_at (seen st) = false.
Proof.
  unfold src_prefix, plus, star. intros H.
  apply matches_seq_inv in H as (s0 & [-> Hb]%matches_bound_inv & H).
  apply matches_seq_inv in H as (sA & Ha & H).
  apply matches_rep_cls_inv in Ha as (a & Hsa & Halla & Hlena & _).
  apply matches_seq_inv in H as (sB & Hfrac & H).
  apply fraction_inv in Hfrac as (b & Hsb & Hb').
  apply matches_seq_inv in H as (sC & Hw1 & H).
  apply matches_rep_cls_inv in Hw1 as (ws1 & Hsw1 & Hallw1 & _).
  apply matches_seq_inv in H as (sD & Hu1 & H).
  apply matches_chr_inv in Hu1 as (u1 & ->%chr_eq_underscore & Hsu1).
  apply matches_seq_inv in H as (sE & Hu2 & Hw2).
  apply matches_chr_inv in Hu2 as (u2 & ->%chr_eq_underscore & Hsu2).
  apply matches_rep_cls_inv in Hw2 as (ws2 & Hsw2 & Hallw2 & _).
  exists ((a ++ b) ++ ws1 ++ txt "__" ++ ws2). split_and!.
  - eapply steps_app3; [eapply steps_app; [exact Hsa|exact Hsb]| |done].
    eapply steps_app3; [exact Hsw1| |done].
    eapply steps_app3; [|exact Hsw2|done].
    eapply steps_app3; [exact Hsu1|exact Hsu2|done].
  - exists (a ++ b), ws1, ws2. split_and!; try done.
    exists a, b. split_and!; [done|by apply digits_run|done].
  - unfold at_boundary in Hb. destruct Hsa as [Hr _]. rewrite Hr in Hb.
    destruct a as [|a0 a]; [cbn in Hlena; lia|]. cbn in Hb.
    apply Forall_cons in Halla as [Ha0 _]. cbn in Ha0.
    rewrite (isdigit_isword _ Ha0) in Hb. by destruct (word_at (seen st)).
Qed.

Lemma src_prefix_intro sn lead s g :
  src_lead lead → word_at sn = false →
  matches true src_prefix (MState sn (lead ++ s) g)
    (MState (last_seen sn lead) s g).
Proof.
  intros (num & ws1 & ws2 & -> & (a & b & -> & Ha & Hb) & Hw1 & Hw2) Hsn.
  unfold src_prefix.
  apply (M_seq _ _ _ _ (MState sn (((a ++ b) ++ ws1 ++ txt "__" ++ ws2) ++ s) g)).
  { constructor. unfold at_boundary. cbn [seen rest]. rewrite Hsn.
    destruct Ha as [Hne Hall]. destruct a as [|a0 a]; [done|]. cbn.
    apply Forall_cons in Hall as [Ha0 _]. by rewrite (isdigit_isword _ Ha0). }
  clear Hsn. revert sn s g. change (takes true
    (Seq (plus CDigit)
       (Seq (Rep (Seq (Chr ".") (plus CDigit)) 0 (Some 1) false)
          (Seq (star CSpace)
             (Seq (Chr "_") (Seq (Chr "_") (star CSpace))))))
    ((a ++ b) ++ ws1 ++ txt "__" ++ ws2)).
  rewrite <- app_assoc.
  apply takes_seq.
  { apply takes_rep_cls; [apply Ha|by apply digits_length|done]. }
  apply takes_seq; [by apply fraction_takes|].
  apply takes_seq; [by apply takes_rep_cls; [|lia|]|].
  apply (takes_seq true _ _ ["_"%char] ("_"%char :: ws2)); [by apply takes_chr|].
  apply (takes_seq true _ _ ["_"%char] ws2); [by apply takes_chr|].
  by apply takes_rep_cls; [|lia|].
Qed.

(** ** The lead of the target pattern *)

Lemma id_group_run (d : text) :
  Forall (fun a => in_class true CDigit a = true) d →
  1 ≤ length d → (∀ h, Some 3 = Some h → length d ≤ h) → id_group d.
Proof.
  intros Hall Hlo Hhi. split; [by apply digits_run|]. by apply Hhi.
Qed.

Lemma id_group_takes (d : text) :
  id_group d → takes true (Rep (Cls CDigit) 1 (Some 3) false) d.
Proof.
  intros [Hd Hlen]. apply takes_rep_cls.
  - apply Hd.
  - by apply digits_length.
  - by intros h [= <-].
Qed.

Lemma dot_groups_inv lo hi lz st st' :
  matches true (Rep dot_group lo hi lz) st st' →
  ∃ ds, steps st (concat ((fun x => "."%char :: x) <$> ds)) st' ∧
        Forall id_group ds ∧ lo ≤ length ds ∧
        (∀ h, hi = Some h → length ds ≤ h).
Proof.
  intros H. remember (Rep dot_group lo hi lz) as r eqn:Er.
  revert lo hi Er.
  induction H as [| | | | | |r0 hi0 lz0 st
                 |r0 lo0 hi0 lz0 st st1 st2 Hmore Hbody _ Hlen _ IH| | | |];
    intros lo hi Er; try discriminate; inversion Er; subst; clear Er.
  - exists []. split_and!; [apply steps_nil|constructor|done|cbn; lia].
  - unfold dot_group in Hbody.
    apply matches_seq_inv in Hbody as (stA & Hdot & Hd).
    apply matches_chr_inv in Hdot as (a & ->%chr_eq_dot & Hs1).
    apply matches_rep_cls_inv in Hd as (d & Hs2 & Hall & Hlo & Hhi).
    destruct (IH _ _ eq_refl) as (ds & Hds & Hallds & Hlods & Hhids).
    exists (d :: ds). split_and!.
    + cbn [fmap list_fmap concat].
      eapply steps_app3; [|exact Hds|done].
      by apply (steps_app3 _ ["."%char] stA d).
    + constructor; [by apply id_group_run|done].
    + cbn. lia.
    + intros h ->. destruct h as [|h]; [done|]. cbn.
      specialize (Hhids h eq_refl). lia.
Qed.

Lemma dot_groups_takes lz (ds : list text) :
  Forall id_group ds →
  ∀ lo hi, lo ≤ length ds → (∀ h, hi = Some h → length ds ≤ h) →
    takes true (Rep dot_group lo hi lz)
      (concat ((fun x => "."%char :: x) <$> ds)).
Proof.
  induction 1 as [|d ds Hd _ IH]; intros lo hi Hlo Hhi.
  - cbn in Hlo. assert (lo = 0) as -> by lia. apply takes_rep_stop.
  - cbn [fmap list_fmap concat]. apply takes_rep_more.
    + destruct hi as [[|h]|]; [|done|done].
      specialize (Hhi 0 eq_refl). cbn in Hhi. lia.
    + done.
    + apply (takes_seq true _ _ ["."%char] d); [by apply takes_chr|].
      by apply id_group_takes.
    + apply IH.
      * cbn in Hlo. lia.
      * intros h Hh. destruct hi as [[|h']|]; cbn in Hh; [| |done].
        -- specialize (Hhi 0 eq_refl). cbn in Hhi. lia.
        -- injection Hh as <-. specialize (Hhi (S h') eq_refl).
           cbn in Hhi. lia.
Qed.

Lemma dotted_id_inv st st' :
  matches true dotted_id st st' → ∃ id, steps st id st' ∧ dotted id.
Proof.
  unfold dotted_id. intros (stA & Hd & Hds)%matches_seq_inv.
  apply matches_rep_cls_inv in Hd as (d & Hs1 & Hall & Hlo & Hhi).
  apply dot_groups_inv in Hds as (ds & Hs2 & Hallds & Hlods & Hhids).
  exists (d ++ concat ((fun x => "."%char :: x) <$> ds)). split.
  - by apply (steps_app _ d stA).
  - exists d, ds. split_and!; [done|by apply id_group_run|done|done|].
    by apply Hhids.
Qed.

Lemma dotted_id_takes (id : text) : dotted id → takes true dotted_id id.
Proof.
  intros (d & ds & -> & Hd & Hds & Hlo & Hhi). unfold dotted_id.
  apply takes_seq; [by apply id_group_takes|].
  apply dot_groups_takes; [done|done|]. by intros h [= <-].
Qed.

Lemma tgt_prefix_inv st st1 :
  matches true tgt_prefix st st1 →
  ∃ lead id, rest st = lead ++ rest st1 ∧ tgt_lead lead id ∧
    st1 = MState (last_seen (seen st) lead) (rest st1)
            (<[1 := id]> (groups st)).
Proof.
  unfold tgt_prefix, plus, star. intros H.
  apply matches_seq_inv in H as (sA & Hdev & H).
  apply matches_lit_inv in Hdev as (dev & Hsdev & Hdev%same_word_Forall2).
  apply matches_seq_inv in H as (sB & Hw0 & H).
  apply matches_rep_cls_inv in Hw0 as (ws0 & Hsw0 & Hallw0 & _).
  apply matches_seq_inv in H as (sC & Htst & H).
  apply matches_lit_inv in Htst as (tst & Hstst & Htst%same_word_Forall2).
  apply matches_seq_inv in H as (sD & Hw1 & H).
  apply matches_rep_cls_inv in Hw1 as (ws1 & Hsw1 & Hallw1 & _).
  apply matches_seq_inv in H as (sF & Hgrp & Hw2).
  apply matches_grp_inv in Hgrp as (sE & Hid & ->).
  apply dotted_id_inv in Hid as (id & Hsid & Hdotted).
  apply matches_rep_cls_inv in Hw2 as (ws2 & Hsw2 & Hallw2 & Hlen2 & _).
  unfold set_group in Hsw2. rewrite (consumed_steps _ _ _ Hsid) in Hsw2.
  assert (steps st (dev ++ ws0 ++ tst ++ ws1 ++ id) sE) as [Hr HsE].
  { eapply steps_app3; [exact Hsdev| |done].
    eapply steps_app3; [exact Hsw0| |done].
    eapply steps_app3; [exact Hstst| |done].
    eapply steps_app3; [exact Hsw1|exact Hsid|done]. }
  destruct Hsw2 as [Hr2 Hst1]. cbn [set_group seen rest groups] in Hr2, Hst1.
  exists ((dev ++ ws0 ++ tst ++ ws1 ++ id) ++ ws2), id. split_and!.
  - rewrite Hr, Hr2. apply app_assoc.
  - exists dev, ws0, tst, ws1, ws2. split_and!; try done.
    + by rewrite <- !app_assoc.
    + destruct ws2; [cbn in Hlen2; lia|done].
  - rewrite Hst1, last_seen_app. rewrite HsE. done.
Qed.

Lemma tgt_prefix_intro sn lead id s g :
  tgt_lead lead id →
  matches true tgt_prefix (MState sn (lead ++ s) g)
    (MState (last_seen sn lead) s (<[1 := id]> g)).
Proof.
  intros (dev & ws0 & tst & ws1 & ws2 & -> & Hdev & Hw0 & Htst & Hw1 &
          Hid & Hw2 & Hne).
  unfold tgt_prefix.
  replace (dev ++ ws0 ++ tst ++ ws1 ++ id ++ ws2)
    with ((dev ++ ws0 ++ tst ++ ws1) ++ id ++ ws2) by by rewrite <- !app_assoc.
  rewrite <- !app_assoc. rewrite !last_seen_app.
  set (s1 := last_seen sn dev). set (s2 := last_seen s1 ws0).
  set (s3 := last_seen s2 tst). set (s4 := last_seen s3 ws1).
  set (s5 := last_seen s4 id).
  apply (M_seq _ _ _ _ (MState s1 (ws0 ++ tst ++ ws1 ++ id ++ ws2 ++ s) g)).
  { by apply takes_word. }
  apply (M_seq _ _ _ _ (MState s2 (tst ++ ws1 ++ id ++ ws2 ++ s) g)).
  { by apply takes_rep_cls; [|lia|]. }
  apply (M_seq _ _ _ _ (MState s3 (ws1 ++ id ++ ws2 ++ s) g)).
  { by apply takes_word. }
  apply (M_seq _ _ _ _ (MState s4 (id ++ ws2 ++ s) g)).
  { by apply takes_rep_cls; [|lia|]. }
  apply (M_seq _ _ _ _ (MState s5 (ws2 ++ s) (<[1 := id]> g))).
  { pose proof (M_grp true 1 dotted_id (MState s4 (id ++ ws2 ++ s) g)
                  (MState s5 (ws2 ++ s) g)
                  (dotted_id_takes id Hid s4 (ws2 ++ s) g)) as Hg.
    unfold set_group in Hg. cbn [seen rest groups] in Hg.
    rewrite (consumed_steps _ id) in Hg; [exact Hg|]. apply steps_intro. }
  apply takes_rep_cls; [done| |done].
  destruct ws2; [done|cbn; lia].
Qed.

(** * Searching *)

(** Whatever the pattern, a match moves the position forward over a
    piece of the text. *)
Lemma matches_span ic r st st' :
  matches ic r st st' →
  ∃ w, rest st = w ++ rest st' ∧ seen st' = last_seen (seen st) w.
Proof.
  induction 1 as [st|c sn a s g Hc|cl sn a s g Hc
                 |r1 r2 st1 st2 st3 _ IH1 _ IH2
                 |r1 r2 st st' _ IH|r1 r2 st st' _ IH
                 |r hi lz st|r lo hi lz st st1 st2 _ _ IH1 _ _ IH2
                 |n r st st' _ IH|r st st' _ IH|st Hb|st He];
    try (by exists []); try (by exists [a]); try done.
  - destruct IH1 as (w1 & H1 & Hs1), IH2 as (w2 & H2 & Hs2).
    exists (w1 ++ w2). split.
    + by rewrite H1, H2, app_assoc.
    + by rewrite Hs2, Hs1, last_seen_app.
  - destruct IH1 as (w1 & H1 & Hs1), IH2 as (w2 & H2 & Hs2).
    exists (w1 ++ w2). split.
    + by rewrite H1, H2, app_assoc.
    + by rewrite Hs2, Hs1, last_seen_app.
Qed.

Lemma rmatch_span ic r sn s g st' :
  rmatch ic r (MState sn s g) Some = Some st' →
  ∃ w, s = w ++ rest st' ∧ seen st' = last_seen sn w.
Proof.
  intros (st1 & H & [= ->])%rmatch_sound. by apply matches_span in H.
Qed.

Lemma match_here_Some ic r pos sn s m st' :
  match_here ic r pos sn s = Some (m, st') ↔
  rmatch ic r (MState sn s ∅) Some = Some st' ∧
  m = MatchObj pos (pos + (length s - length (rest st'))) (groups st').
Proof.
  unfold match_here. destruct (rmatch _ _ _ _) as [st1|].
  - split; [by intros [= <- <-]|by intros [[= ->] ->]].
  - split; [done|by intros [? _]].
Qed.

Lemma match_here_None ic r pos sn s :
  match_here ic r pos sn s = None ↔
  rmatch ic r (MState sn s ∅) Some = None.
Proof. unfold match_here. by destruct (rmatch _ _ _ _). Qed.

(** [search] returns the match at the first position, from the left,
    where an attempt succeeds. *)
Lemma search_from_Some ic r pos sn s m st' :
  search_from ic r pos sn s = Some (m, st') →
  ∃ pre suf, s = pre ++ suf ∧
    match_here ic r (pos + length pre) (last_seen sn pre) suf = Some (m, st') ∧
    ∀ pre1 pre2, pre = pre1 ++ pre2 → pre2 ≠ [] →
      match_here ic r (pos + length pre1) (last_seen sn pre1) (pre2 ++ suf)
      = None.
Proof.
  revert pos sn. induction s as [|c s IH]; intros pos sn; cbn [search_from].
  - destruct (match_here ic r pos sn []) as [res|] eqn:E; [|done].
    intros [= ->]. exists [], []. split_and!; [done| |].
    + cbn. by rewrite Nat.add_0_r.
    + intros pre1 pre2 Hp Hne. by destruct pre1, pre2.
  - destruct (match_here ic r pos sn (c :: s)) as [res|] eqn:E.
    + intros [= ->]. exists [], (c :: s). split_and!; [done| |].
      * cbn. by rewrite Nat.add_0_r.
      * intros pre1 pre2 Hp Hne. by destruct pre1, pre2.
    + intros (pre & suf & -> & Hm & Hfirst)%IH.
      exists (c :: pre), suf. split_and!; [done| |].
      * rewrite last_seen_cons. cbn [length].
        by replace (pos + S (length pre)) with (S pos + length pre) by lia.
      * intros pre1 pre2 Hp Hne. destruct pre1 as [|c' pre1].
        -- cbn in Hp. subst pre2. cbn. by rewrite Nat.add_0_r.
        -- cbn in Hp. injection Hp as <- ->. rewrite last_seen_cons.
           cbn [length].
           replace (pos + S (length pre1)) with (S pos + length pre1) by lia.
           by apply Hfirst.
Qed.

Lemma search_from_None ic r pos sn s :
  search_from ic r pos sn s = None →
  ∀ pre suf, s = pre ++ suf →
    match_here ic r (pos + length pre) (last_seen sn pre) suf = None.
Proof.
  revert pos sn. induction s as [|c s IH]; intros pos sn; cbn [search_from].
  - destruct (match_here ic r pos sn []) as [res|] eqn:E; [done|].
    intros _ pre suf Hs. destruct pre, suf; try done.
    cbn. by rewrite Nat.add_0_r.
  - destruct (match_here ic r pos sn (c :: s)) as [res|] eqn:E; [done|].
    intros Hn pre suf Hs. destruct pre as [|c' pre].
    + cbn in Hs. subst suf. cbn. by rewrite Nat.add_0_r.
    + cbn in Hs. injection Hs as <- ->. rewrite last_seen_cons. cbn [length].
      replace (pos + S (length pre)) with (S pos + length pre) by lia.
      by apply (IH _ _ Hn).
Qed.

(** A lazy repeat of a class stops at the first place where the
    continuation succeeds. *)
Lemma rep_lazy_first (p : ascii → bool) fuel st k res :
  length (rest st) < fuel →
  rep_loop (step_char p) fuel 0 None true st k = Some res →
  ∃ w st', steps st w st' ∧ Forall (fun a => p a = true) w ∧
    k st' = Some res ∧
    ∀ w1 w2 st1, w = w1 ++ w2 → w2 ≠ [] → steps st w1 st1 → k st1 = None.
Proof.
  revert st. induction fuel as [|fuel IH]; intros st Hf; [lia|].
  rewrite rep_loop_unfold. cbv zeta. cbn [more_allowed pred fmap option_fmap option_map].
  destruct (k st) as [r0|] eqn:Hk.
  - intros [= ->]. exists [], st. split_and!; [apply steps_nil|constructor|done|].
    intros w1 w2 st1 Hw Hne. by destruct w1, w2.
  - unfold step_char. destruct st as [sn [|a s] g]; cbn [rest]; [done|].
    destruct (p a) eqn:Hp; [|done]. cbn [rest length].
    replace (length s <? S (length s)) with true
      by (symmetry; apply Nat.ltb_lt; lia).
    intros H. apply IH in H as (w & st' & Hw & Hall & Hres & Hfirst);
      [|cbn in Hf |- *; lia].
    exists (a :: w), st'. split_and!.
    + by apply (steps_app3 _ [a] (MState (Some a) s g) w);
        [apply steps_one| |].
    + by constructor.
    + done.
    + intros w1 w2 st1 Hsplit Hne Hst1. destruct w1 as [|a' w1].
      * by apply (steps_state sn [] (a :: s) g) in Hst1 as ->.
      * cbn in Hsplit. injection Hsplit as <- ->.
        apply (Hfirst w1 w2); [done|done|].
        destruct Hst1 as [Hr Hst1]. cbn in Hr. injection Hr as Hr.
        split; [done|]. rewrite Hst1. cbn. by rewrite last_seen_cons.
Qed.

(** The captured name and what follows it: a capture by [name_body]
    stops at the first place where the rest of the pattern succeeds. *)
Lemma name_capture_first n T st res :
  rmatch true (Seq (Grp n name_body) T) st Some = Some res →
  ∃ g st2, steps st g st2 ∧ one_line g ∧
    rmatch true T (set_group n st st2) Some = Some res ∧
    ∀ g1 g2 st1, g = g1 ++ g2 → g2 ≠ [] → steps st g1 st1 →
      rmatch true T (set_group n st st1) Some = None.
Proof.
  cbn [rmatch name_body]. intros H.
  apply rep_lazy_first in H as (g & st2 & Hg & Hall & Hres & Hfirst); [|lia].
  exists g, st2. split_and!; [done|by apply Forall_one_line|done|done].
Qed.

(** * The two patterns as a whole *)

Lemma matches_groups ic r st st' :
  matches ic r st st' → group_free r = true → groups st' = groups st.
Proof.
  induction 1 as [st|c sn a s g Hc|cl sn a s g Hc
                 |r1 r2 st1 st2 st3 _ IH1 _ IH2
                 |r1 r2 st st' _ IH|r1 r2 st st' _ IH
                 |r hi lz st|r lo hi lz st st1 st2 _ _ IH1 _ _ IH2
                 |n r st st' _ IH|r st st' _ IH|st Hb|st He];
    cbn [group_free]; try done.
  - intros [H1 H2]%andb_true_iff. by rewrite IH2, IH1.
  - intros [H1 H2]%andb_true_iff. by apply IH.
  - intros [H1 H2]%andb_true_iff. by apply IH.
  - intros Hg. by rewrite IH2, IH1.
Qed.

Lemma last_seen_nonempty sn (w : text) : w ≠ [] → last_seen sn w = last w.
Proof.
  intros Hne. unfold last_seen. destruct (last w) eqn:E; [done|].
  by apply last_None in E.
Qed.

Lemma src_lead_nonempty (lead : text) : src_lead lead → lead ≠ [].
Proof.
  intros (num & ws1 & ws2 & -> & (a & b & -> & [Ha _] & _) & _).
  by destruct a.
Qed.

Lemma tgt_lead_nonempty (lead id : text) : tgt_lead lead id → lead ≠ [].
Proof.
  intros (dev & ws0 & tst & ws1 & ws2 & -> & Hdev & _).
  unfold same_word in Hdev. by destruct dev.
Qed.

(** A success of the source pattern at a position is an occurrence that
    starts there, with the shortest name, which is group 1. *)
Lemma src_match_sound sn (s : text) res :
  rmatch true SRC_NAME_RE (MState sn s ∅) Some = Some res →
  ∃ lead g post, s = lead ++ g ++ post ∧
    word_at sn = false ∧ src_lead lead ∧ one_line g ∧
    src_stops (last (lead ++ g)) post ∧ src_shortest lead g post ∧
    groups res !! 1 = Some g.
Proof.
  intros H.
  change (rmatch true src_prefix (MState sn s ∅)
            (fun st1 => rmatch true (Seq (Grp 1 name_body) src_stop) st1 Some)
          = Some res) in H.
  apply rmatch_sound in H as (st1 & Hpre & H).
  apply src_prefix_inv in Hpre as (lead & [Hr1 Hst1] & Hlead & Hsn).
  cbn [seen rest groups] in Hr1, Hst1, Hsn.
  apply name_capture_first in H as (g & st2 & [Hr2 Hst2] & Hg & H & Hfirst).
  apply rmatch_sound in H as (st3 & Hstop & [= ->]).
  pose proof (matches_groups _ _ _ _ Hstop eq_refl) as Hgroups.
  apply src_stop_inv in Hstop. cbn [set_group seen rest] in Hstop.
  assert (lead ≠ []) as Hne by by apply src_lead_nonempty.
  assert (∀ w, last_seen (seen st1) w = last (lead ++ w)) as Hlast.
  { intros w. rewrite Hst1. cbn [seen]. rewrite <- last_seen_app.
    apply last_seen_nonempty. by destruct lead. }
  exists lead, g, (rest st2). split_and!; try done.
  - by rewrite Hr1, Hr2.
  - rewrite <- Hlast. rewrite Hst2 in Hstop. exact Hstop.
  - intros g1 g2 Hsplit Hne2 Hstops.
    assert (steps st1 g1 (MState (last_seen (seen st1) g1) (g2 ++ rest st2)
                            (groups st1))) as Hsteps.
    { split; [|done]. cbn. by rewrite Hr2, Hsplit, <- app_assoc. }
    pose proof (Hfirst g1 g2 _ Hsplit Hne2 Hsteps) as Hnone.
    assert (is_Some (rmatch true src_stop
              (set_group 1 st1
                 (MState (last_seen (seen st1) g1) (g2 ++ rest st2)
                    (groups st1))) Some)) as [x Hx].
    { apply src_stop_hits. cbn. by rewrite Hlast. }
    by rewrite Hx in Hnone.
  - rewrite Hgroups. cbn [set_group groups].
    rewrite (consumed_steps st1 g st2) by done. apply lookup_insert_eq.
Qed.

(** At an occurrence of the source pattern the matcher succeeds. *)
Lemma src_match_complete sn (lead g post : text) :
  word_at sn = false → src_lead lead → one_line g →
  src_stops (last (lead ++ g)) post →
  is_Some (rmatch true SRC_NAME_RE (MState sn (lead ++ g ++ post) ∅) Some).
Proof.
  intros Hsn Hlead Hg Hstop.
  assert (lead ≠ []) as Hne by by apply src_lead_nonempty.
  set (st1 := MState (last_seen sn lead) (g ++ post) ∅).
  set (st2 := MState (last_seen (last_seen sn lead) g) post ∅).
  assert (last_seen (last_seen sn lead) g = last (lead ++ g)) as Hlast.
  { rewrite <- last_seen_app. apply last_seen_nonempty. by destruct lead. }
  destruct (src_stop_intro (last (lead ++ g)) post (<[1 := g]> ∅) Hstop)
    as [st3 Hst3].
  apply (rmatch_complete true SRC_NAME_RE _ st3); [|by eexists].
  unfold SRC_NAME_RE.
  apply (M_seq _ _ _ _ st1); [by apply src_prefix_intro|].
  apply (M_seq _ _ _ _ (set_group 1 st1 st2)).
  - constructor. apply matches_rep_cls_intro; [by apply Forall_one_line|lia|done].
  - unfold set_group. rewrite (consumed_steps st1 g st2) by apply steps_intro.
    cbn [seen rest groups st2]. by rewrite Hlast.
Qed.

(** A success of the target pattern at a position is an occurrence that
    starts there, with the shortest name; group 1 is the id and group 2
    the name, and the match ends where the name ends. *)
Lemma tgt_match_sound sn (s : text) res :
  rmatch true TGT_DEVTEST_RE (MState sn s ∅) Some = Some res →
  ∃ lead id g post, s = lead ++ g ++ post ∧
    tgt_occurrence lead id g post ∧ tgt_shortest g post ∧
    groups res = <[2 := g]> (<[1 := id]> ∅) ∧ rest res = post.
Proof.
  intros H.
  change (rmatch true tgt_prefix (MState sn s ∅)
            (fun st1 => rmatch true (Seq (Grp 2 name_body) tgt_stop) st1 Some)
          = Some res) in H.
  apply rmatch_sound in H as (st1 & Hpre & H).
  apply tgt_prefix_inv in Hpre as (lead & id & Hr1 & Hlead & Hst1).
  cbn [seen rest groups] in Hr1, Hst1.
  apply name_capture_first in H as (g & st2 & [Hr2 Hst2] & Hg & H & Hfirst).
  apply rmatch_sound in H as (st3 & Hstop & [= ->]).
  apply tgt_stop_inv in Hstop as [-> Hstop]. cbn [set_group rest] in Hstop.
  exists lead, id, g, (rest st2). split_and!; try done.
  - by rewrite Hr1, Hr2.
  - intros g1 g2 Hsplit Hne2 Hstops.
    assert (steps st1 g1 (MState (last_seen (seen st1) g1) (g2 ++ rest st2)
                            (groups st1))) as Hsteps.
    { split; [|done]. cbn. by rewrite Hr2, Hsplit, <- app_assoc. }
    pose proof (Hfirst g1 g2 _ Hsplit Hne2 Hsteps) as Hnone.
    assert (is_Some (rmatch true tgt_stop
              (set_group 2 st1
                 (MState (last_seen (seen st1) g1) (g2 ++ rest st2)
                    (groups st1))) Some)) as [x Hx].
    { by apply tgt_stop_hits. }
    by rewrite Hx in Hnone.
  - cbn [set_group groups]. rewrite (consumed_steps st1 g st2) by done.
    rewrite Hst2. cbn [groups]. by rewrite Hst1.
Qed.

Lemma tgt_match_complete sn (lead id g post : text) :
  tgt_occurrence lead id g post →
  is_Some (rmatch true TGT_DEVTEST_RE (MState sn (lead ++ g ++ post) ∅) Some).
Proof.
  intros (Hlead & Hg & Hstop).
  set (st1 := MState (last_seen sn lead) (g ++ post) (<[1 := id]> ∅)).
  set (st2 := MState (last_seen (last_seen sn lead) g) post (<[1 := id]> ∅)).
  apply (rmatch_complete true TGT_DEVTEST_RE _ (set_group 2 st1 st2));
    [|by eexists].
  unfold TGT_DEVTEST_RE.
  apply (M_seq _ _ _ _ st1); [by apply tgt_prefix_intro|].
  apply (M_seq _ _ _ _ (set_group 2 st1 st2)).
  - constructor. apply matches_rep_cls_intro; [by apply Forall_one_line|lia|done].
  - unfold set_group. by apply tgt_stop_intro.
Qed.

(** * The scenarios of the specification, run on the embedding *)

(** Scenario A at the strict step: the target page holds the very name
    of the source, which is counted as a strict match. *)
Lemma strict_match_precedence_witness :
  strict_match_exists shipped (load_target_tests shipped [battery_target])
    (txt "Battery Voltage Check") ∧
  match_one shipped (load_target_tests shipped [battery_target])
    (build_strict_set shipped (load_target_tests shipped [battery_target]))
    ∅ (Tally ∅ 0 0 0) (txt "Battery Voltage Check") =
  Tally (strict_pages shipped (load_target_tests shipped [battery_target])
           (txt "Battery Voltage Check") ∪ ∅) 1 0 0.
Proof.
  assert (strict_match_exists shipped
            (load_target_tests shipped [battery_target])
            (txt "Battery Voltage Check")) as H.
  { exists 1, [txt "Battery Voltage Check"], (txt "Battery Voltage Check").
    split_and!; [vm_compute; reflexivity|left|vm_compute; reflexivity]. }
  split; [exact H|].
  exact (proj2 (strict_match_precedence shipped [battery_target]
                  (txt "Battery Voltage Check") (Tally ∅ 0 0 0) ∅) H).
Defined.

(** Scenario D: the manual list keeps the page of an entry no source
    name matches. *)
Lemma manual_override_keeps_page_witness :
  1 ∈ sorted (hardcoded_keep legacy_settings
                (load_target_tests legacy_settings [legacy_page])
                (kept_pages (match_all legacy_settings
                   (load_target_tests legacy_settings [legacy_page])
                   [txt "Other"]))).
Proof.
  apply (manual_override_keeps_page legacy_settings _ _ 1
           [txt "Legacy Diagnostic"] (txt "Legacy Diagnostic")).
  - vm_compute. reflexivity.
  - left.
  - vm_compute. left.
Defined.

(** Scenario B under the shipped settings, on a document of two pages:
    the first page holds a don't-care test, the second a test to keep. *)
Lemma drop_word_occurrence_excluded_witness :
  upper_case_drop_words shipped ∧
  occurrence_names (norm_layout conty_page) = [txt "CONTY Startup"] ∧
  holds_drop_word shipped (txt "CONTY Startup") ∧
  load_target_tests shipped mixed_doc = {[2 := [txt "Battery Voltage Check"]]} ∧
  (∀ pno (page_map : gmap nat (list (list ascii))) m,
     holds_drop_word shipped (clean_name (group m 2)) →
     target_match shipped pno page_map m = page_map) ∧
  (∀ p names n, load_target_tests shipped mixed_doc !! p = Some names →
     n ∈ names → ¬ holds_drop_word shipped n) ∧
  (∀ src_names p,
     p ∈ kept_pages (match_all shipped (load_target_tests shipped mixed_doc)
                       src_names) →
     ∃ names n s, load_target_tests shipped mixed_doc !! p = Some names ∧
       n ∈ names ∧ ¬ holds_drop_word shipped n ∧ s ∈ src_names ∧
       answers shipped s n).
Proof.
  assert (upper_case_drop_words shipped) as H.
  { unfold upper_case_drop_words. vm_compute. repeat constructor. }
  split; [exact H|]. split; [vm_compute; reflexivity|]. split.
  { exists (txt "CONTY"). split; [left|vm_compute; reflexivity]. }
  split; [vm_compute; reflexivity|].
  exact (drop_word_occurrence_excluded shipped mixed_doc H).
Defined.

(** C3, the claim as it is written, fails.  With the drop-word written
    [conty], the name [conty startup] holds it, and all the same the
    occurrence is in the page index, is counted in the statistics, and
    brings its page into the keep list through the strict step. *)
Lemma lower_case_drop_word_excludes_nothing :
  occurrence_names (norm_layout lower_conty_page) = [txt "conty startup"] ∧
  holds_drop_word lower_case_settings (txt "conty startup") ∧
  load_target_tests lower_case_settings [lower_conty_page] =
    {[1 := [txt "conty startup"]]} ∧
  total_rows (load_target_tests lower_case_settings [lower_conty_page]) = 1 ∧
  match_all lower_case_settings
    (load_target_tests lower_case_settings [lower_conty_page])
    [txt "conty startup"] = Tally {[1]} 1 0 0 ∧
  final_keep lower_case_settings
    (load_target_tests lower_case_settings [lower_conty_page])
    [txt "conty startup"] = [1].
Proof.
  split_and!; try (vm_compute; reflexivity).
  exists (txt "conty"). split; [left|vm_compute; reflexivity].
Qed.

(** C4, the claim as it is written, fails.  The only page of the target
    holds one occurrence; its name holds the drop-word CONTY and is in
    the manual list; the final keep list is empty all the same, with or
    without a source name of that name. *)
Lemma manual_list_does_not_restore_dropped :
  (clean_name ∘ (fun m => group m 2)) <$>
    finditer true TGT_DEVTEST_RE (norm_layout conty_page) =
    [txt "CONTY Startup"] ∧
  dont_care conty_settings (txt "CONTY Startup") = true ∧
  strip (txt "CONTY Startup") ∈ HARDCODED_KEEP conty_settings ∧
  load_target_tests conty_settings [conty_page] = ∅ ∧
  final_keep conty_settings (load_target_tests conty_settings [conty_page])
    [txt "CONTY Startup"] = [] ∧
  kept_list id conty_settings [txt "1 __ CONTY Startup"] [conty_page] = [].
Proof.
  split_and!; try (vm_compute; reflexivity).
  vm_compute. left.
Qed.

Lemma kept_page_has_index_entry_witness :
  1 ∈ final_keep legacy_settings
        (load_target_tests legacy_settings [legacy_page]) [] ∧
  ∃ names n,
    load_target_tests legacy_settings [legacy_page] !! 1 = Some names ∧
    n ∈ names ∧ dont_care legacy_settings n = false ∧
    (upper_case_drop_words legacy_settings →
     ¬ holds_drop_word legacy_settings n) ∧
    (strip n ∈ HARDCODED_KEEP legacy_settings ∨
     ∃ s, s ∈ [] ∧ answers legacy_settings s n).
Proof.
  assert (1 ∈ final_keep legacy_settings
            (load_target_tests legacy_settings [legacy_page]) []) as H.
  { vm_compute. left. }
  split; [exact H|].
  exact (kept_page_has_index_entry legacy_settings [legacy_page] [] 1 H).
Defined.

(** Scenario E: no source name, no kept page, no file saved, status 0. *)
Lemma empty_keep_list_saves_nothing_witness :
  kept_list id shipped [] [battery_target] = [] ∧
  OUT_PDF (run id shipped (Files (Some []) (Some [battery_target]) true)).1
    = None ∧
  (run id shipped (Files (Some []) (Some [battery_target]) true)).2 = 0.
Proof.
  assert (kept_list id shipped [] [battery_target] = []) as H.
  { vm_compute. reflexivity. }
  split; [exact H|].
  pose proof (empty_keep_list_saves_nothing id shipped [] [battery_target]
                true H) as (H1 & H2 & _).
  split; [exact H1|exact H2].
Defined.

(** Scenario A, the whole run: page 1 of the target is kept and saved. *)
Example scenario_a_run :
  run id shipped (Files (Some [battery_source]) (Some [battery_target]) true) =
  (World [Extracting_source; Source_names_found 1; Extracting_target;
          Target_tests_captured 1 1; Matching; Checking_hardcoded; Writing;
          Pages_to_keep 1; Wrote; Result_header; Total_target_pages 1;
          Kept_pages 1; Source_names_total 1; Strict_matches 1;
          Loose_matches 0; No_matches 0]
     (Some [battery_target]), 0).
Proof. vm_compute. reflexivity. Qed.

(** Scenario C: underscore and case differ, the loose step matches. *)
Example scenario_c_loose :
  match_all shipped
    (load_target_tests shipped [txt "Device Test: 4.4 sensor calib"])
    [txt "Sensor_Calib"] = Tally {[1]} 0 1 0.
Proof. vm_compute. reflexivity. Qed.

(** * All the matches *)

Lemma finditer_from_spec ic r fuel (done s : text) :
  never_empty ic r → length s < fuel →
  (∀ m, m ∈ finditer_from fuel ic r (length done) (last done) s →
     ∃ pre suf st', s = pre ++ suf ∧
       match_here ic r (length (done ++ pre)) (last (done ++ pre)) suf
       = Some (m, st')) ∧
  (∀ pre suf, s = pre ++ suf →
     is_Some (match_here ic r (length (done ++ pre)) (last (done ++ pre)) suf) →
     ∃ m, m ∈ finditer_from fuel ic r (length done) (last done) s ∧
          m_start m ≤ length (done ++ pre) < m_end m) ∧
  in_order (length done) (finditer_from fuel ic r (length done) (last done) s).
Proof.
  intros Hne. revert done s.
  induction fuel as [|fuel IH]; intros done s Hfuel; [lia|].
  cbn [finditer_from].
  destruct (search_from ic r (length done) (last done) s) as [[m st']|] eqn:E.
  - apply search_from_Some in E as (pre0 & suf0 & -> & Hm & Hfirst).
    rewrite last_seen_last, <- length_app in Hm.
    pose proof Hm as Hm'.
    apply match_here_Some in Hm' as [Hrun ->].
    pose proof (Hne _ _ _ Hrun) as Hshort.
    destruct (rmatch_span _ _ _ _ _ _ Hrun) as (w & Hw & Hseen).
    cbn [m_start m_end].
    assert (length suf0 = length w + length (rest st')) as Hlen
      by by rewrite Hw at 1; rewrite length_app.
    assert (0 < length w) as Hwpos by lia.
    replace (length (done ++ pre0) <?
             length (done ++ pre0) + (length suf0 - length (rest st')))
      with true by (symmetry; apply Nat.ltb_lt; lia).
    assert (length (done ++ pre0) + (length suf0 - length (rest st'))
            = length ((done ++ pre0) ++ w)) as Hend.
    { rewrite (length_app _ w). lia. }
    rewrite Hend.
    assert (seen st' = last ((done ++ pre0) ++ w)) as Hseen'.
    { rewrite Hseen. apply last_seen_last. }
    rewrite Hseen'.
    destruct (IH ((done ++ pre0) ++ w) (rest st')) as (IH1 & IH2 & IH3).
    { rewrite length_app in Hfuel. lia. }
    split_and!.
    + intros m' [->|Hin]%elem_of_cons.
      * exists pre0, suf0, st'. split; [done|]. by rewrite <- Hend.
      * destruct (IH1 m' Hin) as (pre' & suf' & st'' & Hs' & Hm'').
        exists (pre0 ++ w ++ pre'), suf', st''. split.
        -- by rewrite Hw, Hs', <- !app_assoc.
        -- rewrite !app_assoc. exact Hm''.
    + intros pre suf Hsplit Hhit.
      destruct (decide (length pre < length pre0)) as [Hlt|Hge].
      { exfalso. apply app_eq_app in Hsplit as [l [[-> ->]|[-> ->]]].
        - assert (l ≠ []) as Hl by (intros ->; rewrite app_nil_r in Hlt; lia).
          specialize (Hfirst pre l eq_refl Hl).
          rewrite last_seen_last, <- length_app in Hfirst.
          rewrite Hfirst in Hhit. by destruct Hhit.
        - rewrite length_app in Hlt. lia. }
      destruct (decide (length pre < length (pre0 ++ w))) as [Hlt|Hge'].
      { eexists. split; [left|]. cbn [m_start m_end].
        rewrite !length_app in *. lia. }
      assert (∃ pre', pre = pre0 ++ w ++ pre' ∧ rest st' = pre' ++ suf)
        as (pre' & -> & Hrest).
      { rewrite Hw, app_assoc in Hsplit.
        apply app_eq_app in Hsplit as [l [[Hp Hs]|[Hp Hs]]].
        - assert (l = []) as ->.
          { apply (f_equal length) in Hp. rewrite (length_app pre l) in Hp.
            destruct l; [done|cbn in Hp; lia]. }
          exists []. rewrite !app_nil_r in *. split; [by rewrite Hp|done].
        - exists l. split; [by rewrite Hp, <- app_assoc|done]. }
      destruct (IH2 pre' suf Hrest) as (m' & Hin & Hcover).
      { rewrite !app_assoc in Hhit. exact Hhit. }
      exists m'. split; [by right|]. rewrite !app_assoc. exact Hcover.
    + cbn [in_order m_start m_end].
      split_and!; [rewrite length_app; lia|rewrite (length_app _ w); lia|done].
  - split_and!; [by intros m H%elem_of_nil| |done].
    intros pre suf Hs Hhit.
    pose proof (search_from_None _ _ _ _ _ E pre suf Hs) as Hn.
    rewrite last_seen_last, <- length_app in Hn. rewrite Hn in Hhit.
    by destruct Hhit.
Qed.

Lemma tgt_never_empty : never_empty true TGT_DEVTEST_RE.
Proof.
  intros sn s st' H.
  apply tgt_match_sound in H as (lead & id & g & post & -> & [Hlead _] & _ & _ & ->).
  apply tgt_lead_nonempty in Hlead. rewrite length_app.
  destruct lead; [done|]. cbn. rewrite length_app. lia.
Qed.

(** * Which occurrence the source search returns *)

(** A greedy repeat of a class that fails: the continuation fails after
    every run of the class. *)
Lemma rep_greedy_None (p : ascii → bool) fuel st k :
  length (rest st) < fuel →
  rep_loop (step_char p) fuel 0 None false st k = None →
  ∀ w st1, steps st w st1 → Forall (fun a => p a = true) w → k st1 = None.
Proof.
  revert st. induction fuel as [|fuel IH]; intros st Hf; [lia|].
  rewrite rep_loop_unfold. cbv zeta.
  cbn [more_allowed pred fmap option_fmap option_map].
  destruct (step_char p st _) as [r0|] eqn:Ea; [done|].
  intros Hk w st1 Hsteps Hall. destruct st as [sn s g].
  destruct w as [|a w].
  - by apply (steps_state sn [] s g) in Hsteps as ->.
  - destruct Hsteps as [Hr Hst1]. cbn [rest seen groups] in Hr, Hst1.
    apply Forall_cons in Hall as [Ha Hall].
    unfold step_char in Ea. cbn [rest groups] in Ea. rewrite Hr in Ea.
    cbn [app] in Ea. rewrite Ha in Ea. cbn [rest length] in Ea.
    replace (length (w ++ rest st1) <? S (length (w ++ rest st1))) with true
      in Ea by (symmetry; apply Nat.ltb_lt; lia).
    apply (IH _) with (w := w) (st1 := st1) in Ea; [done| |split|done].
    + cbn [rest length] in Hf |- *. rewrite Hr in Hf. cbn in Hf. lia.
    + done.
    + rewrite Hst1. cbn [seen groups]. by rewrite last_seen_cons.
Qed.

(** A greedy repeat of a class stops at the longest run of the class
    after which the continuation succeeds. *)
Lemma rep_greedy_last (p : ascii → bool) fuel st k res :
  length (rest st) < fuel →
  rep_loop (step_char p) fuel 0 None false st k = Some res →
  ∃ w st', steps st w st' ∧ Forall (fun a => p a = true) w ∧
    k st' = Some res ∧
    ∀ w' st1, steps st w' st1 → Forall (fun a => p a = true) w' →
      length w < length w' → k st1 = None.
Proof.
  revert st. induction fuel as [|fuel IH]; intros st Hf; [lia|].
  rewrite rep_loop_unfold. cbv zeta.
  cbn [more_allowed pred fmap option_fmap option_map].
  destruct (step_char p st _) as [r0|] eqn:Ea.
  - intros [= ->]. unfold step_char in Ea.
    destruct st as [sn [|a s] g]; cbn [rest groups] in Ea; [done|].
    destruct (p a) eqn:Hp; [|done]. cbn [rest length] in Ea.
    replace (length s <? S (length s)) with true in Ea
      by (symmetry; apply Nat.ltb_lt; lia).
    apply IH in Ea as (w & st' & Hw & Hall & Hres & Hlast);
      [|cbn in Hf |- *; lia].
    exists (a :: w), st'. split_and!.
    + by apply (steps_app3 _ [a] (MState (Some a) s g) w);
        [apply steps_one| |].
    + by constructor.
    + done.
    + intros w' st1 Hst1 Hall' Hlen. destruct w' as [|a' w'].
      { cbn in Hlen. lia. }
      destruct Hst1 as [Hr Hst1]. cbn [rest seen groups] in Hr, Hst1.
      injection Hr as <- Hr. apply Forall_cons in Hall' as [_ Hall'].
      apply (Hlast w'); [split|done|cbn in Hlen; lia].
      * done.
      * rewrite Hst1. cbn [seen groups]. by rewrite last_seen_cons.
  - intros Hk. exists [], st. split_and!; [apply steps_nil|constructor|done|].
    intros w' st1 Hst1 Hall' Hlen. destruct w' as [|a w']; [cbn in Hlen; lia|].
    destruct st as [sn s g]. destruct Hst1 as [Hr Hst1].
    cbn [rest seen groups] in Hr, Hst1.
    apply Forall_cons in Hall' as [Ha Hall'].
    unfold step_char in Ea. cbn [rest groups] in Ea. rewrite Hr in Ea.
    cbn [app] in Ea. rewrite Ha in Ea. cbn [rest length] in Ea.
    replace (length (w' ++ rest st1) <? S (length (w' ++ rest st1))) with true
      in Ea by (symmetry; apply Nat.ltb_lt; lia).
    apply rep_greedy_None with (w := w') (st1 := st1) in Ea; [done| |split|done].
    + cbn [rest length] in Hf |- *. rewrite Hr in Hf. cbn in Hf. lia.
    + done.
    + rewrite Hst1. cbn [seen groups]. by rewrite last_seen_cons.
Qed.

Lemma src_head_inv st sE :
  matches true src_head st sE →
  ∃ num ws1, steps st (num ++ ws1 ++ txt "__") sE ∧
    numeric_prefix num ∧ spaces ws1 ∧ word_at (seen st) = false.
Proof.
  unfold src_head, plus, star. intros H.
  apply matches_seq_inv in H as (s0 & [-> Hb]%matches_bound_inv & H).
  apply matches_seq_inv in H as (sA & Ha & H).
  apply matches_rep_cls_inv in Ha as (a & Hsa & Halla & Hlena & _).
  apply matches_seq_inv in H as (sB & Hfrac & H).
  apply fraction_inv in Hfrac as (b & Hsb & Hb').
  apply matches_seq_inv in H as (sC & Hw1 & H).
  apply matches_rep_cls_inv in Hw1 as (ws1 & Hsw1 & Hallw1 & _).
  apply matches_seq_inv in H as (sD & Hu1 & Hu2).
  apply matches_chr_inv in Hu1 as (u1 & ->%chr_eq_underscore & Hsu1).
  apply matches_chr_inv in Hu2 as (u2 & ->%chr_eq_underscore & Hsu2).
  exists (a ++ b), ws1. split_and!.
  - eapply steps_app3; [eapply steps_app; [exact Hsa|exact Hsb]| |done].
    eapply steps_app3; [exact Hsw1| |done].
    eapply steps_app3; [exact Hsu1|exact Hsu2|done].
  - exists a, b. split_and!; [done|by apply digits_run|done].
  - done.
  - unfold at_boundary in Hb. destruct Hsa as [Hr _]. rewrite Hr in Hb.
    destruct a as [|a0 a]; [cbn in Hlena; lia|]. cbn in Hb.
    apply Forall_cons in Halla as [Ha0 _]. cbn in Ha0.
    rewrite (isdigit_isword _ Ha0) in Hb. by destruct (word_at (seen st)).
Qed.

(** The first underscore of a text is where it is. *)
Lemma first_underscore (x x' r r' : text) :
  x ++ "_"%char :: r = x' ++ "_"%char :: r' →
  Forall (fun c => c ≠ "_"%char) x → Forall (fun c => c ≠ "_"%char) x' →
  x = x' ∧ r = r'.
Proof.
  revert x'. induction x as [|c x IH]; intros [|c' x'] H Hx Hx'.
  - by injection H as ->.
  - injection H as <- _. apply Forall_cons in Hx' as [Hc _]. done.
  - injection H as -> _. apply Forall_cons in Hx as [Hc _]. done.
  - injection H as <- H. apply Forall_cons in Hx as [_ Hx].
    apply Forall_cons in Hx' as [_ Hx'].
    destruct (IH x' H Hx Hx') as [-> ->]. done.
Qed.

Lemma isdigit_not_underscore (c : ascii) : isdigit c = true → c ≠ "_"%char.
Proof. by intros H ->. Qed.

Lemma isspace_not_underscore (c : ascii) : isspace c = true → c ≠ "_"%char.
Proof. by intros H ->. Qed.

Lemma digits_no_underscore (d : text) :
  digits d → Forall (fun c => c ≠ "_"%char) d.
Proof.
  intros [_ H]. eapply Forall_impl; [exact H|].
  apply isdigit_not_underscore.
Qed.

(** No underscore before the two underscores of a lead. *)
Lemma numeric_no_underscore (num ws1 : text) :
  numeric_prefix num → spaces ws1 →
  Forall (fun c => c ≠ "_"%char) (num ++ ws1).
Proof.
  intros (a & b & -> & Ha & Hb) Hw. apply Forall_app. split.
  - apply Forall_app. split; [by apply digits_no_underscore|].
    destruct Hb as [->|(d & -> & Hd)]; [constructor|].
    constructor; [done|by apply digits_no_underscore].
  - eapply Forall_impl; [exact Hw|]. apply isspace_not_underscore.
Qed.

(** After a lead, a name on one line and a place where it stops let the
    rest of the source pattern succeed. *)
Lemma src_tail_hits sn (g post : text) (gr : gmap nat text) :
  one_line g → src_stops (last_seen sn g) post →
  is_Some (rmatch true src_tail (MState sn (g ++ post) gr) Some).
Proof.
  intros Hg Hstop.
  set (st1 := MState sn (g ++ post) gr).
  set (st2 := MState (last_seen sn g) post gr).
  destruct (src_stop_intro (last_seen sn g) post (<[1 := g]> gr) Hstop)
    as [st3 Hst3].
  apply (rmatch_complete true src_tail _ st3); [|by eexists].
  unfold src_tail.
  apply (M_seq _ _ _ _ (set_group 1 st1 st2)).
  - constructor. apply matches_rep_cls_intro; [by apply Forall_one_line|lia|done].
  - unfold set_group. rewrite (consumed_steps st1 g st2) by apply steps_intro.
    exact Hst3.
Qed.

(** A success of the source pattern at a position is the occurrence
    that starts there with the longest lead and, after that lead, the
    shortest name. *)
Lemma src_match_first sn (s : text) res :
  rmatch true SRC_NAME_RE (MState sn s ∅) Some = Some res →
  ∃ lead g post, s = lead ++ g ++ post ∧
    word_at sn = false ∧ src_lead lead ∧ one_line g ∧
    src_stops (last (lead ++ g)) post ∧ src_shortest lead g post ∧
    groups res !! 1 = Some g ∧
    ∀ lead' g' post', s = lead' ++ g' ++ post' → src_lead lead' →
      one_line g' → src_stops (last (lead' ++ g')) post' →
      length lead' ≤ length lead.
Proof.
  intros H.
  change (rmatch true src_head (MState sn s ∅)
            (fun sE => rmatch true (star CSpace) sE
               (fun st1 => rmatch true src_tail st1 Some)) = Some res) in H.
  apply rmatch_sound in H as (sE & Hhead & H).
  pose proof (matches_groups _ _ _ _ Hhead eq_refl) as HgE.
  apply src_head_inv in Hhead as (num & ws1 & [HrE HsE] & Hnum & Hws1 & Hsn).
  cbn [seen rest groups] in HrE, HsE, Hsn, HgE.
  cbn [rmatch star] in H.
  apply rep_greedy_last in H as (ws2 & st1 & [Hr1 Hst1] & Hws2 & H & Hlast);
    [|lia].
  change (rmatch true (Seq (Grp 1 name_body) src_stop) st1 Some = Some res) in H.
  apply name_capture_first in H as (g & st2 & [Hr2 Hst2] & Hg & H & Hfirst).
  apply rmatch_sound in H as (st3 & Hstop & [= ->]).
  pose proof (matches_groups _ _ _ _ Hstop eq_refl) as Hgroups.
  apply src_stop_inv in Hstop. cbn [set_group seen rest] in Hstop.
  set (head := num ++ ws1 ++ txt "__") in *.
  assert (head ≠ []) as Hne.
  { destruct Hnum as (a & b & -> & [Ha _] & _). by destruct a. }
  assert (∀ w, last_seen (seen sE) w = last (head ++ w)) as HlastE.
  { intros w. rewrite HsE. cbn [seen]. rewrite <- last_seen_app.
    apply last_seen_nonempty. by destruct head. }
  assert (∀ w, last_seen (seen st1) w = last ((head ++ ws2) ++ w)) as Hlast1.
  { intros w. rewrite Hst1. cbn [seen]. rewrite <- last_seen_app, HlastE.
    by rewrite app_assoc. }
  exists (head ++ ws2), g, (rest st2). split_and!.
  - by rewrite HrE, Hr1, Hr2, <- !app_assoc.
  - done.
  - exists num, ws1, ws2. split_and!; try done.
    unfold head. by rewrite <- !app_assoc.
  - done.
  - rewrite <- Hlast1. rewrite Hst2 in Hstop. exact Hstop.
  - intros g1 g2 Hsplit Hne2 Hstops.
    assert (steps st1 g1 (MState (last_seen (seen st1) g1) (g2 ++ rest st2)
                            (groups st1))) as Hsteps.
    { split; [|done]. cbn. by rewrite Hr2, Hsplit, <- app_assoc. }
    pose proof (Hfirst g1 g2 _ Hsplit Hne2 Hsteps) as Hnone.
    assert (is_Some (rmatch true src_stop
              (set_group 1 st1
                 (MState (last_seen (seen st1) g1) (g2 ++ rest st2)
                    (groups st1))) Some)) as [x Hx].
    { apply src_stop_hits. cbn. by rewrite Hlast1. }
    by rewrite Hx in Hnone.
  - rewrite Hgroups. cbn [set_group groups].
    rewrite (consumed_steps st1 g st2) by done. apply lookup_insert_eq.
  - intros lead' g' post' Hs' (num' & ws1' & ws2' & -> & Hnum' & Hws1' & Hws2')
      Hg' Hstop'.
    assert (num ++ ws1 = num' ++ ws1' ∧
            "_"%char :: rest sE = "_"%char :: ws2' ++ g' ++ post') as [Hx HrE'].
    { apply first_underscore; [|by apply numeric_no_underscore..].
      rewrite HrE in Hs'. unfold head in Hs'. cbn [txt list_ascii_of_string] in Hs'.
      rewrite <- !app_assoc in Hs'. cbn [app] in Hs'.
      rewrite <- !app_assoc. exact Hs'. }
    injection HrE' as HrE'.
    destruct (decide (length ws2' ≤ length ws2)) as [Hle|Hgt].
    { unfold head. rewrite !length_app.
      assert (length (num ++ ws1) = length (num' ++ ws1')) as Hl by by rewrite Hx.
      rewrite !length_app in Hl. cbn [length txt list_ascii_of_string]. lia. }
    exfalso.
    set (st1' := MState (last_seen (seen sE) ws2') (g' ++ post') (groups sE)).
    assert (steps sE ws2' st1') as Hsteps'.
    { split; [|done]. cbn. by rewrite HrE'. }
    pose proof (Hlast ws2' st1' Hsteps' Hws2' ltac:(lia)) as Hnone.
    destruct (src_tail_hits (last_seen (seen sE) ws2') g' post' (groups sE) Hg')
      as [x Hx'].
    { rewrite <- last_seen_app, HlastE.
      replace (head ++ ws2' ++ g')
        with ((num' ++ ws1' ++ txt "__" ++ ws2') ++ g'); [done|].
      unfold head. rewrite <- !app_assoc.
      rewrite (app_assoc num ws1), Hx. by rewrite <- !app_assoc. }
    unfold st1' in Hnone. by rewrite Hx' in Hnone.
Qed.

(** * What the two extractions find *)

Lemma last_seen_None (pre : text) : last_seen None pre = last pre.
Proof. apply (last_seen_last [] pre). Qed.

Lemma search_Some ic r (text : text) m :
  search ic r text = Some m →
  ∃ pre suf st', text = pre ++ suf ∧
    match_here ic r (length pre) (last pre) suf = Some (m, st') ∧
    ∀ pre1 pre2, pre = pre1 ++ pre2 → pre2 ≠ [] →
      match_here ic r (length pre1) (last pre1) (pre2 ++ suf) = None.
Proof.
  unfold search. destruct (search_from ic r 0 None text) as [[m' st']|] eqn:E;
    [|done].
  intros [= <-]. apply search_from_Some in E as (pre & suf & -> & Hm & Hfirst).
  exists pre, suf, st'. rewrite last_seen_None in Hm. split_and!; [done|done|].
  intros pre1 pre2 Hp Hne. specialize (Hfirst pre1 pre2 Hp Hne).
  by rewrite last_seen_None in Hfirst.
Qed.

Lemma search_None ic r (text : text) :
  search ic r text = None →
  ∀ pre suf, text = pre ++ suf →
    match_here ic r (length pre) (last pre) suf = None.
Proof.
  unfold search. destruct (search_from ic r 0 None text) as [[m' st']|] eqn:E;
    [done|].
  intros _ pre suf Hs. pose proof (search_from_None _ _ _ _ _ E pre suf Hs) as H.
  by rewrite last_seen_None in H.
Qed.

(** On any text, the search of the source pattern succeeds exactly
    when the text holds an occurrence. *)
Lemma search_src_occurrence (text : text) :
  is_Some (search true SRC_NAME_RE text) ↔
  ∃ pre lead g post, text = pre ++ lead ++ g ++ post ∧
    src_occurrence pre lead g post.
Proof.
  split.
  - intros [m Hm]. apply search_Some in Hm as (pre & suf & st' & -> & Hm & _).
    apply match_here_Some in Hm as [Hrun _].
    apply src_match_sound in Hrun
      as (lead & g & post & -> & Hsn & Hlead & Hg & Hstop & _).
    by exists pre, lead, g, post.
  - intros (pre & lead & g & post & -> & Hsn & Hlead & Hg & Hstop).
    destruct (search true SRC_NAME_RE (pre ++ lead ++ g ++ post)) eqn:E;
      [by eexists|].
    pose proof (search_None _ _ _ E pre (lead ++ g ++ post) eq_refl) as Hn.
    apply match_here_None in Hn.
    destruct (src_match_complete (last pre) lead g post Hsn Hlead Hg Hstop)
      as [x Hx].
    by rewrite Hx in Hn.
Qed.

(** X1.  On a text of plain ASCII characters, [SRC_NAME_RE.search]
    succeeds exactly when the text holds an occurrence of the source
    pattern: a numeric prefix that does not touch a word character on
    its left, white space, two underscores, white space, a name on one
    line, and a place where the name stops. *)
Theorem source_search_finds_occurrence (text : list ascii) :
  plain text →
  (is_Some (search true SRC_NAME_RE text) ↔
   ∃ pre lead g post, text = pre ++ lead ++ g ++ post ∧
     src_occurrence pre lead g post).
Proof. intros _. apply search_src_occurrence. Qed.

(** The match the search returns is the first occurrence: none starts
    further left, none that starts there has a longer lead, and its
    name is the shortest after that lead. *)
Lemma search_src_first (text : text) (m : match_obj) :
  search true SRC_NAME_RE text = Some m →
  ∃ pre lead post, text = pre ++ lead ++ group m 1 ++ post ∧
    src_occurrence pre lead (group m 1) post ∧
    src_first text pre lead ∧ src_shortest lead (group m 1) post.
Proof.
  intros E. apply search_Some in E as (pre & suf & st' & Htext & Hm & Hfirst).
  apply match_here_Some in Hm as [Hrun ->].
  apply src_match_first in Hrun
    as (lead & g & post & -> & Hsn & Hlead & Hg & Hstop & Hshort & Hgrp & Hlong).
  unfold group. cbn [m_groups]. rewrite Hgrp. cbn [default from_option id].
  exists pre, lead, post. split_and!; try done.
  intros pre' lead' g' post' Htext' (Hsn' & Hlead' & Hg' & Hstop').
  rewrite Htext in Htext'.
  destruct (decide (length pre < length pre')) as [|Hge]; [by left|right].
  apply app_eq_app in Htext' as [l [[-> Hs]|[-> Hs]]].
  - destruct l as [|c l].
    + rewrite app_nil_r in *. cbn [app] in Hs. split; [done|].
      by apply (Hlong lead' g' post').
    + exfalso.
      specialize (Hfirst pre' (c :: l) eq_refl ltac:(done)).
      apply match_here_None in Hfirst. rewrite <- Hs in Hfirst.
      destruct (src_match_complete (last pre') lead' g' post'
                  Hsn' Hlead' Hg' Hstop') as [x Hx].
      by rewrite Hx in Hfirst.
  - destruct l as [|c l]; [|rewrite length_app in Hge; cbn in Hge; lia].
    rewrite app_nil_r in *. cbn [app] in Hs. split; [done|].
    by apply (Hlong lead' g' post').
Qed.

(** The three conditions fix the occurrence. *)
Lemma src_first_unique (text pre lead g post pre' lead' g' post' : text) :
  text = pre ++ lead ++ g ++ post → src_occurrence pre lead g post →
  src_first text pre lead → src_shortest lead g post →
  text = pre' ++ lead' ++ g' ++ post' → src_occurrence pre' lead' g' post' →
  src_first text pre' lead' → src_shortest lead' g' post' →
  g = g'.
Proof.
  intros Ht Hocc Hf Hs Ht' Hocc' Hf' Hs'.
  pose proof (Hf _ _ _ _ Ht' Hocc') as H1.
  pose proof (Hf' _ _ _ _ Ht Hocc) as H2.
  assert (length pre = length pre' ∧ length lead = length lead') as [Hp Hl]
    by lia.
  rewrite Ht in Ht'.
  apply app_inj_1 in Ht' as [<- Ht']; [|done].
  apply app_inj_1 in Ht' as [<- Ht']; [|done].
  destruct Hocc as (_ & _ & _ & Hstop), Hocc' as (_ & _ & _ & Hstop').
  apply app_eq_app in Ht' as [l [[-> Hpost]|[-> Hpost]]].
  - destruct l as [|c l]; [by rewrite app_nil_r|exfalso].
    apply (Hs g' (c :: l) eq_refl); [done|]. by rewrite <- Hpost.
  - destruct l as [|c l]; [by rewrite app_nil_r|exfalso].
    apply (Hs' g (c :: l) eq_refl); [done|]. by rewrite <- Hpost.
Qed.

(** X2.  What a page of the source adds to the list of names, for a
    page whose normalised text is plain ASCII.  Without an occurrence of
    the source pattern the page adds nothing.  With one, the text has a
    first occurrence: none starts further left, none that starts at the
    same place has a longer lead, and its name is the shortest after the
    lead that ends where a name stops.  The page then adds the cleaned
    name of that occurrence, or nothing when the cleaned name is
    empty. *)
Theorem source_page_adds_first_occurrence (names : list (list ascii))
    (raw : list ascii) :
  plain (norm_layout raw) →
  ((¬ ∃ pre lead g post, norm_layout raw = pre ++ lead ++ g ++ post ∧
        src_occurrence pre lead g post) →
   source_page names raw = names) ∧
  ((∃ pre lead g post, norm_layout raw = pre ++ lead ++ g ++ post ∧
      src_occurrence pre lead g post) →
   ∃ pre lead g post, norm_layout raw = pre ++ lead ++ g ++ post ∧
     src_occurrence pre lead g post ∧
     src_first (norm_layout raw) pre lead ∧ src_shortest lead g post) ∧
  (∀ pre lead g post,
     norm_layout raw = pre ++ lead ++ g ++ post →
     src_occurrence pre lead g post →
     src_first (norm_layout raw) pre lead → src_shortest lead g post →
     source_page names raw =
       if nonempty (clean_name g) then names ++ [clean_name g] else names).
Proof.
  intros _. unfold source_page.
  destruct (search true SRC_NAME_RE (norm_layout raw)) as [m|] eqn:E.
  - destruct (search_src_first _ _ E) as (pre & lead & post & Ht & Hocc & Hf & Hs).
    split_and!.
    + intros Hno. destruct Hno. by exists pre, lead, (group m 1), post.
    + intros _. by exists pre, lead, (group m 1), post.
    + intros pre' lead' g' post' Ht' Hocc' Hf' Hs'.
      by rewrite (src_first_unique _ _ _ _ _ _ _ _ _ Ht Hocc Hf Hs
                    Ht' Hocc' Hf' Hs').
  - assert (¬ ∃ pre lead g post, norm_layout raw = pre ++ lead ++ g ++ post ∧
                src_occurrence pre lead g post) as Hno.
    { intros H%search_src_occurrence. rewrite E in H. by destruct H. }
    split_and!; [done|by intros H|].
    intros pre lead g post Ht Hocc _ _. destruct Hno.
    by exists pre, lead, g, post.
Qed.

(** X3.  The source names are collected page by page: a document in
    two parts gives the names of the first part followed by those of the
    second, and a document gives at most one name per page. *)
Theorem source_names_page_by_page (doc1 doc2 : list (list ascii)) :
  load_source_names (doc1 ++ doc2) =
    load_source_names doc1 ++ load_source_names doc2 ∧
  length (load_source_names doc1) ≤ length doc1.
Proof.
  split.
  - unfold load_source_names. rewrite foldl_app, !foldl_source_page.
    by rewrite app_nil_l.
  - unfold load_source_names. rewrite foldl_source_page, app_nil_l.
    induction doc1 as [|raw doc IH]; [done|]. cbn [omap list_omap].
    destruct (source_name_of raw); cbn [length]; lia.
Qed.

(** Every match the scan of the target pattern reports is an occurrence
    at the place the match object tells, with the shortest name. *)
Lemma finditer_tgt_occurrence (text : text) (m : match_obj) :
  m ∈ finditer true TGT_DEVTEST_RE text →
  ∃ pre lead post,
    text = pre ++ lead ++ group m 2 ++ post ∧
    m_start m = length pre ∧
    m_end m = length (pre ++ lead ++ group m 2) ∧
    tgt_occurrence lead (group m 1) (group m 2) post ∧
    tgt_shortest (group m 2) post.
Proof.
  intros Hin. unfold finditer in Hin.
  destruct (finditer_from_spec true TGT_DEVTEST_RE (S (length text)) [] text
              tgt_never_empty) as (H1 & _ & _); [lia|].
  destruct (H1 m Hin) as (pre & suf & st' & -> & Hm).
  cbn [app] in Hm. apply match_here_Some in Hm as [Hrun ->].
  apply tgt_match_sound in Hrun
    as (lead & ident & g & post & -> & Hocc & Hshort & Hgrp & Hrest).
  unfold group. cbn [m_groups m_start m_end]. rewrite Hgrp, Hrest.
  rewrite lookup_insert_eq, lookup_insert_ne, lookup_insert_eq by done.
  cbn [default from_option id].
  exists pre, lead, post. split_and!; try done.
  cbn [app]. rewrite !length_app. lia.
Qed.

(** X4.  On a text of plain ASCII characters, every match
    [TGT_DEVTEST_RE.finditer] reports is an occurrence of the target
    pattern at the place the match object tells: Device, Test:, a dotted
    id of 2 to 4 groups of 1 to 3 digits (group 1), white space, and the
    shortest text on one line (group 2) that ends before two white-space
    characters, a line break or the end of the text. *)
Theorem target_match_is_occurrence (text : list ascii) (m : match_obj) :
  plain text →
  m ∈ finditer true TGT_DEVTEST_RE text →
  ∃ pre lead post,
    text = pre ++ lead ++ group m 2 ++ post ∧
    m_start m = length pre ∧
    m_end m = length (pre ++ lead ++ group m 2) ∧
    tgt_occurrence lead (group m 1) (group m 2) post ∧
    tgt_shortest (group m 2) post.
Proof. intros _. apply finditer_tgt_occurrence. Qed.

(** X5.  [finditer] misses no occurrence of the target pattern: an
    occurrence that starts at some place of the text starts inside a
    reported match (at its start or within it); and the reported matches
    lie one after the other, none empty, none overlapping. *)
Theorem target_occurrences_covered (text pre lead id g post : list ascii) :
  text = pre ++ lead ++ g ++ post →
  tgt_occurrence lead id g post →
  (∃ m, m ∈ finditer true TGT_DEVTEST_RE text ∧
        m_start m ≤ length pre < m_end m) ∧
  in_order 0 (finditer true TGT_DEVTEST_RE text).
Proof.
  intros -> Hocc. unfold finditer.
  destruct (finditer_from_spec true TGT_DEVTEST_RE
              (S (length (pre ++ lead ++ g ++ post))) []
              (pre ++ lead ++ g ++ post) tgt_never_empty)
    as (_ & H2 & H3); [lia|].
  split; [|exact H3].
  apply (H2 pre (lead ++ g ++ post) eq_refl). cbn [app].
  destruct (tgt_match_complete (last pre) lead id g post Hocc) as [x Hx].
  unfold match_here. rewrite Hx. by eexists.
Qed.

(** * The matching loop, name by name *)

Lemma add_original_filed (cfg : settings) (acc : gmap text (gset text))
    (n k o : text) :
  filed (add_original cfg acc n) k o ↔
  filed acc k o ∨ (o = n ∧ k = norm_loose cfg n).
Proof.
  unfold filed, add_original.
  destruct (decide (norm_loose cfg n = k)) as [<-|Hne].
  - rewrite lookup_insert_eq. split.
    + intros (os & [= <-] & Ho). apply elem_of_union in Ho as [Ho|Ho].
      * right. by apply elem_of_singleton in Ho.
      * left. destruct (acc !! norm_loose cfg n) as [old|]; cbn in Ho.
        -- by exists old.
        -- by apply not_elem_of_empty in Ho.
    + intros [(os & Hl & Ho)|[-> _]]; eexists; split; try done.
      * rewrite Hl. cbn. apply elem_of_union. by right.
      * apply elem_of_union. left. by apply elem_of_singleton.
  - rewrite lookup_insert_ne by done. split; [by left|].
    intros [H|[_ ->]]; done.
Qed.

Lemma foldl_add_original_filed (cfg : settings) (names : list text)
    (acc : gmap text (gset text)) (k o : text) :
  filed (foldl (add_original cfg) acc names) k o ↔
  filed acc k o ∨ (o ∈ names ∧ k = norm_loose cfg o).
Proof.
  revert acc. induction names as [|n names IH]; intros acc; cbn [foldl].
  - split; [by left|]. intros [H|[H _]]; [done|]. by apply elem_of_nil in H.
  - rewrite IH, add_original_filed, elem_of_cons. split.
    + intros [[H|[-> ->]]|[H ->]]; auto.
    + intros [H|[[->|H] ->]]; auto.
Qed.

Lemma foldl_items_filed (cfg : settings) (items : list (nat * list text))
    (acc : gmap text (gset text)) (k o : text) :
  filed (foldl (fun acc '(p, names) => foldl (add_original cfg) acc names)
           acc items) k o ↔
  filed acc k o ∨
  ((∃ p names, (p, names) ∈ items ∧ o ∈ names) ∧ k = norm_loose cfg o).
Proof.
  revert acc. induction items as [|[p names] items IH]; intros acc; cbn [foldl].
  - split; [by left|]. intros [H|[(p & names & H & _) _]]; [done|].
    by apply elem_of_nil in H.
  - rewrite IH, foldl_add_original_filed. split.
    + intros [[H|[H ->]]|[(p' & ns & H & Ho) ->]]; [by left|right|right].
      * split; [|done]. exists p, names. split; [left|done].
      * split; [|done]. exists p', ns. split; [by right|done].
    + intros [H|[(p' & ns & H & Ho) ->]]; [auto|].
      apply elem_of_cons in H as [[= -> ->]|H].
      * left. right. done.
      * right. split; [|done]. by exists p', ns.
Qed.

(** What [tgt_loose_map] files. *)
Lemma build_loose_map_filed (cfg : settings)
    (tgt_page_map : gmap nat (list (list ascii))) (k o : list ascii) :
  filed (build_loose_map cfg tgt_page_map) k o ↔
  ENABLE_LOOSE_FALLBACK cfg = true ∧ indexed tgt_page_map o ∧
  k = norm_loose cfg o.
Proof.
  unfold build_loose_map, indexed. destruct (ENABLE_LOOSE_FALLBACK cfg).
  - rewrite foldl_items_filed. setoid_rewrite elem_of_map_to_list. split.
    + intros [(os & H & _)|[H ->]]; [by rewrite lookup_empty in H|done].
    + intros (_ & H & ->). by right.
  - split; [|by intros [? _]]. intros (os & H & _). by rewrite lookup_empty in H.
Qed.

Lemma elem_of_loose_pages (cfg : settings) (tgt : gmap nat (list text))
    (s : text) (p : nat) :
  p ∈ loose_pages cfg tgt s ↔
  ∃ names n, tgt !! p = Some names ∧ n ∈ names ∧
    norm_loose cfg n = norm_loose cfg s.
Proof.
  unfold loose_pages. rewrite elem_of_pages_hit. split.
  - intros (names & Hl & (n & Hn & Hk)%existsb_exists).
    exists names, n. split_and!; [done|by apply list_elem_of_In|].
    by apply bool_decide_eq_true in Hk.
  - intros (names & n & Hl & Hn & Hk). exists names. split; [done|].
    apply existsb_exists. exists n. split; [by apply list_elem_of_In|].
    by apply bool_decide_eq_true.
Qed.

Lemma pages_hit_ext (hit1 hit2 : list text → bool) (tgt : gmap nat (list text)) :
  (∀ p names, tgt !! p = Some names → hit1 names = hit2 names) →
  pages_hit hit1 tgt = pages_hit hit2 tgt.
Proof.
  intros H. apply set_eq. intros p. rewrite !elem_of_pages_hit. split.
  - intros (names & Hl & Hh). exists names. split; [done|].
    by rewrite <- (H p names Hl).
  - intros (names & Hl & Hh). exists names. split; [done|].
    by rewrite (H p names Hl).
Qed.

(** The loose page loop adds the pages with the loose key of [s]. *)
Lemma loose_hit_pages (cfg : settings) (tgt : gmap nat (list text))
    (s : text) (originals : gset text) :
  build_loose_map cfg tgt !! norm_loose cfg s = Some originals →
  pages_hit (loose_hit originals) tgt = loose_pages cfg tgt s.
Proof.
  intros Hl. apply set_eq. intros p.
  rewrite elem_of_loose_pages, elem_of_pages_hit. split.
  - intros (names & Hp & (o & Ho & Hn)%loose_hit_elem).
    exists names, o. split_and!; [done|done|].
    assert (filed (build_loose_map cfg tgt) (norm_loose cfg s) o) as Hf
      by by exists originals.
    apply build_loose_map_filed in Hf as (_ & _ & Hk). done.
  - intros (names & n & Hp & Hn & Hk). exists names. split; [done|].
    assert (filed (build_loose_map cfg tgt) (norm_loose cfg s) n)
      as (os & Hos & Ho).
    { apply build_loose_map_filed. split_and!; [|by exists p, names|done].
      unfold build_loose_map in Hl.
      destruct (ENABLE_LOOSE_FALLBACK cfg); [done|]. by rewrite lookup_empty in Hl. }
    rewrite Hl in Hos. injection Hos as <-.
    unfold loose_hit. apply existsb_exists. exists n.
    split; [by apply list_elem_of_In, elem_of_elements|].
    by apply bool_decide_eq_true.
Qed.

Lemma loose_map_None (cfg : settings) (tgt : gmap nat (list text)) (s : text) :
  ENABLE_LOOSE_FALLBACK cfg = true →
  build_loose_map cfg tgt !! norm_loose cfg s = None →
  loose_pages cfg tgt s = ∅.
Proof.
  intros Hen Hl. apply set_eq. intros p. rewrite elem_of_loose_pages.
  split; [|by intros H%not_elem_of_empty].
  intros (names & n & Hp & Hn & Hk). exfalso.
  assert (filed (build_loose_map cfg tgt) (norm_loose cfg s) n)
    as (os & Hos & _).
  { apply build_loose_map_filed. split_and!; [done|by exists p, names|done]. }
  by rewrite Hl in Hos.
Qed.

Lemma scan_pages_pair hit (tgt : gmap nat (list text)) kept :
  scan_pages hit (map_to_list tgt) (kept, false) =
  (pages_hit hit tgt ∪ kept, bool_decide (pages_hit hit tgt ≠ ∅)).
Proof.
  destruct (scan_pages hit (map_to_list tgt) (kept, false)) as [k m] eqn:E.
  f_equal.
  - change k with (k, m).1. rewrite <- E. apply scan_pages_map.
  - assert (m = true ↔ ∃ p, p ∈ pages_hit hit tgt) as Hm.
    { change m with (k, m).2. rewrite <- E. apply scan_pages_map_flag. }
    destruct m.
    + symmetry. apply bool_decide_eq_true. destruct Hm as [[p Hp] _]; [done|].
      intros Hempty. rewrite Hempty in Hp. by apply not_elem_of_empty in Hp.
    + symmetry. apply bool_decide_eq_false. intros Hne. apply Hne.
      apply set_eq. intros p. split; [|by intros H%not_elem_of_empty].
      intros Hp. destruct Hm as [_ Hm]. discriminate Hm. by exists p.
Qed.

(** The body of the matching loop records the outcome of the name. *)
Lemma match_one_outcome (cfg : settings) (tgt : gmap nat (list text))
    (st : tally) (s : text) :
  match_one cfg tgt (build_strict_set cfg tgt) (build_loose_map cfg tgt) st s =
  record_outcome (outcome cfg tgt s) st.
Proof.
  unfold match_one, outcome, record_outcome.
  assert ((if bool_decide (strict_key cfg s ∈ build_strict_set cfg tgt)
           then scan_pages (strict_hit cfg s) (map_to_list tgt)
                  (kept_pages st, false)
           else (kept_pages st, false)) =
          (strict_pages cfg tgt s ∪ kept_pages st,
           bool_decide (strict_pages cfg tgt s ≠ ∅))) as ->.
  { unfold strict_pages. case_bool_decide as Hkey.
    - apply scan_pages_pair.
    - by rewrite union_empty_l_L. }
  destruct (decide (strict_pages cfg tgt s = ∅)) as [He|Hne].
  - rewrite bool_decide_eq_false_2 by (intros H; by apply H).
    rewrite He, union_empty_l_L.
    destruct (ENABLE_LOOSE_FALLBACK cfg) eqn:Hen.
    + destruct (build_loose_map cfg tgt !! norm_loose cfg s) as [os|] eqn:E.
      * rewrite scan_pages_pair, (loose_hit_pages cfg tgt s os E).
        destruct (decide (loose_pages cfg tgt s = ∅)) as [Hl|Hl].
        -- rewrite bool_decide_eq_false_2 by (intros H; by apply H).
           cbn. by rewrite Hl, !union_empty_l_L.
        -- rewrite bool_decide_eq_true_2 by done. cbn.
           by rewrite !union_empty_l_L.
      * rewrite (loose_map_None cfg tgt s Hen E).
        destruct (decide _) as [_|H]; [|done]. cbn.
        by rewrite !union_empty_l_L.
    + cbn. by rewrite !union_empty_l_L.
  - by rewrite bool_decide_eq_true_2.
Qed.

(** X6.  With the loose fallback on, [tgt_loose_map] files every name of
    the page index under its loose key and files nothing else; with the
    fallback off it is empty. *)
Theorem loose_map_files_index (cfg : settings)
    (tgt_page_map : gmap nat (list (list ascii))) (k o : list ascii) :
  filed (build_loose_map cfg tgt_page_map) k o ↔
  ENABLE_LOOSE_FALLBACK cfg = true ∧ indexed tgt_page_map o ∧
  k = norm_loose cfg o.
Proof. apply build_loose_map_filed. Qed.

Lemma strict_pages_empty (cfg : settings) (tgt : gmap nat (list text)) (s : text) :
  strict_pages cfg tgt s = ∅ ↔ ¬ strictly_answered cfg tgt s.
Proof.
  split.
  - intros He (n & (p & names & Hl & Hn) & Hk).
    assert (p ∈ strict_pages cfg tgt s) as Hp
      by (apply elem_of_strict_pages; by exists names, n).
    rewrite He in Hp. by apply not_elem_of_empty in Hp.
  - intros Hno. apply set_eq. intros p.
    split; [|by intros H%not_elem_of_empty].
    intros (names & n & Hl & Hn & Hk)%elem_of_strict_pages. destruct Hno.
    exists n. split; [by exists p, names|done].
Qed.

Lemma loose_pages_empty (cfg : settings) (tgt : gmap nat (list text)) (s : text) :
  loose_pages cfg tgt s = ∅ ↔ ¬ loosely_answered cfg tgt s.
Proof.
  split.
  - intros He (n & (p & names & Hl & Hn) & Hk).
    assert (p ∈ loose_pages cfg tgt s) as Hp
      by (apply elem_of_loose_pages; by exists names, n).
    rewrite He in Hp. by apply not_elem_of_empty in Hp.
  - intros Hno. apply set_eq. intros p.
    split; [|by intros H%not_elem_of_empty].
    intros (names & n & Hl & Hn & Hk)%elem_of_loose_pages. destruct Hno.
    exists n. split; [by exists p, names|done].
Qed.

(** X7.  The loose step.  With the loose fallback on, a source name
    whose strict key no index entry has, but whose loose key some entry
    has, is counted as a loose match, and the pages added are exactly
    the pages that hold an entry with that loose key. *)
Theorem loose_fallback_step (cfg : settings)
    (tgt_page_map : gmap nat (list (list ascii))) (st : tally) (s : list ascii) :
  ENABLE_LOOSE_FALLBACK cfg = true →
  ¬ strictly_answered cfg tgt_page_map s →
  loosely_answered cfg tgt_page_map s →
  ∃ added : gset nat,
    match_one cfg tgt_page_map (build_strict_set cfg tgt_page_map)
      (build_loose_map cfg tgt_page_map) st s =
    Tally (added ∪ kept_pages st) (strict_cnt st) (loose_cnt st + 1)
      (none_cnt st) ∧
    ∀ p, p ∈ added ↔
         page_holds tgt_page_map p
           (fun n => norm_loose cfg n = norm_loose cfg s).
Proof.
  intros Hen Hstrict Hloose. exists (loose_pages cfg tgt_page_map s). split.
  - rewrite match_one_outcome. unfold outcome.
    destruct (decide _) as [_|Hne]; [|by apply strict_pages_empty in Hstrict].
    rewrite Hen. destruct (decide _) as [He|_]; [|done].
    by apply loose_pages_empty in He.
  - intros p. apply elem_of_loose_pages.
Qed.

(** X8.  The fall through.  A source name whose strict key no index
    entry has and, if the loose fallback is on, whose loose key no entry
    has either, is counted under "no match" and adds no page. *)
Theorem no_match_step (cfg : settings)
    (tgt_page_map : gmap nat (list (list ascii))) (st : tally) (s : list ascii) :
  ¬ strictly_answered cfg tgt_page_map s →
  (ENABLE_LOOSE_FALLBACK cfg = true → ¬ loosely_answered cfg tgt_page_map s) →
  match_one cfg tgt_page_map (build_strict_set cfg tgt_page_map)
    (build_loose_map cfg tgt_page_map) st s =
  Tally (kept_pages st) (strict_cnt st) (loose_cnt st) (none_cnt st + 1).
Proof.
  intros Hstrict Hloose. rewrite match_one_outcome. unfold outcome.
  destruct (decide _) as [_|Hne]; [|by apply strict_pages_empty in Hstrict].
  destruct (ENABLE_LOOSE_FALLBACK cfg).
  - destruct (decide _) as [_|Hne].
    + unfold record_outcome. cbn. by rewrite union_empty_l_L.
    + destruct Hne. apply loose_pages_empty. by apply Hloose.
  - unfold record_outcome. cbn. by rewrite union_empty_l_L.
Qed.

Lemma union_swap (a b c : gset nat) : a ∪ (b ∪ c) = b ∪ (a ∪ c).
Proof. apply set_eq. intros x. rewrite !elem_of_union. tauto. Qed.

Lemma record_outcome_comm (o1 o2 : verdict * gset nat) (st : tally) :
  record_outcome o1 (record_outcome o2 st) =
  record_outcome o2 (record_outcome o1 st).
Proof.
  destruct o1 as [v1 p1], o2 as [v2 p2], st as [k a b c].
  destruct v1, v2; unfold record_outcome; cbn; f_equal; try lia;
    apply union_swap.
Qed.

Lemma foldl_match_one_perm (cfg : settings) (tgt : gmap nat (list text))
    (l1 l2 : list text) :
  l1 ≡ₚ l2 →
  ∀ st,
    foldl (match_one cfg tgt (build_strict_set cfg tgt) (build_loose_map cfg tgt))
      st l1 =
    foldl (match_one cfg tgt (build_strict_set cfg tgt) (build_loose_map cfg tgt))
      st l2.
Proof.
  induction 1 as [|x l1 l2 _ IH|x y l|l1 l2 l3 _ IH1 _ IH2]; intros st.
  - done.
  - cbn [foldl]. apply IH.
  - cbn [foldl]. by rewrite !match_one_outcome, record_outcome_comm.
  - by rewrite IH1, IH2.
Qed.

(** X9.  The order of the source names does not matter: the matching
    loop ends with the same kept pages and the same three counters on
    any rearrangement of the list of source names. *)
Theorem match_all_order_irrelevant (cfg : settings)
    (tgt_page_map : gmap nat (list (list ascii)))
    (src_names src_names' : list (list ascii)) :
  src_names ≡ₚ src_names' →
  match_all cfg tgt_page_map src_names = match_all cfg tgt_page_map src_names'.
Proof. intros Hp. unfold match_all. by apply foldl_match_one_perm. Qed.

Lemma foldl_record_kept (cfg : settings) (tgt : gmap nat (list text))
    (src_names : list text) (st : tally) (p : nat) :
  p ∈ kept_pages (foldl (match_one cfg tgt (build_strict_set cfg tgt)
                           (build_loose_map cfg tgt)) st src_names) ↔
  p ∈ kept_pages st ∨ ∃ s, s ∈ src_names ∧ p ∈ (outcome cfg tgt s).2.
Proof.
  revert st. induction src_names as [|s l IH]; intros st; cbn [foldl].
  - split; [by left|]. intros [H|(s & H & _)]; [done|].
    by apply elem_of_nil in H.
  - rewrite IH, match_one_outcome.
    assert (∀ o, kept_pages (record_outcome o st) = o.2 ∪ kept_pages st) as ->.
    { intros [[] pages]; reflexivity. }
    rewrite elem_of_union. split.
    + intros [[H|H]|(s' & Hs & H)]; [right|by left|right].
      * exists s. split; [left|done].
      * exists s'. split; [by right|done].
    + intros [H|(s' & Hs & H)]; [auto|].
      apply elem_of_cons in Hs as [->|Hs]; [auto|]. right. by exists s'.
Qed.

Lemma elem_of_outcome (cfg : settings) (tgt : gmap nat (list text))
    (s : text) (p : nat) :
  p ∈ (outcome cfg tgt s).2 ↔
  page_holds tgt p (fun n => strict_key cfg n = strict_key cfg s) ∨
  (¬ strictly_answered cfg tgt s ∧ ENABLE_LOOSE_FALLBACK cfg = true ∧
   page_holds tgt p (fun n => norm_loose cfg n = norm_loose cfg s)).
Proof.
  unfold outcome, page_holds.
  destruct (decide (strict_pages cfg tgt s = ∅)) as [He|Hne].
  - pose proof He as Hno. apply strict_pages_empty in Hno.
    assert (¬ ∃ names n, tgt !! p = Some names ∧ n ∈ names ∧
              strict_key cfg n = strict_key cfg s) as Hnop.
    { intros (names & n & Hl & Hn & Hk). apply Hno. exists n.
      split; [by exists p, names|done]. }
    destruct (ENABLE_LOOSE_FALLBACK cfg).
    + destruct (decide (loose_pages cfg tgt s = ∅)) as [Hl|Hl]; cbn [snd].
      * split; [by intros H%not_elem_of_empty|].
        intros [H|(_ & _ & H)]; [done|].
        apply elem_of_loose_pages in H. rewrite Hl in H.
        by apply not_elem_of_empty in H.
      * rewrite elem_of_loose_pages. split; [by right|].
        intros [H|(_ & _ & H)]; done.
    + cbn [snd]. split; [by intros H%not_elem_of_empty|].
      intros [H|(_ & H & _)]; done.
  - cbn [snd]. rewrite elem_of_strict_pages. split; [by left|].
    intros [H|(Hno & _)]; [done|]. by apply strict_pages_empty in Hno.
Qed.

(** X10.  The final keep list, exactly.  A page is kept if and only if
    it holds an entry whose trimmed name is in the manual list, or an
    entry with the strict key of some source name, or, for a source name
    whose strict key no entry of the whole index has and with the loose
    fallback on, an entry with the loose key of that name. *)
Theorem final_keep_exactly (cfg : settings)
    (tgt_page_map : gmap nat (list (list ascii)))
    (src_names : list (list ascii)) (p : nat) :
  p ∈ final_keep cfg tgt_page_map src_names ↔
  page_holds tgt_page_map p (fun n => strip n ∈ HARDCODED_KEEP cfg) ∨
  ∃ s, s ∈ src_names ∧
    (page_holds tgt_page_map p (fun n => strict_key cfg n = strict_key cfg s) ∨
     (¬ strictly_answered cfg tgt_page_map s ∧
      ENABLE_LOOSE_FALLBACK cfg = true ∧
      page_holds tgt_page_map p
        (fun n => norm_loose cfg n = norm_loose cfg s))).
Proof.
  unfold final_keep, match_all.
  rewrite elem_of_sorted, elem_of_hardcoded_keep, foldl_record_kept.
  cbn [kept_pages]. setoid_rewrite elem_of_outcome. split.
  - intros [[H|H]|H]; [by apply not_elem_of_empty in H|by right|by left].
  - intros [H|H]; [by right|left; by right].
Qed.

(** * The filter of [main], the index and the numbers of the summary *)

Lemma source_name_of_clean (raw name : text) :
  source_name_of raw = Some name → nonempty (strip name) = true.
Proof.
  unfold source_name_of.
  destruct (search _ _ _) as [m|]; [|done].
  cbn. destruct (nonempty _) eqn:E; [|done]. intros [= <-].
  by rewrite strip_clean_name.
Qed.

(** X11.  The filter [main] applies to the source names,
    [[s for s in src_names if s.strip()]], removes nothing: the names
    [load_source_names] returns are already stripped and not empty. *)
Theorem source_filter_removes_nothing (doc : list (list ascii)) :
  filter (fun s => nonempty (strip s) = true) (load_source_names doc) =
  load_source_names doc.
Proof.
  rewrite load_source_names_omap.
  induction doc as [|raw doc IH]; [done|]. cbn [omap list_omap].
  destruct (source_name_of raw) as [name|] eqn:E; [|exact IH].
  rewrite filter_cons_True by by apply source_name_of_clean in E.
  by rewrite IH.
Qed.

(** X12.  The page index, key by key.  The key [p] is present exactly
    when [p] is the 1-based number of a page on which some occurrence
    survives the two filters, and it then holds the surviving names of
    that page in the order of the occurrences; a page without such an
    occurrence, and any number that is not a page number, is no key. *)
Theorem index_lookup (cfg : settings) (doc : list (list ascii)) (p : nat) :
  load_target_tests cfg doc !! p =
  match p with
  | O => None
  | S i =>
      match doc !! i with
      | Some raw =>
          if page_names cfg raw is [] then None else Some (page_names cfg raw)
      | None => None
      end
  end.
Proof.
  destruct (load_target_tests cfg doc !! p) as [names|] eqn:E.
  - apply load_target_tests_lookup in E as (raw & Hp & Hraw & -> & Hne).
    destruct p as [|i]; [lia|]. cbn in Hraw. rewrite Nat.sub_0_r in Hraw.
    rewrite Hraw. by destruct (page_names cfg raw).
  - destruct p as [|i]; [done|].
    destruct (doc !! i) as [raw|] eqn:Hraw; [|done].
    destruct (page_names cfg raw) as [|n ns] eqn:Hn; [done|].
    assert (load_target_tests cfg doc !! S i = Some (n :: ns)) as H.
    { apply load_target_tests_lookup. exists raw. split_and!; [lia| |done|done].
      cbn. by rewrite Nat.sub_0_r. }
    by rewrite H in E.
Qed.

Lemma foldl_rows (items : list (nat * list text)) (a : nat) :
  Forall (fun x => x.2 ≠ []) items →
  a + length items ≤
  foldl (fun acc '(p, names) => acc + length names) a items.
Proof.
  intros H. revert a. induction H as [|[p names] items Hne _ IH]; intros a;
    cbn [foldl length].
  - lia.
  - specialize (IH (a + length names)). cbn in Hne.
    destruct names; [done|]. cbn [length] in *. lia.
Qed.

Section Summary.

Context {Page : Type} (get_text : Page → text).

(** X13.  The numbers of the summary are consistent: the pages kept are
    at most the pages that hold an index entry, these are at most the
    pages of the target, and the entries are at least as many as the
    pages that hold one. *)
Theorem summary_numbers_bounded (cfg : settings) (src tgt : list Page) :
  let tgt_page_map := load_target_tests cfg (get_text <$> tgt) in
  length (kept_list get_text cfg src tgt) ≤ size tgt_page_map ∧
  size tgt_page_map ≤ length tgt ∧
  size tgt_page_map ≤ total_rows tgt_page_map.
Proof.
  intros idx. split_and!.
  - rewrite kept_list_final. fold idx. unfold final_keep, sorted.
    rewrite merge_sort_Permutation.
    change (length (elements ?X)) with (size X).
    rewrite <- size_dom. apply subseteq_size. intros p Hp.
    assert (p ∈ final_keep cfg idx
              (filter (fun s => nonempty (strip s) = true)
                 (load_source_names (get_text <$> src)))) as Hf
      by by apply elem_of_sorted.
    apply final_keep_origin in Hf as (names & n & Hl & _).
    apply elem_of_dom. by exists names.
  - rewrite <- size_dom.
    assert (dom idx ⊆ list_to_set (seq 1 (length tgt))) as Hsub.
    { intros p [names Hl]%elem_of_dom. apply elem_of_list_to_set.
      apply load_target_tests_lookup in Hl as (raw & Hp & Hraw & _).
      apply lookup_lt_Some in Hraw. rewrite length_fmap in Hraw.
      apply list_elem_of_In, in_seq. lia. }
    apply subseteq_size in Hsub.
    rewrite size_list_to_set in Hsub by apply NoDup_seq.
    by rewrite length_seq in Hsub.
  - unfold total_rows. rewrite <- length_map_to_list.
    apply (foldl_rows (map_to_list idx) 0).
    apply Forall_forall. intros [p names] Hin%elem_of_map_to_list.
    apply load_target_tests_lookup in Hin as (raw & _ & _ & _ & Hne). done.
Qed.

End Summary.

Lemma upper_lower_char (c : ascii) :
  code c < 128 → upper_char (lower_char c) = upper_char c.
Proof.
  intros Hc. ascii_cases c;
    first [reflexivity | exfalso; vm_compute in Hc; lia].
Qed.

Lemma upper_lower (s : text) : plain s → upper (lower s) = upper s.
Proof.
  induction 1 as [|c s Hc _ IH]; [done|].
  cbn. f_equal; [by apply upper_lower_char|exact IH].
Qed.

Lemma Forall_drop_while (P : ascii → Prop) (p : ascii → bool) (s : text) :
  Forall P s → Forall P (drop_while p s).
Proof.
  induction 1 as [|c s Hc Hs IH]; [done|]. cbn.
  destruct (p c); [exact IH|by constructor].
Qed.

Lemma Forall_rstrip_by (P : ascii → Prop) (p : ascii → bool) (s : text) :
  Forall P s → Forall P (rstrip_by p s).
Proof.
  intros H. unfold rstrip_by. apply Forall_rev, Forall_drop_while.
  by apply Forall_rev.
Qed.

Lemma clean_name_plain (g : text) : plain g → plain (clean_name g).
Proof.
  intros H. unfold clean_name, strip, lstrip, rstrip, rstrip_chars.
  repeat first [apply Forall_drop_while | apply Forall_rstrip_by]. exact H.
Qed.

(** The entries of the index of plain pages are plain. *)
Lemma index_entry_plain (cfg : settings) (doc : list text) p names n :
  Forall (fun raw => plain (norm_layout raw)) doc →
  load_target_tests cfg doc !! p = Some names → n ∈ names → plain n.
Proof.
  intros Hdoc Hl Hn.
  apply load_target_tests_lookup in Hl as (raw & Hp & Hraw & -> & _).
  apply elem_of_page_names in Hn as [_ Hn].
  unfold occurrence_names in Hn. apply list_elem_of_fmap in Hn as (m & -> & Hm).
  apply clean_name_plain.
  apply finditer_tgt_occurrence in Hm as (pre & lead & post & Htext & _).
  rewrite Forall_forall in Hdoc.
  assert (plain (norm_layout raw)) as Hplain.
  { apply Hdoc. by apply list_elem_of_lookup_2 in Hraw. }
  unfold plain in Hplain. rewrite Htext in Hplain.
  apply Forall_app in Hplain as [_ Hplain].
  apply Forall_app in Hplain as [_ Hplain].
  by apply Forall_app in Hplain as [Hplain _].
Qed.

(** X14.  A source name that the drop-word test would drop never
    matches strictly: the index holds no entry with its strict key.  In
    the case-sensitive mode this holds of every name; in the other mode
    it is stated for a plain name and plain pages, where lower-casing
    two names to the same text means that they agree in upper case
    too. *)
Theorem dropped_name_has_no_strict_match (cfg : settings)
    (doc : list (list ascii)) (s : list ascii) :
  (STRICT_CASE_SENSITIVE cfg = false →
   plain s ∧ Forall (fun raw => plain (norm_layout raw)) doc) →
  dont_care cfg s = true →
  ¬ strictly_answered cfg (load_target_tests cfg doc) s.
Proof.
  intros Hplain Hs (n & (p & names & Hl & Hn) & Hk).
  destruct (index_entry cfg doc p names n Hl Hn) as (_ & Hd & _).
  assert (upper n = upper s) as Hup.
  { unfold strict_key in Hk.
    destruct (STRICT_CASE_SENSITIVE cfg); [by rewrite Hk|].
    destruct Hplain as [Hps Hdoc]; [done|].
    rewrite <- (upper_lower n) by by apply (index_entry_plain cfg doc p names).
    by rewrite Hk, upper_lower. }
  unfold dont_care in *. rewrite Hup in Hd. by rewrite Hs in Hd.
Qed.

(** * Normalisation and the drop-word test *)

Lemma replace_from_absent (h : ascii) (t new s : text) :
  Forall (fun c => c ≠ h) s → replace_from (h :: t) new 0 s = s.
Proof.
  induction 1 as [|c s Hc _ IH]; [done|]. cbn [replace_from is_prefix].
  destruct (Ascii.eqb h c) eqn:E.
  - apply Ascii.eqb_eq in E. by destruct Hc.
  - cbn. by rewrite IH.
Qed.

Lemma plain_not_byte (c : ascii) (n : nat) :
  code c < 128 → 128 ≤ n → n < 256 → c ≠ ascii_of_nat n.
Proof.
  intros Hc Hn Hn' ->. unfold code in Hc.
  rewrite nat_ascii_embedding in Hc by done. lia.
Qed.

(** X15.  [norm_layout] changes nothing in a text of plain ASCII
    characters. *)
Theorem norm_layout_plain_text (s : list ascii) :
  Forall (fun c => code c < 128) s → norm_layout s = s.
Proof.
  intros Hplain. unfold norm_layout. destruct s as [|c0 s0] eqn:Es; [done|].
  rewrite <- Es in *. clear Es c0 s0.
  assert (∀ n, 128 ≤ n → n < 256 → Forall (fun c => c ≠ ascii_of_nat n) s)
    as Habsent.
  { intros n Hn Hn'. eapply Forall_impl; [exact Hplain|].
    intros c Hc. by apply plain_not_byte. }
  unfold replace, SOFT_HYPHEN, EN_DASH, EM_DASH. cbn [map].
  rewrite (replace_from_absent (ascii_of_nat 194) _ _ s) by (apply Habsent; lia).
  rewrite (replace_from_absent (ascii_of_nat 226) _ _ s) by (apply Habsent; lia).
  by rewrite (replace_from_absent (ascii_of_nat 226) _ _ s)
    by (apply Habsent; lia).
Qed.

Lemma is_prefix_elem (sub s : text) (c : ascii) :
  is_prefix sub s = true → c ∈ sub → c ∈ s.
Proof.
  revert s. induction sub as [|a sub IH]; intros [|b s]; cbn; try done.
  - by intros _ H%elem_of_nil.
  - intros [Hab Hp]%andb_true_iff [->|Hc]%elem_of_cons.
    + apply Ascii.eqb_eq in Hab as ->. left.
    + right. by apply IH.
Qed.

Lemma contains_elem (sub s : text) (c : ascii) :
  contains sub s = true → c ∈ sub → c ∈ s.
Proof.
  induction s as [|b s IH]; cbn.
  - rewrite orb_false_r. by apply is_prefix_elem.
  - intros [H|H]%orb_true_iff Hc.
    + by apply (is_prefix_elem sub (b :: s)).
    + right. by apply IH.
Qed.

Lemma islower_upper_char (c : ascii) : islower (upper_char c) = false.
Proof. ascii_cases c; reflexivity. Qed.

(** X16.  A drop-word that holds a lower-case letter never drops
    anything: the test compares it with the upper-cased name, which
    holds no lower-case letter. *)
Theorem lower_case_drop_words_drop_nothing (cfg : settings)
    (name : list ascii) :
  Forall (fun dw => ∃ c, c ∈ dw ∧ islower c = true) (DROP_WORDS cfg) →
  dont_care cfg name = false.
Proof.
  intros Hall. unfold dont_care. apply not_true_is_false.
  intros (dw & Hdw & Hc)%existsb_exists.
  rewrite Forall_forall in Hall.
  destruct (Hall dw) as (c & Hin & Hlow); [by apply list_elem_of_In|].
  apply (contains_elem dw (upper name) c Hc) in Hin.
  unfold upper in Hin. change (c ∈ upper_char <$> name) in Hin.
  apply list_elem_of_fmap in Hin as (c' & -> & _).
  by rewrite islower_upper_char in Hlow.
Qed.

(** * The loose key *)

Lemma replace_char (a b : ascii) (s : text) :
  replace [a] [b] s = map (fun c => if Ascii.eqb a c then b else c) s.
Proof.
  unfold replace. induction s as [|c s IH]; [done|].
  cbn [replace_from is_prefix map length Nat.sub].
  destruct (Ascii.eqb a c); cbn; by rewrite IH.
Qed.

Lemma replace_underscore_clean (s : text) :
  Forall (fun c => c ≠ "_"%char) (replace (txt "_") (txt " ") s).
Proof.
  change (txt "_") with ["_"%char]. change (txt " ") with [" "%char].
  rewrite replace_char. apply Forall_forall. intros c Hc.
  change (c ∈ (fun c => if Ascii.eqb "_" c then " "%char else c) <$> s) in Hc.
  apply list_elem_of_fmap in Hc as (c' & -> & _).
  destruct (Ascii.eqb "_" c') eqn:E; [done|].
  intros ->. by rewrite Ascii.eqb_refl in E.
Qed.

Lemma replace_underscore_absent (s : text) :
  Forall (fun c => c ≠ "_"%char) s → replace (txt "_") (txt " ") s = s.
Proof.
  intros H. change (txt "_") with ["_"%char]. change (txt " ") with [" "%char].
  rewrite replace_char. induction H as [|c s Hc _ IH]; [done|]. cbn [map].
  destruct (Ascii.eqb "_" c) eqn:E.
  - apply Ascii.eqb_eq in E. by destruct Hc.
  - by rewrite IH.
Qed.

Lemma split_ws_aux_tidy (cur s : text) :
  Forall tidy_char cur → Forall (fun c => c ≠ "_"%char) s →
  Forall tidy_word (split_ws_aux cur s).
Proof.
  intros Hcur Hs. revert cur Hcur.
  induction Hs as [|c s Hc _ IH]; intros cur Hcur; cbn [split_ws_aux].
  - destruct cur as [|a cur]; [constructor|].
    constructor; [|constructor]. split.
    + cbn. by destruct (rev cur).
    + by apply Forall_rev.
  - destruct (isspace c) eqn:E.
    + destruct cur as [|a cur]; [by apply IH|].
      constructor; [|by apply IH]. split.
      * cbn. by destruct (rev cur).
      * by apply Forall_rev.
    + apply IH. by constructor.
Qed.

Lemma split_ws_aux_word (w cur s : text) :
  Forall tidy_char w →
  split_ws_aux cur (w ++ s) = split_ws_aux (rev w ++ cur) s.
Proof.
  intros H. revert cur. induction H as [|c w [Hc _] _ IH]; intros cur; [done|].
  cbn [app split_ws_aux]. rewrite Hc, IH. cbn [rev]. by rewrite <- app_assoc.
Qed.

Lemma join_cons2 (sep w w2 : text) (ws : list text) :
  join sep (w :: w2 :: ws) = w ++ sep ++ join sep (w2 :: ws).
Proof. reflexivity. Qed.

Lemma split_ws_aux_space (cur s : text) :
  cur ≠ [] →
  split_ws_aux cur (" "%char :: s) = rev cur :: split_ws_aux [] s.
Proof. intros H. cbn [split_ws_aux]. by destruct cur. Qed.

Lemma rev_nonempty (w : text) : w ≠ [] → rev w ≠ [].
Proof.
  intros H E. apply (f_equal (@rev ascii)) in E.
  by rewrite rev_involutive in E.
Qed.

(** Splitting what was joined with single spaces gives the words
    back. *)
Lemma split_join (ws : list text) :
  Forall tidy_word ws → split_ws (join (txt " ") ws) = ws.
Proof.
  unfold split_ws. induction 1 as [|w ws [Hne Hw] Hws IH]; [done|].
  destruct ws as [|w2 ws].
  - cbn [join]. pose proof (split_ws_aux_word w [] [] Hw) as Hsplit.
    rewrite !app_nil_r in Hsplit. rewrite Hsplit. cbn [split_ws_aux].
    pose proof (rev_nonempty w Hne) as Hr.
    destruct (rev w) eqn:E; [done|]. by rewrite <- E, rev_involutive.
  - rewrite join_cons2, split_ws_aux_word by done. rewrite app_nil_r.
    change (txt " " ++ join (txt " ") (w2 :: ws))
      with (" "%char :: join (txt " ") (w2 :: ws)).
    rewrite split_ws_aux_space by by apply rev_nonempty.
    by rewrite rev_involutive, IH.
Qed.

Lemma join_tidy (ws : list text) :
  Forall tidy_word ws → Forall (fun c => c ≠ "_"%char) (join (txt " ") ws).
Proof.
  induction 1 as [|w ws [_ Hw] Hws IH]; [constructor|].
  assert (Forall (fun c => c ≠ "_"%char) w) as Hw'.
  { eapply Forall_impl; [exact Hw|]. by intros c [_ ?]. }
  destruct ws as [|w2 ws]; [done|]. rewrite join_cons2.
  apply Forall_app. split; [done|]. apply Forall_app. split; [|done].
  by repeat constructor.
Qed.

Lemma join_ends (ws : list text) :
  Forall tidy_word ws → ws ≠ [] →
  (∃ c t, join (txt " ") ws = c :: t ∧ isspace c = false) ∧
  (∃ t c, join (txt " ") ws = t ++ [c] ∧ isspace c = false).
Proof.
  induction 1 as [|w ws [Hne Hw] Hws IH]; [done|]. intros _.
  assert (∃ c t, w = c :: t ∧ isspace c = false) as (c & t & -> & Hc).
  { destruct w as [|c t]; [done|]. exists c, t. split; [done|].
    apply Forall_cons in Hw as [[? _] _]. done. }
  assert (∃ t' c', c :: t = t' ++ [c'] ∧ isspace c' = false) as Hlast.
  { destruct (rev (c :: t)) as [|c' t'] eqn:E.
    - apply (f_equal (@rev ascii)) in E. by rewrite rev_involutive in E.
    - apply (f_equal (@rev ascii)) in E. rewrite rev_involutive in E.
      cbn [rev] in E. exists (rev t'), c'. split; [done|].
      rewrite E in Hw. apply Forall_app in Hw as [_ Hw].
      apply Forall_cons in Hw as [[? _] _]. done. }
  destruct ws as [|w2 ws].
  - cbn [join]. split; [by exists c, t|exact Hlast].
  - destruct IH as [_ (t2 & c2 & Heq & Hc2)]; [done|]. split.
    + exists c, (t ++ txt " " ++ join (txt " ") (w2 :: ws)). done.
    + exists ((c :: t) ++ txt " " ++ t2), c2. split; [|done].
      rewrite join_cons2, Heq. by rewrite <- !app_assoc.
Qed.

(** Stripping changes nothing in words joined with single spaces. *)
Lemma strip_join (ws : list text) :
  Forall tidy_word ws → strip (join (txt " ") ws) = join (txt " ") ws.
Proof.
  intros H. destruct ws as [|w ws]; [done|].
  destruct (join_ends (w :: ws) H) as [(c & t & Hhead & Hc) (t' & c' & Hlast & Hc')];
    [done|].
  unfold strip, rstrip, rstrip_by, lstrip.
  assert (drop_while isspace (rev (join (txt " ") (w :: ws))) =
          rev (join (txt " ") (w :: ws))) as ->.
  { rewrite Hlast, rev_app_distr. cbn. by rewrite Hc'. }
  rewrite rev_involutive, Hhead. cbn. by rewrite Hc.
Qed.

Lemma isspace_lower_char (c : ascii) : isspace (lower_char c) = isspace c.
Proof. ascii_cases c; reflexivity. Qed.

Lemma lower_char_underscore (c : ascii) : lower_char c = "_"%char → c = "_"%char.
Proof. ascii_cases c; vm_compute; done. Qed.

Lemma lower_idem (s : text) : lower (lower s) = lower s.
Proof.
  unfold lower. rewrite map_map. apply map_ext. apply lower_char_idem.
Qed.

Lemma lower_join (ws : list text) :
  lower (join (txt " ") ws) = join (txt " ") (lower <$> ws).
Proof.
  induction ws as [|w ws IH]; [done|]. destruct ws as [|w2 ws]; [done|].
  cbn [fmap list_fmap] in *. rewrite !join_cons2.
  unfold lower at 1. rewrite !map_app.
  fold (lower w). f_equal. f_equal. exact IH.
Qed.

Lemma lower_tidy (ws : list text) :
  Forall tidy_word ws → Forall tidy_word (lower <$> ws).
Proof.
  intros H. apply Forall_fmap. eapply Forall_impl; [exact H|].
  intros w [Hne Hw]. split.
  - by destruct w.
  - unfold lower. change (map lower_char w) with (lower_char <$> w).
    apply Forall_fmap. eapply Forall_impl; [exact Hw|].
    intros c [Hc Hu]. split.
    + cbn. by rewrite isspace_lower_char.
    + cbn. intros H'. by apply lower_char_underscore in H'.
Qed.

Lemma norm_loose_words (cfg : settings) (s : text) :
  ∃ ws, Forall tidy_word ws ∧ norm_loose cfg s = join (txt " ") ws ∧
        loose_case cfg (join (txt " ") ws) = join (txt " ") ws.
Proof.
  unfold norm_loose, loose_case.
  set (ws := split_ws (replace (txt "_") (txt " ") s)).
  assert (Forall tidy_word ws) as Hws.
  { apply split_ws_aux_tidy; [constructor|apply replace_underscore_clean]. }
  rewrite (strip_join ws Hws).
  destruct (LOOSE_CASE_INSENSITIVE cfg).
  - exists (lower <$> ws). split_and!.
    + by apply lower_tidy.
    + apply lower_join.
    + by rewrite <- lower_join, lower_idem.
  - by exists ws.
Qed.

(** X17.  [norm_loose] is idempotent: a loose key is its own loose
    key. *)
Theorem norm_loose_idempotent (cfg : settings) (s : list ascii) :
  norm_loose cfg (norm_loose cfg s) = norm_loose cfg s.
Proof.
  destruct (norm_loose_words cfg s) as (ws & Hws & -> & Hcase).
  unfold norm_loose at 1.
  rewrite (replace_underscore_absent _ (join_tidy ws Hws)).
  rewrite (split_join ws Hws), (strip_join ws Hws). exact Hcase.
Qed.

(** * Writing and failing *)

Section Writing.

Context {Page : Type} (get_text : Page → text).

(** X18.  [write_pdf_pages] on a list of page numbers of the document
    that is not empty, when the file can be saved: it saves the pages
    asked for, in the order asked for and as often as asked for (it
    neither sorts nor removes repetitions itself), and prints nothing. *)
Theorem write_pdf_pages_in_order (fs : files) (src : list Page)
    (keep : list nat) (w : world) :
  keep ≠ [] →
  (∀ p, p ∈ keep → 1 ≤ p ≤ length src) →
  OUT_writable fs = true →
  ∃ out,
    write_pdf_pages fs (Some src) keep w = (World (stdout w) (Some out), Some tt) ∧
    Forall2 (fun p pg => src !! (p - 1) = Some pg) keep out.
Proof.
  intros Hne Hin Hw.
  destruct (foldl_insert_pdf src keep [] Hin) as (out & Hout & Hall).
  exists out. split; [|done].
  unfold write_pdf_pages. destruct keep as [|p keep]; [done|].
  cbv beta iota zeta delta [fitz_open mbind io_bind mret io_ret save].
  by rewrite Hw, Hout.
Qed.

(** X19.  [write_pdf_pages] with pages to write raises, and leaves the
    output file and the printed lines as they were, when the document
    cannot be opened or the file cannot be saved. *)
Theorem write_pdf_pages_failure (fs : files)
    (source_pdf : option (list Page)) (keep : list nat) (w : world) :
  keep ≠ [] →
  source_pdf = None ∨ OUT_writable fs = false →
  write_pdf_pages fs source_pdf keep w = (w, None).
Proof.
  intros Hne Hfail. unfold write_pdf_pages.
  destruct keep as [|p keep]; [done|].
  cbv beta iota zeta delta [fitz_open mbind io_bind mret io_ret save raise].
  destruct source_pdf as [src|]; [|done].
  destruct Hfail as [?|Hw]; [done|]. by rewrite Hw.
Qed.

(** X20.  The run fails (status 1) exactly when the source cannot be
    opened, or the target cannot be opened, or there are pages to keep
    and the output cannot be saved; the status is 0 otherwise, and a
    failed run leaves no output file. *)
Theorem run_failure_conditions (cfg : settings) (fs : files) :
  ((run get_text cfg fs).2 = 1 ↔
   SOURCE_PDF fs = None ∨ TARGET_PDF fs = None ∨
   (OUT_writable fs = false ∧
    ∃ src tgt, SOURCE_PDF fs = Some src ∧ TARGET_PDF fs = Some tgt ∧
               kept_list get_text cfg src tgt ≠ [])) ∧
  ((run get_text cfg fs).2 = 1 → OUT_PDF (run get_text cfg fs).1 = None) ∧
  ((run get_text cfg fs).2 = 0 ∨ (run get_text cfg fs).2 = 1).
Proof.
  destruct fs as [[src|] [tgt|] writable]; unfold run.
  - rewrite main_opened. cbn [SOURCE_PDF TARGET_PDF OUT_writable].
    destruct (kept_list get_text cfg src tgt) as [|p kept'] eqn:E.
    + cbn [fst snd OUT_PDF]. split_and!; [|done|by left]. split; [done|].
      intros [?|[?|(_ & src' & tgt' & [= <-] & [= <-] & H)]]; try done.
    + destruct writable; cbn [fst snd OUT_PDF].
      * split_and!; [|done|by left]. split; [done|].
        intros [?|[?|(? & _)]]; done.
      * split_and!; [|done|by right]. split; [|done]. intros _.
        right; right. split; [done|]. exists src, tgt. by rewrite E.
  - cbn. split_and!; [|done|by right]. split; [|done]. intros _. by right; left.
  - cbn. split_and!; [|done|by right]. split; [|done]. intros _. by left.
  - cbn. split_and!; [|done|by right]. split; [|done]. intros _. by left.
Qed.

End Writing.

(** X21.  A source name that is repeated adds no page the second time,
    and is counted again. *)
Theorem repeated_name_counts_again (cfg : settings)
    (tgt_page_map : gmap nat (list (list ascii))) (s : list ascii)
    (src_names : list (list ascii)) :
  s ∈ src_names →
  kept_pages (match_all cfg tgt_page_map (s :: src_names)) =
    kept_pages (match_all cfg tgt_page_map src_names) ∧
  counted (match_all cfg tgt_page_map (s :: src_names)) =
    S (counted (match_all cfg tgt_page_map src_names)).
Proof.
  intros Hs. split.
  - apply set_eq. intros p. unfold match_all. rewrite !foldl_record_kept.
    cbn [kept_pages]. split.
    + intros [H|(s' & [->|H']%elem_of_cons & Hp)]; [by left|right..].
      * by exists s.
      * by exists s'.
    + intros [H|(s' & H' & Hp)]; [by left|right].
      exists s'. split; [by right|done].
  - unfold match_all. rewrite !foldl_match_one_counted. cbn. lia.
Qed.

(** * What [norm_layout] replaces *)

Lemma replace_from_skip (old new x b : text) :
  replace_from old new (length x) (x ++ b) = replace_from old new 0 b.
Proof. induction x as [|c x IH]; [done|]. cbn. apply IH. Qed.

Lemma is_prefix_app (old b : text) : is_prefix old (old ++ b) = true.
Proof.
  induction old as [|c old IH]; [done|]. cbn. by rewrite Ascii.eqb_refl.
Qed.

Lemma replace_from_lead (h : ascii) (t new a s : text) :
  Forall (fun c => c ≠ h) a →
  replace_from (h :: t) new 0 (a ++ s) = a ++ replace_from (h :: t) new 0 s.
Proof.
  induction 1 as [|c a Hc _ IH]; [done|].
  cbn [app replace_from is_prefix].
  destruct (Ascii.eqb h c) eqn:E.
  - apply Ascii.eqb_eq in E. by destruct Hc.
  - cbn. by rewrite IH.
Qed.

(** One occurrence of [old] between two texts without its first
    character is replaced, and nothing else is touched. *)
Lemma replace_once (h : ascii) (t new a b : text) :
  Forall (fun c => c ≠ h) a → Forall (fun c => c ≠ h) b →
  replace (h :: t) new (a ++ (h :: t) ++ b) = a ++ new ++ b.
Proof.
  intros Ha Hb. unfold replace. rewrite replace_from_lead by done.
  f_equal. cbn [app]. cbn [replace_from].
  rewrite (is_prefix_app (h :: t) b : is_prefix (h :: t) (h :: t ++ b) = true).
  f_equal. cbn [length]. replace (S (length t) - 1) with (length t) by lia.
  rewrite replace_from_skip. by apply replace_from_absent.
Qed.

Lemma replace_absent (h : ascii) (t new s : text) :
  Forall (fun c => c ≠ h) s → replace (h :: t) new s = s.
Proof. apply replace_from_absent. Qed.

(** X22.  Between two texts of plain ASCII characters, [norm_layout]
    removes a soft hyphen and turns an en dash and an em dash into the
    hyphen-minus; the texts around stay as they are. *)
Theorem norm_layout_dashes (a b : list ascii) :
  Forall (fun c => code c < 128) a → Forall (fun c => code c < 128) b →
  norm_layout (a ++ SOFT_HYPHEN ++ b) = a ++ b ∧
  norm_layout (a ++ EN_DASH ++ b) = a ++ txt "-" ++ b ∧
  norm_layout (a ++ EM_DASH ++ b) = a ++ txt "-" ++ b.
Proof.
  intros Ha Hb.
  assert (∀ (s : text) n, Forall (fun c => code c < 128) s →
            128 ≤ n → n < 256 → Forall (fun c => c ≠ ascii_of_nat n) s)
    as Habsent.
  { intros s n Hs Hn Hn'. eapply Forall_impl; [exact Hs|].
    intros c Hc. by apply plain_not_byte. }
  assert (∀ x : text, x ≠ [] → norm_layout (a ++ x ++ b) =
            replace EM_DASH (txt "-")
              (replace EN_DASH (txt "-") (replace SOFT_HYPHEN [] (a ++ x ++ b))))
    as Hnorm.
  { intros x Hx. unfold norm_layout.
    destruct (a ++ x ++ b) as [|c s] eqn:E; [|done].
    apply app_eq_nil in E as [_ [E _]%app_eq_nil]. done. }
  assert (Forall (fun c => code c < 128) (txt "-")) as Hdash.
  { repeat constructor. }
  split_and!.
  - rewrite Hnorm by done.
    unfold SOFT_HYPHEN. cbn [map].
    rewrite replace_once by (apply Habsent; [done|lia|lia]). cbn [app].
    unfold EN_DASH, EM_DASH. cbn [map].
    rewrite (replace_absent _ _ _ (a ++ b))
      by (apply Habsent; [by apply Forall_app|lia|lia]).
    by rewrite (replace_absent _ _ _ (a ++ b))
      by (apply Habsent; [by apply Forall_app|lia|lia]).
  - rewrite Hnorm by done.
    unfold SOFT_HYPHEN. cbn [map].
    rewrite replace_absent.
    2:{ apply Forall_app. split; [apply Habsent; [done|lia|lia]|].
        apply Forall_app. split; [|apply Habsent; [done|lia|lia]].
        unfold EN_DASH. cbn [map]. repeat constructor; intros E; vm_compute in E; discriminate E. }
    unfold EN_DASH. cbn [map].
    rewrite replace_once by (apply Habsent; [done|lia|lia]).
    unfold EM_DASH. cbn [map].
    rewrite replace_absent; [done|].
    apply Habsent; [|lia|lia]. apply Forall_app. split; [done|].
    by apply Forall_app.
  - rewrite Hnorm by done.
    unfold SOFT_HYPHEN. cbn [map].
    rewrite replace_absent.
    2:{ apply Forall_app. split; [apply Habsent; [done|lia|lia]|].
        apply Forall_app. split; [|apply Habsent; [done|lia|lia]].
        unfold EM_DASH. cbn [map]. repeat constructor; intros E; vm_compute in E; discriminate E. }
    assert (replace EN_DASH (txt "-") (a ++ EM_DASH ++ b) = a ++ EM_DASH ++ b)
      as ->.
    { unfold replace, EN_DASH. cbn [map].
      rewrite replace_from_lead by (apply Habsent; [done|lia|lia]). f_equal.
      unfold EM_DASH. cbn [map app replace_from is_prefix].
      change (Ascii.eqb (ascii_of_nat 147) (ascii_of_nat 148)) with false.
      change (Ascii.eqb (ascii_of_nat 226) (ascii_of_nat 128)) with false.
      change (Ascii.eqb (ascii_of_nat 226) (ascii_of_nat 148)) with false.
      rewrite !andb_false_r. cbn [andb].
      do 3 f_equal. apply replace_from_absent. apply Habsent; [done|lia|lia]. }
    unfold EM_DASH. cbn [map].
    by rewrite replace_once by (apply Habsent; [done|lia|lia]).
Qed.

(** * The extraction, the matching steps and the writing on the scenarios *)

Ltac id_group_ok :=
  split; [split; [discriminate|repeat constructor]|cbn; lia].

Ltac plain_text :=
  apply Forall_forall; intros ? Hc;
  repeat (apply elem_of_cons in Hc as [->|Hc]; [vm_compute; lia|]);
  by apply elem_of_nil in Hc.

(** The source page of scenario A holds an occurrence, and the search
    finds one. *)
Lemma source_search_finds_occurrence_witness :
  plain battery_source ∧
  (is_Some (search true SRC_NAME_RE battery_source) ↔
   ∃ pre lead g post, battery_source = pre ++ lead ++ g ++ post ∧
     src_occurrence pre lead g post).
Proof.
  assert (plain battery_source) as H by plain_text.
  split; [exact H|].
  exact (source_search_finds_occurrence battery_source H).
Defined.

(** The source page of scenario A adds the name of its first
    occurrence. *)
Lemma source_page_adds_first_occurrence_witness :
  plain (norm_layout battery_source) ∧
  source_page [] battery_source = [txt "Battery Voltage Check"] ∧
  ((¬ ∃ pre lead g post, norm_layout battery_source = pre ++ lead ++ g ++ post ∧
        src_occurrence pre lead g post) →
   source_page [] battery_source = []) ∧
  ((∃ pre lead g post, norm_layout battery_source = pre ++ lead ++ g ++ post ∧
      src_occurrence pre lead g post) →
   ∃ pre lead g post, norm_layout battery_source = pre ++ lead ++ g ++ post ∧
     src_occurrence pre lead g post ∧
     src_first (norm_layout battery_source) pre lead ∧
     src_shortest lead g post) ∧
  (∀ pre lead g post,
     norm_layout battery_source = pre ++ lead ++ g ++ post →
     src_occurrence pre lead g post →
     src_first (norm_layout battery_source) pre lead →
     src_shortest lead g post →
     source_page [] battery_source =
       if nonempty (clean_name g) then [] ++ [clean_name g] else []).
Proof.
  assert (plain (norm_layout battery_source)) as H.
  { assert (norm_layout battery_source = battery_source) as ->
      by (vm_compute; reflexivity).
    plain_text. }
  split; [exact H|]. split; [vm_compute; reflexivity|].
  exact (source_page_adds_first_occurrence [] battery_source H).
Defined.

(** The one match on the battery page is an occurrence of the target
    pattern. *)
Lemma target_match_is_occurrence_witness :
  plain battery_target ∧
  battery_match ∈ finditer true TGT_DEVTEST_RE battery_target ∧
  ∃ pre lead post,
    battery_target = pre ++ lead ++ group battery_match 2 ++ post ∧
    m_start battery_match = length pre ∧
    m_end battery_match = length (pre ++ lead ++ group battery_match 2) ∧
    tgt_occurrence lead (group battery_match 1) (group battery_match 2) post ∧
    tgt_shortest (group battery_match 2) post.
Proof.
  assert (plain battery_target) as Hp by plain_text.
  assert (battery_match ∈ finditer true TGT_DEVTEST_RE battery_target) as H.
  { vm_compute. left. }
  split; [exact Hp|]. split; [exact H|].
  exact (target_match_is_occurrence battery_target battery_match Hp H).
Defined.

(** The occurrence on the battery page, spelled out, is reported. *)
Lemma target_occurrences_covered_witness :
  (∃ m, m ∈ finditer true TGT_DEVTEST_RE battery_target ∧
        m_start m ≤ 0 < m_end m) ∧
  in_order 0 (finditer true TGT_DEVTEST_RE battery_target).
Proof.
  apply (target_occurrences_covered battery_target []
           (txt "Device Test: 3.2.1 ") (txt "3.2.1")
           (txt "Battery Voltage Check") (txt "  ")).
  - reflexivity.
  - split_and!.
    + exists (txt "Device"), (txt " "), (txt "Test:"), (txt " "), (txt " ").
      split_and!; try reflexivity; try (by repeat constructor).
      exists (txt "3"), [txt "2"; txt "1"].
      split_and!; try reflexivity; try (cbn; lia).
      * id_group_ok.
      * repeat (constructor; [id_group_ok|]). constructor.
    + repeat (constructor; [split; discriminate|]). constructor.
    + left. exists " "%char, " "%char, []. done.
Defined.

(** Scenario C, one step: [Sensor_Calib] against the entry
    [sensor calib]. *)
Lemma loose_fallback_step_witness :
  ∃ added : gset nat,
    match_one shipped (load_target_tests shipped [calib_page])
      (build_strict_set shipped (load_target_tests shipped [calib_page]))
      (build_loose_map shipped (load_target_tests shipped [calib_page]))
      (Tally ∅ 0 0 0) (txt "Sensor_Calib") =
    Tally (added ∪ ∅) 0 (0 + 1) 0 ∧
    ∀ p, p ∈ added ↔
         page_holds (load_target_tests shipped [calib_page]) p
           (fun n => norm_loose shipped n = norm_loose shipped (txt "Sensor_Calib")).
Proof.
  assert (load_target_tests shipped [calib_page] = {[1 := [txt "sensor calib"]]})
    as Hidx.
  { vm_compute. reflexivity. }
  apply (loose_fallback_step shipped (load_target_tests shipped [calib_page])
           (Tally ∅ 0 0 0) (txt "Sensor_Calib")).
  - reflexivity.
  - rewrite Hidx. intros (n & (p & names & Hl & Hn) & Hk).
    apply lookup_singleton_Some in Hl as [_ <-].
    apply list_elem_of_singleton in Hn as ->. vm_compute in Hk. discriminate Hk.
  - rewrite Hidx. exists (txt "sensor calib"). split.
    + exists 1, [txt "sensor calib"]. split; [reflexivity|left].
    + vm_compute. reflexivity.
Defined.

(** A source name no entry answers, in either mode. *)
Lemma no_match_step_witness :
  match_one shipped (load_target_tests shipped [battery_target])
    (build_strict_set shipped (load_target_tests shipped [battery_target]))
    (build_loose_map shipped (load_target_tests shipped [battery_target]))
    (Tally ∅ 0 0 0) (txt "Fan Speed") =
  Tally ∅ 0 0 (0 + 1).
Proof.
  assert (load_target_tests shipped [battery_target] =
          {[1 := [txt "Battery Voltage Check"]]}) as Hidx.
  { vm_compute. reflexivity. }
  apply (no_match_step shipped (load_target_tests shipped [battery_target])
           (Tally ∅ 0 0 0) (txt "Fan Speed")).
  - rewrite Hidx. intros (n & (p & names & Hl & Hn) & Hk).
    apply lookup_singleton_Some in Hl as [_ <-].
    apply list_elem_of_singleton in Hn as ->. vm_compute in Hk. discriminate Hk.
  - intros _. rewrite Hidx. intros (n & (p & names & Hl & Hn) & Hk).
    apply lookup_singleton_Some in Hl as [_ <-].
    apply list_elem_of_singleton in Hn as ->. vm_compute in Hk. discriminate Hk.
Defined.

(** Two source names, in either order. *)
Lemma match_all_order_irrelevant_witness :
  match_all shipped (load_target_tests shipped [battery_target; calib_page])
    [txt "Sensor_Calib"; txt "Battery Voltage Check"] =
  match_all shipped (load_target_tests shipped [battery_target; calib_page])
    [txt "Battery Voltage Check"; txt "Sensor_Calib"].
Proof.
  apply (match_all_order_irrelevant shipped
           (load_target_tests shipped [battery_target; calib_page])
           [txt "Sensor_Calib"; txt "Battery Voltage Check"]
           [txt "Battery Voltage Check"; txt "Sensor_Calib"]).
  apply perm_swap.
Defined.

(** Scenario B from the side of the source, with the strict step blind
    to letter case: the name [conty startup] is one the test would drop,
    and no entry of the index has its strict key. *)
Lemma dropped_name_has_no_strict_match_witness :
  (STRICT_CASE_SENSITIVE case_blind_settings = false →
   plain (txt "conty startup") ∧
   Forall (fun raw => plain (norm_layout raw)) mixed_doc) ∧
  dont_care case_blind_settings (txt "conty startup") = true ∧
  load_target_tests case_blind_settings mixed_doc =
    {[2 := [txt "Battery Voltage Check"]]} ∧
  ¬ strictly_answered case_blind_settings
      (load_target_tests case_blind_settings mixed_doc) (txt "conty startup").
Proof.
  assert (STRICT_CASE_SENSITIVE case_blind_settings = false →
          plain (txt "conty startup") ∧
          Forall (fun raw => plain (norm_layout raw)) mixed_doc) as Hp.
  { intros _. split; [plain_text|].
    assert (norm_layout conty_page = conty_page) as E1
      by (vm_compute; reflexivity).
    assert (norm_layout battery_target = battery_target) as E2
      by (vm_compute; reflexivity).
    unfold mixed_doc. constructor; [rewrite E1; plain_text|].
    constructor; [rewrite E2; plain_text|constructor]. }
  assert (dont_care case_blind_settings (txt "conty startup") = true) as H.
  { vm_compute. reflexivity. }
  split; [exact Hp|]. split; [exact H|]. split; [vm_compute; reflexivity|].
  exact (dropped_name_has_no_strict_match case_blind_settings mixed_doc
           (txt "conty startup") Hp H).
Defined.

Lemma norm_layout_plain_text_witness :
  norm_layout battery_target = battery_target.
Proof.
  apply (norm_layout_plain_text battery_target).
  apply Forall_forall. intros c Hc.
  repeat (apply elem_of_cons in Hc as [->|Hc]; [vm_compute; lia|]).
  by apply elem_of_nil in Hc.
Defined.

Lemma norm_layout_dashes_witness :
  norm_layout (txt "self" ++ SOFT_HYPHEN ++ txt "test") = txt "self" ++ txt "test" ∧
  norm_layout (txt "self" ++ EN_DASH ++ txt "test") =
    txt "self" ++ txt "-" ++ txt "test" ∧
  norm_layout (txt "self" ++ EM_DASH ++ txt "test") =
    txt "self" ++ txt "-" ++ txt "test".
Proof.
  apply (norm_layout_dashes (txt "self") (txt "test"));
    repeat (constructor; [vm_compute; lia|]); constructor.
Defined.

(** With the drop-word written [conty], the entry [conty startup] is
    not dropped. *)
Lemma lower_case_drop_words_drop_nothing_witness :
  dont_care lower_case_settings (txt "conty startup") = false.
Proof.
  apply (lower_case_drop_words_drop_nothing lower_case_settings
           (txt "conty startup")).
  constructor; [|constructor].
  exists "c"%char. split; [left|reflexivity].
Defined.

(** Page 2, page 1 and page 2 again of a document of two pages. *)
Lemma write_pdf_pages_in_order_witness :
  ∃ out,
    write_pdf_pages (Files None None true)
      (Some [battery_target; calib_page]) [2; 1; 2] (World [] None) =
      (World [] (Some out), Some tt) ∧
    Forall2 (fun p pg => [battery_target; calib_page] !! (p - 1) = Some pg)
      [2; 1; 2] out.
Proof.
  apply (write_pdf_pages_in_order (Files None None true)
           [battery_target; calib_page] [2; 1; 2] (World [] None)).
  - discriminate.
  - intros p Hp.
    repeat (apply elem_of_cons in Hp as [->|Hp]; [cbn; lia|]).
    by apply elem_of_nil in Hp.
  - reflexivity.
Defined.

(** A document that cannot be opened. *)
Lemma write_pdf_pages_failure_witness :
  write_pdf_pages (Files (Some [battery_source]) None true) None [1]
    (World [] None) = (World [] None, None).
Proof.
  apply (write_pdf_pages_failure (Files (Some [battery_source]) None true)
           None [1] (World [] None)).
  - discriminate.
  - left. reflexivity.
Defined.

(** Scenario A with the source name listed twice. *)
Lemma repeated_name_counts_again_witness :
  kept_pages (match_all shipped (load_target_tests shipped [battery_target])
                [txt "Battery Voltage Check"; txt "Battery Voltage Check"]) =
    kept_pages (match_all shipped (load_target_tests shipped [battery_target])
                  [txt "Battery Voltage Check"]) ∧
  counted (match_all shipped (load_target_tests shipped [battery_target])
             [txt "Battery Voltage Check"; txt "Battery Voltage Check"]) =
    S (counted (match_all shipped (load_target_tests shipped [battery_target])
                  [txt "Battery Voltage Check"])).
Proof.
  apply (repeated_name_counts_again shipped
           (load_target_tests shipped [battery_target])
           (txt "Battery Voltage Check") [txt "Battery Voltage Check"]).
  left.
Defined.
